(** * Heater tape control panel: entity model, migration, simulation, metrics

    A shallow embedding of the state model of [src/pages/Index.tsx]:
    the tape / segment / sensor records, their constructors, the id
    allocator, the command handlers installed with [useCallback], the
    periodic simulation tick, the derived metrics, and the migration that
    [loadSettings] runs over a parsed settings blob.

    Conventions of the embedding.
    - JavaScript numbers that hold identifiers are [nat] (ids are allocated
      as [max + 1], starting from 1); [power] and [targetTemp], which the
      sliders set in whole steps, are [Z].
    - A temperature is kept as the rational number [Q] that its decimal
      digits denote; the binary64 number the program holds for it is the
      nearest one, [double] of it. The constructors and the metrics compute
      with these rationals as they are. The simulation tick, whose result
      depends on the rounding of binary64 arithmetic, rounds with [double]
      after every operation, as the program does.
    - [Math.random ()] and [new Date ()] are read from an environment: the
      n-th call of [Math.random] returns [random e n], and functions that
      draw random numbers thread the number of draws made so far.
    - A value read out of parsed JSON may be missing: such fields have type
      [js A]. *)

From Stdlib Require Import List String Ascii Bool Arith ZArith QArith Qround Qabs Qpower
  Lia Lqa.
From Stdlib Require DecimalString HexadecimalString SpecFloat.
Import ListNotations.

Local Open Scope string_scope.
Local Open Scope list_scope.
Local Open Scope nat_scope.

(** ** Values as JavaScript has them *)

(** A property of a parsed JSON object: absent ([undefined]), [null], or
    holding a value of the expected type. *)
Inductive js (A : Type) : Type :=
| undefined : js A
| null : js A
| val : A -> js A.

Arguments undefined {A}.
Arguments null {A}.
Arguments val {A} _.

(** [x ?? d] *)
Definition nullish {A : Type} (x : js A) (d : A) : A :=
  match x with
  | val a => a
  | _ => d
  end.

(** Truthiness of a property that, when present, holds an array or an
    object: every array is truthy, the empty one too. *)
Definition truthy {A : Type} (x : js A) : bool :=
  match x with
  | val _ => true
  | _ => false
  end.

(** [(x as string) || d] : the empty string is falsy. *)
Definition strOr (x : js string) (d : string) : string :=
  match x with
  | val "" => d
  | val s => s
  | _ => d
  end.

(** [String (n)] for a non-negative integer. *)
Definition String_ (n : nat) : string :=
  DecimalString.NilZero.string_of_uint (Nat.to_uint n).

(** [s.padStart (n, "0")] *)
Definition padStart (n : nat) (s : string) : string :=
  (String.concat "" (repeat "0" (n - String.length s)) ++ s)%string.

Definition upperAscii (c : ascii) : ascii :=
  let k := nat_of_ascii c in
  if (97 <=? k)%nat && (k <=? 122)%nat then ascii_of_nat (k - 32) else c.

Fixpoint toUpperCase (s : string) : string :=
  match s with
  | EmptyString => EmptyString
  | String c r => String (upperAscii c) (toUpperCase r)
  end.

(** [v.toString (16)] for an integer [v]. *)
Definition toString16 (v : Z) : string :=
  HexadecimalString.NilZero.string_of_int (Z.to_hex_int v).

(** [Math.floor], [Math.ceil] and [Math.round]; the last rounds halves up. *)
Definition Math_floor (x : Q) : Z := Qfloor x.
Definition Math_ceil (x : Q) : Z := Qceiling x.
Definition Math_round (x : Q) : Z := Qfloor (x + (1 # 2))%Q.

(** [a > b] on numbers. *)
Definition Qgtb (a b : Q) : bool := negb (Qle_bool a b).

(** [x.toFixed (1)], as the number its digits denote: the nearest multiple
    of one tenth, the larger in magnitude when two are equally near. *)
Definition toFixed1 (x : Q) : Q :=
  if Qle_bool 0 x
  then (inject_Z (Qfloor (x * 10 + (1 # 2))) / 10)%Q
  else (- (inject_Z (Qfloor ((- x) * 10 + (1 # 2))) / 10))%Q.

(** ** Binary64 numbers

    A JavaScript number is a binary64 floating-point number, and the
    result of [+], [-], [*] and [/] is the binary64 number nearest to the
    exact result, the one with the even last digit when two are equally
    near. The binary64 numbers of magnitude below [2 ^ 1024] are the
    integers of at most 53 binary digits times a power of two that is not
    below [2 ^ -1074]. Results of magnitude [2 ^ 1024] and more, for which
    the program has [Infinity], are outside this model. *)

(** [floor (log2 q)] for [q > 0]. *)
Definition ilog2 (q : Q) : Z :=
  if Qle_bool 1 q
  then Z.log2 (Qfloor q)
  else (- Z.log2_up (Qceiling (/ q)))%Z.

(** The nearest integer, the even one of two that are equally near. *)
Definition round_even (x : Q) : Z :=
  let f := Qfloor x in
  match Qcompare (x - inject_Z f) (1 # 2) with
  | Lt => f
  | Gt => (f + 1)%Z
  | Eq => if Z.even f then f else (f + 1)%Z
  end.

(** The exponent of the last of the 53 binary digits of a number of the
    magnitude of [q]. *)
Definition ulp_exponent (q : Q) : Z := Z.max (ilog2 (Qabs q) - 52) (-1074).

(** The binary64 number nearest to [q]. *)
Definition double (q : Q) : Q :=
  if Qeq_bool q 0
  then 0%Q
  else Qred (inject_Z (round_even (q / 2 ^ ulp_exponent q)) * 2 ^ ulp_exponent q)%Q.

(** The largest binary64 number that is not above [q], for [q >= 0]. *)
Definition double_below (q : Q) : Q :=
  if Qeq_bool q 0
  then 0%Q
  else Qred (inject_Z (Qfloor (q / 2 ^ ulp_exponent q)) * 2 ^ ulp_exponent q)%Q.

(** ** The generator monad: random draws and the clock *)

Record Env : Type := mkEnv {
  random : nat -> Q;        (* result of the n-th call of Math.random *)
  clock : nat -> string     (* toLocaleTimeString after n draws *)
}.

(** [Math.random] returns a number in [0, 1). *)
Definition valid_env (e : Env) : Prop :=
  forall n, (0 <= random e n)%Q /\ (random e n < 1)%Q.

Definition Gen (A : Type) : Type := Env -> nat -> A * nat.

Definition ret {A : Type} (a : A) : Gen A := fun _ n => (a, n).

Definition bind {A B : Type} (m : Gen A) (k : A -> Gen B) : Gen B :=
  fun e n => let (a, n') := m e n in k a e n'.

Notation "x <- m ;; k" := (bind m (fun x => k))
  (at level 61, m at next level, right associativity).

Definition Math_random : Gen Q := fun e n => (random e n, S n).

Definition timeString : Gen string := fun e n => (clock e n, n).

(** [l.map (f)] when [f] has effects: elements are visited left to right. *)
Fixpoint mapM {A B : Type} (f : A -> Gen B) (l : list A) : Gen (list B) :=
  match l with
  | [] => ret []
  | a :: r => b <- f a ;; bs <- mapM f r ;; ret (b :: bs)
  end.

(** [Array.from ({ length: n }, (_, i) => f i)] *)
Definition Array_from {B : Type} (n : nat) (f : nat -> Gen B) : Gen (list B) :=
  mapM f (seq 0 n).

(** The value a generator returns, and the number of draws after it. *)
Definition run {A : Type} (m : Gen A) (e : Env) (n : nat) : A := fst (m e n).
Definition draws {A : Type} (m : Gen A) (e : Env) (n : nat) : nat := snd (m e n).

(** ** Data model *)

Inductive SensorStatus : Type := online | offline | error.

Inductive SegmentStatus : Type := normal | warning | critical | off.

Inductive Severity : Type := low | medium | high | sev_critical.

Module Sensor.
Record t : Type := mk {
  id : string;
  serial : string;
  temperature : Q;
  status : SensorStatus;
  lastUpdate : string
}.
End Sensor.

Module Segment.
Record t : Type := mk {
  id : nat;
  name : string;
  enabled : bool;
  power : Z;
  temperature : Q;
  targetTemp : Z;
  status : SegmentStatus;
  sensorId : string;
  sensors : list Sensor.t
}.

(** [{ ...s, temperature }] and the other spreads the handlers use. *)
Definition with_temperature (s : t) (v : Q) : t :=
  mk (id s) (name s) (enabled s) (power s) v (targetTemp s) (status s)
     (sensorId s) (sensors s).

Definition with_power (s : t) (v : Z) : t :=
  mk (id s) (name s) (enabled s) v (temperature s) (targetTemp s) (status s)
     (sensorId s) (sensors s).

Definition with_targetTemp (s : t) (v : Z) : t :=
  mk (id s) (name s) (enabled s) (power s) (temperature s) v (status s)
     (sensorId s) (sensors s).

Definition with_enabled_status (s : t) (b : bool) (st : SegmentStatus) : t :=
  mk (id s) (name s) b (power s) (temperature s) (targetTemp s) st
     (sensorId s) (sensors s).
End Segment.

Module Tape.
Record t : Type := mk {
  id : nat;
  name : string;
  coordinates : string;
  contractNumber : string;
  length : string;
  width : string;
  segments : list Segment.t;
  enabled : bool
}.

Definition with_segments (x : t) (v : list Segment.t) : t :=
  mk (id x) (name x) (coordinates x) (contractNumber x) (length x) (width x)
     v (enabled x).

Definition with_enabled (x : t) (v : bool) : t :=
  mk (id x) (name x) (coordinates x) (contractNumber x) (length x) (width x)
     (segments x) v.

Definition with_name (x : t) (v : string) : t :=
  mk (id x) v (coordinates x) (contractNumber x) (length x) (width x)
     (segments x) (enabled x).

Definition with_coordinates (x : t) (v : string) : t :=
  mk (id x) (name x) v (contractNumber x) (length x) (width x)
     (segments x) (enabled x).

Definition with_contractNumber (x : t) (v : string) : t :=
  mk (id x) (name x) (coordinates x) v (length x) (width x)
     (segments x) (enabled x).

Definition with_length (x : t) (v : string) : t :=
  mk (id x) (name x) (coordinates x) (contractNumber x) v (width x)
     (segments x) (enabled x).

Definition with_width (x : t) (v : string) : t :=
  mk (id x) (name x) (coordinates x) (contractNumber x) (length x) v
     (segments x) (enabled x).
End Tape.

Module Alert.
Record t : Type := mk {
  id : nat;
  timestamp : string;
  severity : Severity;
  message : string;
  acknowledged : bool
}.

Definition with_acknowledged (a : t) (v : bool) : t :=
  mk (id a) (timestamp a) (severity a) (message a) v.
End Alert.

(** ** Constructors *)

(** One [hex ()] of [generateSerial]. *)
Definition hex : Gen string :=
  r <- Math_random ;;
  ret (padStart 2 (toUpperCase (toString16 (Math_floor (r * 256)%Q)))).

Definition generateSerial : Gen string :=
  h1 <- hex ;; h2 <- hex ;; h3 <- hex ;; h4 <- hex ;; h5 <- hex ;; h6 <- hex ;;
  ret ("28-" ++ h1 ++ h2 ++ h3 ++ h4 ++ h5 ++ h6)%string.

Definition createSensors (segId : nat) (count : Z) : Gen (list Sensor.t) :=
  Array_from (Z.to_nat count) (fun j =>
    ser <- generateSerial ;;
    rt <- Math_random ;;
    rs <- Math_random ;;
    now <- timeString ;;
    ret (Sensor.mk
           ("DS18B20-" ++ padStart 2 (String_ segId) ++ padStart 2 (String_ (j + 1)))%string
           ser
           (inject_Z (-5 + Math_floor (rt * 15)%Q))
           (if Qgtb rs (9 # 10)%Q then offline else online)
           now)).

Definition sumQ (l : list Q) : Q := fold_left Qplus l 0%Q.

(** With draws in [0, 1) a segment has two to four sensors, so the average
    below never divides by zero. *)
Definition createSegment (id : nat) (enabled : bool) : Gen Segment.t :=
  rc <- Math_random ;;
  let sensorCount := (2 + Math_floor (rc * 3)%Q)%Z in
  sensors <- createSensors id sensorCount ;;
  let avgTemp :=
    (sumQ (map Sensor.temperature sensors)
       / inject_Z (Z.of_nat (List.length sensors)))%Q in
  rp <- Math_random ;;
  st <- (if enabled
         then rw <- Math_random ;; ret (if Qgtb rw (8 # 10)%Q then warning else normal)
         else ret off) ;;
  ret (Segment.mk
         id
         ("Сегмент " ++ String_ id)%string
         enabled
         (40 + Math_floor (rp * 50)%Q)%Z
         (inject_Z (Math_round (avgTemp * 10)%Q) / 10)%Q
         5%Z
         st
         ("DS18B20-" ++ padStart 3 (String_ id))%string
         sensors).

Definition createTape (id segStartId segCount : nat) : Gen Tape.t :=
  segments <- Array_from segCount (fun i =>
    createSegment (segStartId + i)
      (Z.of_nat i <? Math_ceil (inject_Z (Z.of_nat segCount) * (7 # 10))%Q)%Z) ;;
  ret (Tape.mk id ("Лента " ++ String_ id)%string "" "" "24" "50" segments true).

Definition createInitialTapes : Gen (list Tape.t) :=
  t1 <- createTape 1 1 6 ;;
  t2 <- createTape 2 7 6 ;;
  ret [ Tape.with_contractNumber (Tape.with_coordinates t1 "55.7558, 37.6173") "№2024-001";
        Tape.with_contractNumber (Tape.with_coordinates t2 "55.7600, 37.6200") "№2024-002" ].

(** [Math.max (x, ...xs)] *)
Definition Math_max (x : nat) (xs : list nat) : nat := fold_left Nat.max xs x.

Definition allSegments (tapes : list Tape.t) : list Segment.t :=
  flat_map Tape.segments tapes.

Definition getMaxSegId (tapes : list Tape.t) : nat :=
  match map Segment.id (allSegments tapes) with
  | [] => 0
  | x :: xs => Math_max x xs
  end.

Definition generateAlerts : list Alert.t :=
  [ Alert.mk 1 "13.02.2026 14:32" sev_critical "Перегрев сегмента 9 — температура 85°C" false;
    Alert.mk 2 "13.02.2026 13:15" high "Датчик DS18B20-011 не отвечает более 10 минут" false;
    Alert.mk 3 "13.02.2026 12:40" medium "Потребление линии L2 превысило 4.2 кВт" true;
    Alert.mk 4 "13.02.2026 11:00" low "Плановое обслуживание через 48 часов" true;
    Alert.mk 5 "13.02.2026 09:20" high "Короткое замыкание на сегменте 6 — автоотключение" true ].

(** ** Command handlers *)

Definition toggleTape (tapeId : nat) (prev : list Tape.t) : list Tape.t :=
  map (fun t => if Tape.id t =? tapeId
                then Tape.with_enabled t (negb (Tape.enabled t))
                else t) prev.

(** The property names [updateTapeField] is called with. *)
Inductive TapeField : Type :=
| f_name | f_coordinates | f_contractNumber | f_length | f_width.

(** [{ ...t, [field]: value }] *)
Definition setField (t : Tape.t) (field : TapeField) (value : string) : Tape.t :=
  match field with
  | f_name => Tape.with_name t value
  | f_coordinates => Tape.with_coordinates t value
  | f_contractNumber => Tape.with_contractNumber t value
  | f_length => Tape.with_length t value
  | f_width => Tape.with_width t value
  end.

(** [t[field]] *)
Definition getField (t : Tape.t) (field : TapeField) : string :=
  match field with
  | f_name => Tape.name t
  | f_coordinates => Tape.coordinates t
  | f_contractNumber => Tape.contractNumber t
  | f_length => Tape.length t
  | f_width => Tape.width t
  end.

Definition updateTapeField (tapeId : nat) (field : TapeField) (value : string)
  (prev : list Tape.t) : list Tape.t :=
  map (fun t => if Tape.id t =? tapeId then setField t field value else t) prev.

Definition addTape (prev : list Tape.t) : Gen (list Tape.t) :=
  let maxTapeId := fold_left (fun m t => Nat.max m (Tape.id t)) prev 0 in
  let maxSeg := getMaxSegId prev in
  t <- createTape (maxTapeId + 1) (maxSeg + 1) 4 ;;
  ret (prev ++ [t]).

Definition removeTape (tapeId : nat) (prev : list Tape.t) : list Tape.t :=
  if 1 <? List.length prev
  then filter (fun t => negb (Tape.id t =? tapeId)) prev
  else prev.

Definition addSegmentToTape (tapeId : nat) (prev : list Tape.t) : Gen (list Tape.t) :=
  let maxSeg := getMaxSegId prev in
  mapM (fun t =>
          if Tape.id t =? tapeId
          then s <- createSegment (maxSeg + 1) false ;;
               ret (Tape.with_segments t (Tape.segments t ++ [s]))
          else ret t) prev.

Definition removeSegmentFromTape (tapeId segId : nat) (prev : list Tape.t)
  : list Tape.t :=
  map (fun t =>
         if Tape.id t =? tapeId
         then Tape.with_segments t
                (if 1 <? List.length (Tape.segments t)
                 then filter (fun s => negb (Segment.id s =? segId)) (Tape.segments t)
                 else Tape.segments t)
         else t) prev.

Definition toggleSegment (tapeId segId : nat) (prev : list Tape.t) : list Tape.t :=
  map (fun t =>
         if Tape.id t =? tapeId
         then Tape.with_segments t
                (map (fun s =>
                        if Segment.id s =? segId
                        then Segment.with_enabled_status s
                               (negb (Segment.enabled s))
                               (if negb (Segment.enabled s) then normal else off)
                        else s) (Tape.segments t))
         else t) prev.

Definition setSegPower (tapeId segId : nat) (power : Z) (prev : list Tape.t)
  : list Tape.t :=
  map (fun t =>
         if Tape.id t =? tapeId
         then Tape.with_segments t
                (map (fun s => if Segment.id s =? segId
                               then Segment.with_power s power else s)
                     (Tape.segments t))
         else t) prev.

Definition setSegTargetTemp (tapeId segId : nat) (targetTemp : Z)
  (prev : list Tape.t) : list Tape.t :=
  map (fun t =>
         if Tape.id t =? tapeId
         then Tape.with_segments t
                (map (fun s => if Segment.id s =? segId
                               then Segment.with_targetTemp s targetTemp else s)
                     (Tape.segments t))
         else t) prev.

(** The two bulk buttons of a tape card (their handlers are written inline). *)
Definition enableAllSegments (tapeId : nat) (prev : list Tape.t) : list Tape.t :=
  map (fun t =>
         if Tape.id t =? tapeId
         then Tape.with_segments t
                (map (fun s => Segment.with_enabled_status s true normal)
                     (Tape.segments t))
         else t) prev.

Definition disableAllSegments (tapeId : nat) (prev : list Tape.t) : list Tape.t :=
  map (fun t =>
         if Tape.id t =? tapeId
         then Tape.with_segments t
                (map (fun s => Segment.with_enabled_status s false off)
                     (Tape.segments t))
         else t) prev.

Definition acknowledgeAlert (id : nat) (prev : list Alert.t) : list Alert.t :=
  map (fun a => if Alert.id a =? id then Alert.with_acknowledged a true else a) prev.

(** ** Simulation tick *)

(** [(Math.random () - 0.5) * 1.5], where the call of [Math.random]
    returns the binary64 number at or next below the draw [r] of the
    environment. *)
Definition drift (r : Q) : Q :=
  double (double (double_below r - (1 # 2)) * (3 # 2)).

(** [(s.temperature + drift) * 10], the number that [Math.round] is given. *)
Definition scaledTemp (temperature r : Q) : Q :=
  double (double (double temperature + drift r) * 10).

(** [Math.round ((s.temperature + drift) * 10) / 10]: the quotient is kept
    as the decimal it denotes. *)
Definition newTemp (temperature r : Q) : Q :=
  (inject_Z (Math_round (scaledTemp temperature r)) / 10)%Q.

(** The same number computed with the binary64 operations of the Standard
    Library, to compare with [scaledTemp] on examples. *)
Definition to_SF (q : Q) : SpecFloat.spec_float :=
  if Qeq_bool q 0
  then SpecFloat.S754_zero false
  else SpecFloat.binary_normalize 53 1024
         (round_even (q / 2 ^ ulp_exponent q)) (ulp_exponent q) false.

Definition of_SF (x : SpecFloat.spec_float) : option Q :=
  match x with
  | SpecFloat.S754_zero _ => Some 0%Q
  | SpecFloat.S754_finite s m e =>
      Some (Qred ((if s then - inject_Z (Z.pos m) else inject_Z (Z.pos m)) * 2 ^ e))%Q
  | _ => None
  end.

Definition SF_scaledTemp (temperature r : Q) : SpecFloat.spec_float :=
  let add := SpecFloat.SFadd 53 1024 in
  let sub := SpecFloat.SFsub 53 1024 in
  let mul := SpecFloat.SFmul 53 1024 in
  mul (add (to_SF temperature)
           (mul (sub (to_SF (double_below r)) (to_SF (1 # 2))) (to_SF (3 # 2))))
      (to_SF 10).

Definition tickSegment (t : Tape.t) (s : Segment.t) : Gen Segment.t :=
  if negb (Segment.enabled s) || negb (Tape.enabled t)
  then ret s
  else r <- Math_random ;;
       ret (Segment.with_temperature s (newTemp (Segment.temperature s) r)).

Definition tickTape (t : Tape.t) : Gen Tape.t :=
  segs <- mapM (tickSegment t) (Tape.segments t) ;;
  ret (Tape.with_segments t segs).

Definition tick (prev : list Tape.t) : Gen (list Tape.t) := mapM tickTape prev.

(** ** Derived metrics *)

Definition enabledSegments (tapes : list Tape.t) : list Segment.t :=
  filter Segment.enabled (allSegments tapes).

Definition activeCount (tapes : list Tape.t) : nat :=
  List.length (enabledSegments tapes).

(** [None] is the dash shown when no segment is counted. *)
Definition avgTemp (tapes : list Tape.t) : option Q :=
  if 0 <? activeCount tapes
  then Some (toFixed1
               (fold_left (fun acc s => acc + Segment.temperature s)
                          (enabledSegments tapes) 0
                / inject_Z (Z.of_nat (activeCount tapes)))%Q)
  else None.

Definition totalPower (tapes : list Tape.t) : Q :=
  toFixed1
    (fold_left (fun acc s => acc + (inject_Z (Segment.power s) / 100) * (1 # 2))
               (enabledSegments tapes) 0)%Q.

Definition activeTapes (tapes : list Tape.t) : nat :=
  List.length (filter Tape.enabled tapes).

Definition unacknowledgedAlerts (alerts : list Alert.t) : nat :=
  List.length (filter (fun a => negb (Alert.acknowledged a)) alerts).

Definition totalSensors (tapes : list Tape.t) : nat :=
  fold_left (fun a s => a + List.length (Segment.sensors s)) (allSegments tapes) 0.

(** The segments the tick and the tape cards treat as active: enabled
    themselves, on an enabled tape. *)
Definition effectiveSegments (tapes : list Tape.t) : list Segment.t :=
  flat_map (fun t => filter (fun s => Segment.enabled s && Tape.enabled t)
                            (Tape.segments t)) tapes.

(** ** Persisted settings and their migration *)

(** A segment and a tape as [JSON.parse] returns them: the properties the
    migration inspects may be absent. *)
Module RawSegment.
Record t : Type := mk {
  id : nat;
  name : string;
  enabled : bool;
  power : Z;
  temperature : Q;
  targetTemp : Z;
  status : SegmentStatus;
  sensorId : string;
  sensors : js (list Sensor.t)
}.

Definition with_sensors (s : t) (v : js (list Sensor.t)) : t :=
  mk (id s) (name s) (enabled s) (power s) (temperature s) (targetTemp s)
     (status s) (sensorId s) v.
End RawSegment.

Module RawTape.
Record t : Type := mk {
  id : nat;
  name : string;
  coordinates : js string;
  contractNumber : js string;
  length : js string;
  width : js string;
  segments : js (list RawSegment.t);
  enabled : js bool
}.
End RawTape.

(** The parsed blob, [Record<string, unknown>] in the source: the current
    keys of [SavedSettings] and the keys of the older flat shape. *)
Module Blob.
Record t : Type := mk {
  segments : js (list RawSegment.t);
  tapes : js (list RawTape.t);
  tapeLength : js string;
  tapeWidth : js string;
  alerts : js (list Alert.t);
  systemOn : js bool;
  autoMode : js bool;
  thresholdTemp : js string;
  alertSound : js string;
  pollInterval : js string
}.

Definition with_tapes (b : t) (v : js (list RawTape.t)) : t :=
  mk (segments b) v (tapeLength b) (tapeWidth b) (alerts b) (systemOn b)
     (autoMode b) (thresholdTemp b) (alertSound b) (pollInterval b).

(** [delete parsed.segments] *)
Definition delete_segments (b : t) : t :=
  mk undefined (tapes b) (tapeLength b) (tapeWidth b) (alerts b) (systemOn b)
     (autoMode b) (thresholdTemp b) (alertSound b) (pollInterval b).
End Blob.

(** [x || []] on a property that holds an array when present. *)
Definition arrOr {A : Type} (x : js (list A)) : list A :=
  match x with
  | val l => l
  | _ => []
  end.

Definition migrateSegments (segs : list RawSegment.t) : Gen (list RawSegment.t) :=
  mapM (fun s =>
          match RawSegment.sensors s with
          | val _ => ret s
          | _ =>
              r <- Math_random ;;
              ss <- createSensors (RawSegment.id s) (2 + Math_floor (r * 3)%Q)%Z ;;
              ret (RawSegment.with_sensors s (val ss))
          end) segs.

Definition migrateTapes (tapes : list RawTape.t) : Gen (list RawTape.t) :=
  mapM (fun t =>
          segs <- migrateSegments (arrOr (RawTape.segments t)) ;;
          ret (RawTape.mk
                 (RawTape.id t)
                 (RawTape.name t)
                 (val (nullish (RawTape.coordinates t) ""))
                 (val (nullish (RawTape.contractNumber t) ""))
                 (val (nullish (RawTape.length t) "24"))
                 (val (nullish (RawTape.width t) "50"))
                 (val segs)
                 (match RawTape.enabled t with
                  | undefined => val true
                  | x => x
                  end))) tapes.

(** What [loadSettings] does to the parsed blob before returning it. *)
Definition migrate (parsed : Blob.t) : Gen Blob.t :=
  p1 <- (if truthy (Blob.segments parsed) && negb (truthy (Blob.tapes parsed))
         then
           migratedSegs <- migrateSegments (arrOr (Blob.segments parsed)) ;;
           ret (Blob.delete_segments
                  (Blob.with_tapes parsed
                     (val [ RawTape.mk 1 "Лента 1" (val "") (val "")
                              (val (strOr (Blob.tapeLength parsed) "24"))
                              (val (strOr (Blob.tapeWidth parsed) "50"))
                              (val migratedSegs)
                              (val true) ])))
         else ret parsed) ;;
  if truthy (Blob.tapes p1)
  then ts <- migrateTapes (arrOr (Blob.tapes p1)) ;;
       ret (Blob.with_tapes p1 (val ts))
  else ret p1.

(** [loadSettings]: [None] stands for a missing item or one that does not
    parse, and for the [null] the function then returns. *)
Definition loadSettings (stored : option Blob.t) : Gen (option Blob.t) :=
  match stored with
  | None => ret None
  | Some parsed => b <- migrate parsed ;; ret (Some b)
  end.

(** ** The state machine of the tape list *)

Inductive Command : Type :=
| CToggleTape (tapeId : nat)
| CUpdateTapeField (tapeId : nat) (field : TapeField) (value : string)
| CAddTape
| CRemoveTape (tapeId : nat)
| CAddSegmentToTape (tapeId : nat)
| CRemoveSegmentFromTape (tapeId segId : nat)
| CToggleSegment (tapeId segId : nat)
| CSetSegPower (tapeId segId : nat) (power : Z)
| CSetSegTargetTemp (tapeId segId : nat) (targetTemp : Z)
| CEnableAllSegments (tapeId : nat)
| CDisableAllSegments (tapeId : nat)
| CTick.

(** One [setTapes (prev => ...)] update. *)
Definition exec (c : Command) (prev : list Tape.t) : Gen (list Tape.t) :=
  match c with
  | CToggleTape i => ret (toggleTape i prev)
  | CUpdateTapeField i f v => ret (updateTapeField i f v prev)
  | CAddTape => addTape prev
  | CRemoveTape i => ret (removeTape i prev)
  | CAddSegmentToTape i => addSegmentToTape i prev
  | CRemoveSegmentFromTape i j => ret (removeSegmentFromTape i j prev)
  | CToggleSegment i j => ret (toggleSegment i j prev)
  | CSetSegPower i j p => ret (setSegPower i j p prev)
  | CSetSegTargetTemp i j p => ret (setSegTargetTemp i j p prev)
  | CEnableAllSegments i => ret (enableAllSegments i prev)
  | CDisableAllSegments i => ret (disableAllSegments i prev)
  | CTick => tick prev
  end.

(** States the panel can be in when it starts from [createInitialTapes]:
    each update may find any random numbers and any clock. *)
Inductive reachable : list Tape.t -> Prop :=
| reach_init (e : Env) (n : nat) :
    valid_env e -> reachable (run createInitialTapes e n)
| reach_step (c : Command) (prev : list Tape.t) (e : Env) (n : nat) :
    valid_env e -> reachable prev -> reachable (run (exec c prev) e n).

(** A run of [addTape] and [addSegmentToTape] calls. *)
Inductive AddCommand : Type :=
| AddTape
| AddSegmentToTape (tapeId : nat).

Definition execAdd (c : AddCommand) (prev : list Tape.t) : Gen (list Tape.t) :=
  match c with
  | AddTape => addTape prev
  | AddSegmentToTape i => addSegmentToTape i prev
  end.

Fixpoint execAdds (cs : list AddCommand) (prev : list Tape.t) : Gen (list Tape.t) :=
  match cs with
  | [] => ret prev
  | c :: r => next <- execAdd c prev ;; execAdds r next
  end.

(** ** Predicates the statements use *)

Definition tapeIds (tapes : list Tape.t) : list nat := map Tape.id tapes.

Definition segmentIds (tapes : list Tape.t) : list nat :=
  map Segment.id (allSegments tapes).

Definition unique_ids (tapes : list Tape.t) : Prop :=
  NoDup (tapeIds tapes) /\ NoDup (segmentIds tapes).

(** [status == off] iff [enabled == false] *)
Definition status_ok (s : Segment.t) : Prop :=
  Segment.status s = off <-> Segment.enabled s = false.

Definition all_status_ok (tapes : list Tape.t) : Prop :=
  Forall (fun t => Forall status_ok (Tape.segments t)) tapes.

(** A multiple of one tenth. *)
Definition one_decimal (x : Q) : Prop := exists k : Z, (x == inject_Z k / 10)%Q.

(** The segment ids of one tape, in order. *)
Definition tapeSegIds (t : Tape.t) : list nat := map Segment.id (Tape.segments t).

(** At least one tape, and at least one segment on every tape. *)
Definition nonempty (tapes : list Tape.t) : Prop :=
  1 <= List.length tapes
  /\ Forall (fun t => 1 <= List.length (Tape.segments t)) tapes.

(** [subseq l l'] : [l] is [l'] with some elements left out. *)
Inductive subseq {A : Type} : list A -> list A -> Prop :=
| subseq_nil : subseq [] []
| subseq_skip (a : A) (l l' : list A) : subseq l l' -> subseq l (a :: l')
| subseq_keep (a : A) (l l' : list A) : subseq l l' -> subseq (a :: l) (a :: l').

(** A persisted segment that carries a [sensors] array. *)
Definition has_sensors (s : RawSegment.t) : Prop :=
  exists l, RawSegment.sensors s = val l.

(** The current shape of a blob: a [tapes] key, and a [sensors] array on
    every segment of every tape. *)
Definition current_shape (b : Blob.t) : Prop :=
  exists ts,
    Blob.tapes b = val ts
    /\ Forall (fun t => Forall has_sensors (arrOr (RawTape.segments t))) ts.

(** A tape on which [migrateTapes] has nothing left to do. *)
Definition normal_tape (t : RawTape.t) : Prop :=
  (exists v, RawTape.coordinates t = val v)
  /\ (exists v, RawTape.contractNumber t = val v)
  /\ (exists v, RawTape.length t = val v)
  /\ (exists v, RawTape.width t = val v)
  /\ RawTape.enabled t <> undefined
  /\ (exists segs, RawTape.segments t = val segs /\ Forall has_sensors segs).

(** A blob on which [migrate] has nothing left to do. *)
Definition settled (b : Blob.t) : Prop :=
  truthy (Blob.segments b) && negb (truthy (Blob.tapes b)) = false
  /\ match Blob.tapes b with
     | val ts => Forall normal_tape ts
     | _ => True
     end.

(** ** Saving settings and the state a page load starts from *)

(** A typed segment or tape as [JSON.stringify] writes it and [JSON.parse]
    reads it back: every property is present. *)
Definition Segment_toJSON (s : Segment.t) : RawSegment.t :=
  RawSegment.mk (Segment.id s) (Segment.name s) (Segment.enabled s)
    (Segment.power s) (Segment.temperature s) (Segment.targetTemp s)
    (Segment.status s) (Segment.sensorId s) (val (Segment.sensors s)).

Definition Tape_toJSON (t : Tape.t) : RawTape.t :=
  RawTape.mk (Tape.id t) (Tape.name t) (val (Tape.coordinates t))
    (val (Tape.contractNumber t)) (val (Tape.length t)) (val (Tape.width t))
    (val (map Segment_toJSON (Tape.segments t))) (val (Tape.enabled t)).

(** One key of [{ ...existing, ...data }]: the key of [data] wins when
    [data] has it. *)
Definition spreadKey {A : Type} (existing data : js A) : js A :=
  match data with
  | undefined => existing
  | _ => data
  end.

(** [{ ...existing, ...data }] *)
Definition spread (existing data : Blob.t) : Blob.t :=
  Blob.mk
    (spreadKey (Blob.segments existing) (Blob.segments data))
    (spreadKey (Blob.tapes existing) (Blob.tapes data))
    (spreadKey (Blob.tapeLength existing) (Blob.tapeLength data))
    (spreadKey (Blob.tapeWidth existing) (Blob.tapeWidth data))
    (spreadKey (Blob.alerts existing) (Blob.alerts data))
    (spreadKey (Blob.systemOn existing) (Blob.systemOn data))
    (spreadKey (Blob.autoMode existing) (Blob.autoMode data))
    (spreadKey (Blob.thresholdTemp existing) (Blob.thresholdTemp data))
    (spreadKey (Blob.alertSound existing) (Blob.alertSound data))
    (spreadKey (Blob.pollInterval existing) (Blob.pollInterval data)).

(** [{}] *)
Definition emptyBlob : Blob.t :=
  Blob.mk undefined undefined undefined undefined undefined undefined
    undefined undefined undefined undefined.

(** [saveSettings]: the stored item after the call. The item is read back
    through [loadSettings], so it is migrated before the merge. *)
Definition saveSettings (data : Blob.t) (stored : option Blob.t)
  : Gen (option Blob.t) :=
  loaded <- loadSettings stored ;;
  let existing := match loaded with
                  | Some b => b
                  | None => emptyBlob
                  end in
  ret (Some (spread existing data)).

(** The scalar settings the component keeps in state. *)
Module Settings.
Record t : Type := mk {
  systemOn : bool;
  autoMode : bool;
  thresholdTemp : string;
  alertSound : bool;
  pollInterval : string
}.
End Settings.

(** [String (b)] for a boolean. *)
Definition String_bool (b : bool) : string := if b then "true" else "false".

(** The three objects the effects pass to [saveSettings]. *)
Definition tapesData (tapes : list Tape.t) : Blob.t :=
  Blob.mk undefined (val (map Tape_toJSON tapes)) undefined undefined undefined
    undefined undefined undefined undefined undefined.

Definition settingsData (s : Settings.t) : Blob.t :=
  Blob.mk undefined undefined undefined undefined undefined
    (val (Settings.systemOn s)) (val (Settings.autoMode s))
    (val (Settings.thresholdTemp s)) (val (String_bool (Settings.alertSound s)))
    (val (Settings.pollInterval s)).

Definition alertsData (alerts : list Alert.t) : Blob.t :=
  Blob.mk undefined undefined undefined undefined (val alerts)
    undefined undefined undefined undefined undefined.

(** [saved?.key]: a key of what [loadSettings] returned, [undefined] when
    it returned [null]. *)
Definition savedKey {A : Type} (key : Blob.t -> js A) (saved : option Blob.t) : js A :=
  match saved with
  | Some b => key b
  | None => undefined
  end.

(** The initial values of the settings and of the alerts in [Index]. *)
Definition initialSettings (saved : option Blob.t) : Settings.t :=
  Settings.mk
    (nullish (savedKey Blob.systemOn saved) true)
    (nullish (savedKey Blob.autoMode saved) true)
    (nullish (savedKey Blob.thresholdTemp saved) "5")
    (match savedKey Blob.alertSound saved with
     | val "false" => false
     | _ => true
     end)
    (nullish (savedKey Blob.pollInterval saved) "2").

Definition initialAlerts (saved : option Blob.t) : list Alert.t :=
  match savedKey Blob.alerts saved with
  | val l => l
  | _ => generateAlerts
  end.

(** The three saves that run, in this order, when the component has
    rendered with the given state. *)
Definition saveAll (tapes : list Tape.t) (s : Settings.t) (alerts : list Alert.t)
  (stored : option Blob.t) : Gen (option Blob.t) :=
  st1 <- saveSettings (tapesData tapes) stored ;;
  st2 <- saveSettings (settingsData s) st1 ;;
  saveSettings (alertsData alerts) st2.

(** What the component passes to [saveSettings]: no [segments] key, and
    tapes, when given, with every property present. *)
Definition typed_data (d : Blob.t) : Prop :=
  Blob.segments d = undefined
  /\ match Blob.tapes d with
     | undefined => True
     | null => False
     | val ts => Forall normal_tape ts
     end.

(** ** Presentation helper *)

Definition getHeatLevel (power : Z) : Z :=
  if (power <=? 15)%Z then 1%Z
  else if (power <=? 30)%Z then 2%Z
  else if (power <=? 45)%Z then 3%Z
  else if (power <=? 60)%Z then 4%Z
  else if (power <=? 75)%Z then 5%Z
  else if (power <=? 90)%Z then 6%Z
  else 7%Z.

(** ** Further predicates *)

Definition isHexUpper (c : ascii) : bool :=
  let k := nat_of_ascii c in
  ((48 <=? k) && (k <=? 57)) || ((65 <=? k) && (k <=? 70)).

(** "28-" followed by twelve upper-case hexadecimal digits. *)
Definition is_serial (s : string) : bool :=
  match s with
  | String "2" (String "8" (String "-" rest)) =>
      (String.length rest =? 12) && forallb isHexUpper (list_ascii_of_string rest)
  | _ => false
  end.

(** Two characters, both upper-case hexadecimal digits. *)
Definition is_hex_pair (s : string) : bool :=
  (String.length s =? 2) && forallb isHexUpper (list_ascii_of_string s).

(** A sensor as [createSensors] makes it. *)
Definition sensor_ok (s : Sensor.t) : Prop :=
  (exists k : Z, (-5 <= k <= 9)%Z /\ Sensor.temperature s = inject_Z k)
  /\ Sensor.status s <> error
  /\ is_serial (Sensor.serial s) = true.

(** Two to four sensors. *)
Definition sensors_ok (s : Segment.t) : Prop :=
  2 <= List.length (Segment.sensors s) <= 4.

(** A segment as [createSegment] makes it. *)
Definition segment_ok (s : Segment.t) : Prop :=
  sensors_ok s
  /\ Forall sensor_ok (Segment.sensors s)
  /\ (40 <= Segment.power s <= 89)%Z
  /\ Segment.targetTemp s = 5%Z
  /\ one_decimal (Segment.temperature s)
  /\ (-5 <= Segment.temperature s)%Q /\ (Segment.temperature s <= 9)%Q
  /\ (if Segment.enabled s
      then Segment.status s = normal \/ Segment.status s = warning
      else Segment.status s = off).

(** What every command keeps of a segment: its two to four valid sensors
    and a temperature that is a multiple of one tenth. *)
Definition segment_inv (s : Segment.t) : Prop :=
  sensors_ok s
  /\ Forall sensor_ok (Segment.sensors s)
  /\ one_decimal (Segment.temperature s).

(** Everything of a segment but its temperature. *)
Definition same_but_temperature (s s' : Segment.t) : Prop :=
  s' = Segment.with_temperature s (Segment.temperature s').

(** ** Concrete inputs used by the examples *)

(** Every draw is one half; the clock stands still. *)
Definition env_half : Env := mkEnv (fun _ => (1 # 2)%Q) (fun _ => "12:00:00").

(** A disabled tape whose only segment is enabled. *)
Definition tapes_disabled : list Tape.t :=
  [ Tape.mk 1 "Лента 1" "" "" "24" "50"
      [ Segment.mk 1 "Сегмент 1" true 60 3 5 normal "DS18B20-001"
          [ Sensor.mk "DS18B20-0101" "28-0A1B2C3D4E5F" 3 online "12:00:00" ] ]
      false ].

(** Every draw is 0.99. *)
Definition env_high : Env := mkEnv (fun _ => (99 # 100)%Q) (fun _ => "12:00:00").

(** Every draw is 0: the generated sensors all read -5 degrees. *)
Definition env_zero : Env := mkEnv (fun _ => 0%Q) (fun _ => "12:00:00").

(** Every draw is the largest binary64 number below 1, [1 - 2 ^ -53]. *)
Definition env_top : Env :=
  mkEnv (fun _ => (9007199254740991 # 9007199254740992)%Q) (fun _ => "12:00:00").

(** A blob of the older flat shape: two segments without sensors, a tape
    length and no tape width. *)
Definition legacy_blob : Blob.t :=
  Blob.mk
    (val [ RawSegment.mk 1 "Сегмент 1" true 60 3 5 normal "DS18B20-001" undefined;
           RawSegment.mk 2 "Сегмент 2" false 45 (-2) 5 off "DS18B20-002" undefined ])
    undefined (val "30") undefined
    (val generateAlerts) (val true) (val true) (val "5") (val "true") (val "2").

(** A blob of the current shape whose tape lacks [coordinates]. *)
Definition current_blob : Blob.t :=
  Blob.mk
    undefined
    (val [ RawTape.mk 1 "Лента 1" undefined (val "№2024-001") (val "24") (val "50")
             (val [ RawSegment.mk 1 "Сегмент 1" true 60 3 5 normal "DS18B20-001"
                      (val [ Sensor.mk "DS18B20-0101" "28-0A1B2C3D4E5F" 3 online
                               "12:00:00" ]) ])
             (val true) ])
    undefined undefined
    (val generateAlerts) (val true) (val true) (val "5") (val "true") (val "2").

(** * Properties *)

(** ** Generic facts about [map], [filter] and the generator monad *)

Lemma map_id_on {A : Type} (f : A -> A) (l : list A) :
  (forall a, In a l -> f a = a) -> map f l = l.
Proof.
  induction l as [| a l IH]; simpl; intros H; [reflexivity |].
  rewrite H by (left; reflexivity).
  rewrite IH; [reflexivity | intros b Hb; apply H; right; exact Hb].
Qed.

Lemma filter_all {A : Type} (p : A -> bool) (l : list A) :
  (forall a, In a l -> p a = true) -> filter p l = l.
Proof.
  induction l as [| a l IH]; simpl; intros H; [reflexivity |].
  rewrite H by (left; reflexivity).
  rewrite IH; [reflexivity | intros b Hb; apply H; right; exact Hb].
Qed.

Lemma mapM_ret_on {A : Type} (f : A -> Gen A) (l : list A) (e : Env) (n : nat) :
  (forall a, In a l -> forall k, f a e k = (a, k)) -> mapM f l e n = (l, n).
Proof.
  revert n; induction l as [| a l IH]; simpl; intros n H; [reflexivity |].
  unfold bind. rewrite H by (left; reflexivity).
  rewrite IH by (intros b Hb; apply H; right; exact Hb).
  reflexivity.
Qed.

Lemma mapM_map_fst {A B C : Type} (f : A -> Gen B) (g : B -> C) (h : A -> C) :
  (forall a e n, g (fst (f a e n)) = h a) ->
  forall l e n, map g (fst (mapM f l e n)) = map h l.
Proof.
  intros H l e; induction l as [| a l IH]; simpl; intros n; [reflexivity |].
  unfold bind.
  destruct (f a e n) as [b n1] eqn:E1.
  destruct (mapM f l e n1) as [bs n2] eqn:E2.
  simpl. f_equal.
  - rewrite <- (H a e n), E1; reflexivity.
  - rewrite <- (IH n1), E2; reflexivity.
Qed.

Lemma mapM_Forall2 {A B : Type} (f : A -> Gen B) (R : A -> B -> Prop) (e : Env) :
  (forall a n, R a (fst (f a e n))) ->
  forall l n, Forall2 R l (fst (mapM f l e n)).
Proof.
  intros H l; induction l as [| a l IH]; simpl; intros n; [constructor |].
  unfold bind.
  destruct (f a e n) as [b n1] eqn:E1.
  destruct (mapM f l e n1) as [bs n2] eqn:E2.
  simpl. constructor.
  - specialize (H a n). rewrite E1 in H. exact H.
  - specialize (IH n1). rewrite E2 in IH. exact IH.
Qed.

Lemma mapM_Forall {A B : Type} (f : A -> Gen B) (P : B -> Prop) (e : Env) :
  forall l n, (forall a k, In a l -> P (fst (f a e k))) ->
  Forall P (fst (mapM f l e n)).
Proof.
  induction l as [| a l IH]; simpl; intros n H; [constructor |].
  unfold bind.
  destruct (f a e n) as [b n1] eqn:E1.
  destruct (mapM f l e n1) as [bs n2] eqn:E2.
  simpl. constructor.
  - specialize (H a n (or_introl eq_refl)). rewrite E1 in H. exact H.
  - specialize (IH n1). rewrite E2 in IH. apply IH.
    intros c k Hc. apply H. right; exact Hc.
Qed.

(** ** The allocator *)

Lemma fold_left_max_tapes (prev : list Tape.t) (a : nat) :
  fold_left (fun m t => Nat.max m (Tape.id t)) prev a
  = Nat.max a (list_max (tapeIds prev)).
Proof.
  revert a; induction prev as [| t prev IH]; simpl; intros a.
  - lia.
  - rewrite IH. lia.
Qed.

Lemma Math_max_list_max (x : nat) (xs : list nat) :
  Math_max x xs = list_max (x :: xs).
Proof.
  unfold Math_max. revert x; induction xs as [| y xs IH]; intros x; simpl.
  - lia.
  - rewrite IH. simpl. lia.
Qed.

Lemma getMaxSegId_list_max (tapes : list Tape.t) :
  getMaxSegId tapes = list_max (segmentIds tapes).
Proof.
  unfold getMaxSegId, segmentIds.
  destruct (map Segment.id (allSegments tapes)) as [| x xs]; [reflexivity |].
  apply Math_max_list_max.
Qed.

Lemma list_max_ge (l : list nat) (i : nat) : In i l -> i <= list_max l.
Proof.
  induction l as [| a l IH]; simpl; [tauto |].
  intros [-> | H]; [lia | specialize (IH H); lia].
Qed.

Lemma createSegment_id (i : nat) (b : bool) (e : Env) (n : nat) :
  Segment.id (fst (createSegment i b e n)) = i.
Proof.
  unfold createSegment, bind. simpl.
  destruct (createSensors i _ e (S n)) as [ss n1].
  simpl. destruct b; reflexivity.
Qed.

Lemma createSegment_enabled (i : nat) (b : bool) (e : Env) (n : nat) :
  Segment.enabled (fst (createSegment i b e n)) = b.
Proof.
  unfold createSegment, bind. simpl.
  destruct (createSensors i _ e (S n)) as [ss n1].
  simpl. destruct b; reflexivity.
Qed.

Lemma createSegment_status_ok (i : nat) (b : bool) (e : Env) (n : nat) :
  status_ok (fst (createSegment i b e n)).
Proof.
  unfold createSegment, bind, status_ok. simpl.
  destruct (createSensors i _ e (S n)) as [ss n1].
  simpl. destruct b; simpl.
  - destruct (Qgtb _ _); simpl; split; discriminate.
  - split; reflexivity.
Qed.

Lemma createTape_shape (i s c : nat) (e : Env) (n : nat) :
  let t := fst (createTape i s c e n) in
  Tape.id t = i /\ Tape.enabled t = true
  /\ map Segment.id (Tape.segments t) = map (fun k => s + k) (seq 0 c)
  /\ map Segment.enabled (Tape.segments t)
     = map (fun k => (Z.of_nat k <? Math_ceil (inject_Z (Z.of_nat c) * (7 # 10))%Q)%Z)
           (seq 0 c)
  /\ Forall status_ok (Tape.segments t).
Proof.
  unfold createTape, bind, Array_from.
  pose proof (mapM_map_fst
    (fun k => createSegment (s + k)
       (Z.of_nat k <? Math_ceil (inject_Z (Z.of_nat c) * (7 # 10))%Q)%Z)
    Segment.id (fun k => s + k)
    (fun a e' n' => createSegment_id _ _ e' n') (seq 0 c) e n) as Hid.
  pose proof (mapM_map_fst
    (fun k => createSegment (s + k)
       (Z.of_nat k <? Math_ceil (inject_Z (Z.of_nat c) * (7 # 10))%Q)%Z)
    Segment.enabled
    (fun k => (Z.of_nat k <? Math_ceil (inject_Z (Z.of_nat c) * (7 # 10))%Q)%Z)
    (fun a e' n' => createSegment_enabled _ _ e' n') (seq 0 c) e n) as Hen.
  pose proof (mapM_Forall
    (fun k => createSegment (s + k)
       (Z.of_nat k <? Math_ceil (inject_Z (Z.of_nat c) * (7 # 10))%Q)%Z)
    status_ok e (seq 0 c) n
    (fun a k _ => createSegment_status_ok _ _ e k)) as Hst.
  destruct (mapM _ (seq 0 c) e n) as [segs n1]. simpl in *.
  repeat split; assumption.
Qed.

(** C3: [addTape] appends exactly one tape. Its id is the largest tape id
    plus one (1 when there is no tape); it has four segments whose ids are
    consecutive from the largest segment id of the whole system plus one
    (from 1 when there is no segment); the first three are enabled and the
    fourth is disabled. From tapes 1 and 2 holding segments 1 to 12 the
    new tape is tape 3 with segments 13 to 16. *)
Theorem addTape_appends_fresh_tape :
  forall (prev : list Tape.t) (e : Env) (n : nat),
    exists t : Tape.t,
      run (addTape prev) e n = prev ++ [t]
      /\ Tape.id t = list_max (tapeIds prev) + 1
      /\ (prev = [] -> Tape.id t = 1)
      /\ (let m := list_max (segmentIds prev) in
          map Segment.id (Tape.segments t) = [m + 1; m + 2; m + 3; m + 4])
      /\ (allSegments prev = [] ->
          map Segment.id (Tape.segments t) = [1; 2; 3; 4])
      /\ map Segment.enabled (Tape.segments t) = [true; true; true; false]
      /\ (tapeIds prev = [1; 2] -> segmentIds prev = seq 1 12 ->
          Tape.id t = 3
          /\ map Segment.id (Tape.segments t) = [13; 14; 15; 16]).
Proof.
  intros prev e n.
  unfold run, addTape, bind.
  rewrite fold_left_max_tapes, getMaxSegId_list_max. simpl Nat.max.
  pose proof (createTape_shape (list_max (tapeIds prev) + 1)
                (list_max (segmentIds prev) + 1) 4 e n) as H.
  destruct (createTape _ _ 4 e n) as [t n1]. simpl in H.
  destruct H as (Hid & _ & Hsegs & Hen & _).
  exists t. simpl.
  assert (Hids : map Segment.id (Tape.segments t)
                 = [list_max (segmentIds prev) + 1; list_max (segmentIds prev) + 2;
                    list_max (segmentIds prev) + 3; list_max (segmentIds prev) + 4]).
  { rewrite Hsegs. repeat (f_equal; try lia). }
  repeat split.
  - exact Hid.
  - intros ->. rewrite Hid. reflexivity.
  - exact Hids.
  - intros Hnone. rewrite Hids. unfold segmentIds. rewrite Hnone. reflexivity.
  - rewrite Hen. reflexivity.
  - rewrite Hid, H. reflexivity.
  - rewrite Hids, H0. reflexivity.
Qed.

(** C3, on the tapes the panel starts with: two tapes, segments 1 to 12. *)
Lemma addTape_appends_fresh_tape_initial :
  (tapeIds (run createInitialTapes env_half 0) = [1; 2]
   /\ segmentIds (run createInitialTapes env_half 0) = seq 1 12)
  /\ exists t : Tape.t,
       run (addTape (run createInitialTapes env_half 0)) env_half 0
       = run createInitialTapes env_half 0 ++ [t]
       /\ Tape.id t = 3
       /\ map Segment.id (Tape.segments t) = [13; 14; 15; 16].
Proof.
  split; [split; vm_compute; reflexivity |].
  destruct (addTape_appends_fresh_tape (run createInitialTapes env_half 0) env_half 0)
    as (t & Happ & _ & _ & _ & _ & _ & Hex).
  exists t. split; [exact Happ |].
  apply Hex; vm_compute; reflexivity.
Defined.

(** ** Derived metrics *)

(** C1: the metrics are computed from [enabledSegments], which filters on
    the segment's own flag only. On a disabled tape holding one enabled
    segment, no segment is effective-enabled, yet the segment is counted:
    the count is 1, the average is its temperature and the total power is
    its share, where the specification gives 0, no average and 0. *)
Theorem metrics_count_segment_of_disabled_tape :
  effectiveSegments tapes_disabled = []
  /\ activeCount tapes_disabled = 1
  /\ (exists q, avgTemp tapes_disabled = Some q /\ (q == 3)%Q)
  /\ (totalPower tapes_disabled == 3 # 10)%Q
  /\ run (tick tapes_disabled) env_half 0 = tapes_disabled.
Proof.
  split; [reflexivity |].
  split; [reflexivity |].
  split; [eexists; split; [reflexivity | vm_compute; reflexivity] |].
  split; vm_compute; reflexivity.
Qed.

(** What the metrics do count: a segment is in [enabledSegments] exactly
    when its own flag is set, whatever the flag of its tape. *)
Lemma enabledSegments_spec (tapes : list Tape.t) (s : Segment.t) :
  In s (enabledSegments tapes)
  <-> (exists t, In t tapes /\ In s (Tape.segments t)) /\ Segment.enabled s = true.
Proof.
  unfold enabledSegments, allSegments.
  rewrite filter_In, in_flat_map. tauto.
Qed.

(** ** Alerts *)

(** C9: [acknowledgeAlert id] sets [acknowledged] on the alerts with that
    id and leaves every other field and every other alert as it was; no
    alert that was acknowledged stops being so; acknowledging twice is the
    same as acknowledging once, and acknowledging an alert that is already
    acknowledged returns the list it was given. *)
Theorem acknowledgeAlert_one_way_idempotent :
  forall (id : nat) (alerts : list Alert.t),
    Forall2 (fun a a' =>
               Alert.id a' = Alert.id a
               /\ Alert.timestamp a' = Alert.timestamp a
               /\ Alert.severity a' = Alert.severity a
               /\ Alert.message a' = Alert.message a
               /\ (Alert.id a = id -> Alert.acknowledged a' = true)
               /\ (Alert.id a <> id -> a' = a)
               /\ (Alert.acknowledged a = true -> Alert.acknowledged a' = true))
            alerts (acknowledgeAlert id alerts)
    /\ acknowledgeAlert id (acknowledgeAlert id alerts) = acknowledgeAlert id alerts
    /\ ((forall a, In a alerts -> Alert.id a = id -> Alert.acknowledged a = true) ->
        acknowledgeAlert id alerts = alerts).
Proof.
  intros id alerts. unfold acknowledgeAlert. repeat split.
  - induction alerts as [| a alerts IH]; simpl; constructor; [| exact IH].
    destruct (Nat.eqb_spec (Alert.id a) id) as [E | E]; simpl.
    + repeat split; try reflexivity. intros C; contradiction.
    + repeat split; try reflexivity; try tauto.
  - rewrite map_map. apply map_ext. intros a.
    destruct (Nat.eqb_spec (Alert.id a) id) as [E | E]; simpl.
    + rewrite E, Nat.eqb_refl. reflexivity.
    + destruct (Nat.eqb_spec (Alert.id a) id); [contradiction | reflexivity].
  - intros H. apply map_id_on. intros a Ha.
    destruct (Nat.eqb_spec (Alert.id a) id) as [E | E]; [| reflexivity].
    specialize (H a Ha E). destruct a; simpl in *. subst. reflexivity.
Qed.

(** C9, on the alerts the panel starts with: alert 3 is acknowledged
    already, and acknowledging it returns the same list. *)
Lemma acknowledgeAlert_one_way_idempotent_alert3 :
  (forall a, In a generateAlerts -> Alert.id a = 3 -> Alert.acknowledged a = true)
  /\ acknowledgeAlert 3 generateAlerts = generateAlerts.
Proof.
  assert (H : forall a, In a generateAlerts -> Alert.id a = 3 ->
                        Alert.acknowledged a = true).
  { intros a Ha E. simpl in Ha.
    repeat (destruct Ha as [<- | Ha]; [try discriminate E; reflexivity |]).
    contradiction. }
  split; [exact H |].
  exact (proj2 (proj2 (acknowledgeAlert_one_way_idempotent 3 generateAlerts)) H).
Defined.

(** ** Commands addressed to ids that do not occur *)

Lemma with_segments_same (t : Tape.t) : Tape.with_segments t (Tape.segments t) = t.
Proof. destruct t; reflexivity. Qed.

Lemma absent_tape_eqb (tapeId : nat) (prev : list Tape.t) :
  ~ In tapeId (tapeIds prev) ->
  forall t, In t prev -> (Tape.id t =? tapeId) = false.
Proof.
  intros H t Ht. apply Nat.eqb_neq. intros E. apply H.
  rewrite <- E. unfold tapeIds. apply in_map. exact Ht.
Qed.

Lemma absent_segment_eqb (segId : nat) (segs : list Segment.t) :
  ~ In segId (map Segment.id segs) ->
  forall s, In s segs -> (Segment.id s =? segId) = false.
Proof.
  intros H s Hs. apply Nat.eqb_neq. intros E. apply H.
  rewrite <- E. apply in_map. exact Hs.
Qed.

(** A handler that rewrites the segments of the addressed tape returns the
    list it was given when the rewriting changes no segment list. *)
Lemma map_tape_segments_noop (tapeId : nat) (g : Tape.t -> list Segment.t)
  (prev : list Tape.t) :
  (forall t, In t prev -> Tape.id t = tapeId -> g t = Tape.segments t) ->
  map (fun t => if Tape.id t =? tapeId then Tape.with_segments t (g t) else t) prev
  = prev.
Proof.
  intros H. apply map_id_on. intros t Ht.
  destruct (Nat.eqb_spec (Tape.id t) tapeId) as [E | E]; [| reflexivity].
  rewrite (H t Ht E). apply with_segments_same.
Qed.

(** C10: a command addressed to an id that does not occur returns the
    state it was given. With no tape of id [tapeId]: [toggleTape],
    [removeTape], [updateTapeField] and [addSegmentToTape] (which then draws
    no random number either). With no segment of id [segId] on the
    addressed tape: [toggleSegment], [setSegPower], [setSegTargetTemp] and
    [removeSegmentFromTape]. With no alert of the id: [acknowledgeAlert].
    All handlers are total functions: none has an error result. *)
Theorem commands_on_absent_ids_change_nothing :
  (forall (tapeId : nat) (prev : list Tape.t),
      ~ In tapeId (tapeIds prev) ->
      toggleTape tapeId prev = prev
      /\ removeTape tapeId prev = prev
      /\ (forall f v, updateTapeField tapeId f v prev = prev)
      /\ (forall e n, addSegmentToTape tapeId prev e n = (prev, n)))
  /\ (forall (tapeId segId : nat) (prev : list Tape.t),
         (forall t, In t prev -> Tape.id t = tapeId ->
                    ~ In segId (map Segment.id (Tape.segments t))) ->
         toggleSegment tapeId segId prev = prev
         /\ (forall p, setSegPower tapeId segId p prev = prev)
         /\ (forall p, setSegTargetTemp tapeId segId p prev = prev)
         /\ removeSegmentFromTape tapeId segId prev = prev)
  /\ (forall (id : nat) (alerts : list Alert.t),
         ~ In id (map Alert.id alerts) -> acknowledgeAlert id alerts = alerts).
Proof.
  split; [| split].
  - intros tapeId prev H.
    pose proof (absent_tape_eqb tapeId prev H) as Hne.
    repeat split.
    + apply map_id_on. intros t Ht. rewrite (Hne t Ht). reflexivity.
    + unfold removeTape. destruct (1 <? List.length prev); [| reflexivity].
      apply filter_all. intros t Ht. rewrite (Hne t Ht). reflexivity.
    + intros f v. apply map_id_on. intros t Ht. rewrite (Hne t Ht). reflexivity.
    + intros e n. unfold addSegmentToTape. apply mapM_ret_on.
      intros t Ht k. rewrite (Hne t Ht). reflexivity.
  - intros tapeId segId prev H.
    repeat split; try intros p; apply map_tape_segments_noop; intros t Ht E;
      pose proof (absent_segment_eqb segId _ (H t Ht E)) as Hne.
    + apply map_id_on. intros s Hs. rewrite (Hne s Hs). reflexivity.
    + apply map_id_on. intros s Hs. rewrite (Hne s Hs). reflexivity.
    + apply map_id_on. intros s Hs. rewrite (Hne s Hs). reflexivity.
    + destruct (1 <? List.length (Tape.segments t)); [| reflexivity].
      apply filter_all. intros s Hs. rewrite (Hne s Hs). reflexivity.
  - intros id alerts H. apply map_id_on. intros a Ha.
    destruct (Nat.eqb_spec (Alert.id a) id) as [E | E]; [| reflexivity].
    exfalso. apply H. rewrite <- E. apply in_map. exact Ha.
Qed.

(** C10, on the tapes and alerts the panel starts with: there is no tape
    9, tape 1 has no segment 40, and there is no alert 9. *)
Lemma commands_on_absent_ids_change_nothing_initial :
  let tapes := run createInitialTapes env_half 0 in
  (~ In 9 (tapeIds tapes)
   /\ (forall t, In t tapes -> Tape.id t = 1 ->
                 ~ In 40 (map Segment.id (Tape.segments t)))
   /\ ~ In 9 (map Alert.id generateAlerts))
  /\ toggleTape 9 tapes = tapes
  /\ addSegmentToTape 9 tapes env_half 0 = (tapes, 0)
  /\ toggleSegment 1 40 tapes = tapes
  /\ removeSegmentFromTape 1 40 tapes = tapes
  /\ acknowledgeAlert 9 generateAlerts = generateAlerts.
Proof.
  intros tapes.
  assert (H1 : ~ In 9 (tapeIds tapes)).
  { vm_compute. intuition discriminate. }
  assert (H2 : forall t, In t tapes -> Tape.id t = 1 ->
                         ~ In 40 (map Segment.id (Tape.segments t))).
  { intros t Ht E. destruct Ht as [<- | [<- | []]].
    - vm_compute. intuition discriminate.
    - vm_compute in E. discriminate E. }
  assert (H3 : ~ In 9 (map Alert.id generateAlerts)).
  { vm_compute. intuition discriminate. }
  destruct commands_on_absent_ids_change_nothing as (T & S & A).
  destruct (T 9 tapes H1) as (Ta & _ & _ & Td).
  destruct (S 1 40 tapes H2) as (Sa & _ & _ & Sd).
  repeat split; auto.
Defined.

(** ** Lists with some elements left out *)

Lemma subseq_refl {A : Type} (l : list A) : subseq l l.
Proof. induction l; constructor; assumption. Qed.

Lemma subseq_nil_l {A : Type} (l : list A) : subseq [] l.
Proof. induction l; constructor; assumption. Qed.

Lemma subseq_app {A : Type} (l1 l1' l2 l2' : list A) :
  subseq l1 l1' -> subseq l2 l2' -> subseq (l1 ++ l2) (l1' ++ l2').
Proof.
  intros H1 H2; induction H1; simpl; try constructor; assumption.
Qed.

Lemma subseq_In {A : Type} (l l' : list A) (x : A) :
  subseq l l' -> In x l -> In x l'.
Proof.
  intros H; induction H; simpl; intros Hx.
  - exact Hx.
  - right; auto.
  - destruct Hx as [-> | Hx]; [left; reflexivity | right; auto].
Qed.

Lemma subseq_NoDup {A : Type} (l l' : list A) :
  subseq l l' -> NoDup l' -> NoDup l.
Proof.
  intros H; induction H; intros Hn.
  - constructor.
  - inversion Hn; subst; auto.
  - inversion Hn; subst. constructor; [| auto].
    intros Hin. apply H2. eapply subseq_In; eassumption.
Qed.

Lemma subseq_length {A : Type} (l l' : list A) :
  subseq l l' -> List.length l <= List.length l'.
Proof. intros H; induction H; simpl; lia. Qed.

Lemma subseq_map_filter {A B : Type} (f : A -> B) (p : A -> bool) (l : list A) :
  subseq (map f (filter p l)) (map f l).
Proof.
  induction l as [| a l IH]; simpl; [constructor |].
  destruct (p a); simpl; constructor; assumption.
Qed.

Lemma subseq_concat {A B : Type} (g g' : A -> list B) (l : list A) :
  (forall a, In a l -> subseq (g a) (g' a)) ->
  subseq (List.concat (map g l)) (List.concat (map g' l)).
Proof.
  induction l as [| a l IH]; simpl; intros H; [constructor |].
  apply subseq_app; [apply H; left; reflexivity |].
  apply IH. intros b Hb. apply H. right; exact Hb.
Qed.

Lemma NoDup_app_inv {A : Type} (l1 l2 : list A) :
  NoDup (l1 ++ l2) ->
  NoDup l1 /\ NoDup l2 /\ (forall a, In a l1 -> ~ In a l2).
Proof.
  intros H. split; [eapply NoDup_app_remove_r; eassumption |].
  split; [eapply NoDup_app_remove_l; eassumption |].
  induction l1 as [| x l1 IH]; simpl in *; [tauto |].
  inversion H; subst. intros a [-> | Ha] Hin.
  - apply H2. apply in_or_app. right; exact Hin.
  - exact (IH H3 a Ha Hin).
Qed.

(** Leaving out the elements equal to [x] shortens a duplicate-free list
    by at most one. *)
Lemma filter_neq_length {A : Type} (f : A -> nat) (x : nat) (l : list A) :
  NoDup (map f l) ->
  List.length l <= S (List.length (filter (fun a => negb (f a =? x)) l)).
Proof.
  induction l as [| a l IH]; simpl; intros H; [lia |].
  inversion H; subst.
  destruct (Nat.eqb_spec (f a) x) as [E | E]; simpl.
  - rewrite filter_all; [lia |].
    intros b Hb. apply negb_true_iff, Nat.eqb_neq. intros Eb.
    apply H2. rewrite E, <- Eb. apply in_map. exact Hb.
  - specialize (IH H3). lia.
Qed.

Lemma filter_neq_absent {A : Type} (f : A -> nat) (x : nat) (l : list A) :
  ~ In x (map f (filter (fun a => negb (f a =? x)) l)).
Proof.
  rewrite in_map_iff. intros (a & E & Ha).
  apply filter_In in Ha. destruct Ha as (_ & Hne).
  apply negb_true_iff, Nat.eqb_neq in Hne. contradiction.
Qed.

Lemma filter_neq_present_length {A : Type} (f : A -> nat) (x : nat) (l : list A) :
  In x (map f l) ->
  List.length (filter (fun a => negb (f a =? x)) l) < List.length l.
Proof.
  induction l as [| a l IH]; simpl; [tauto |].
  destruct (Nat.eqb_spec (f a) x) as [E | E]; simpl.
  - intros _. pose proof (filter_length_le (fun a => negb (f a =? x)) l). lia.
  - intros [C | H]; [contradiction |]. specialize (IH H). lia.
Qed.

(** ** Ids under the commands *)

Lemma segmentIds_concat (tapes : list Tape.t) :
  segmentIds tapes = List.concat (map tapeSegIds tapes).
Proof.
  unfold segmentIds, allSegments, tapeSegIds.
  rewrite flat_map_concat_map, concat_map, map_map. reflexivity.
Qed.

Lemma segmentIds_cons (t : Tape.t) (tapes : list Tape.t) :
  segmentIds (t :: tapes) = tapeSegIds t ++ segmentIds tapes.
Proof. rewrite !segmentIds_concat. reflexivity. Qed.

Lemma segmentIds_app (l1 l2 : list Tape.t) :
  segmentIds (l1 ++ l2) = segmentIds l1 ++ segmentIds l2.
Proof. rewrite !segmentIds_concat, map_app, concat_app. reflexivity. Qed.

Lemma unique_tapeSegIds (tapes : list Tape.t) :
  NoDup (segmentIds tapes) -> Forall (fun t => NoDup (tapeSegIds t)) tapes.
Proof.
  induction tapes as [| t tapes IH]; [constructor |].
  rewrite segmentIds_cons. intros H.
  apply NoDup_app_inv in H. destruct H as (H1 & H2 & _).
  constructor; auto.
Qed.

(** A handler that maps over the tapes, keeps each tape's id and leaves
    out or keeps (never adds) segment ids, keeps all ids unique. *)
Lemma map_keeps_unique (F : Tape.t -> Tape.t) (prev : list Tape.t) :
  (forall t, Tape.id (F t) = Tape.id t) ->
  (forall t, subseq (tapeSegIds (F t)) (tapeSegIds t)) ->
  unique_ids prev -> unique_ids (map F prev).
Proof.
  intros Hid Hseg [Ht Hs]. split.
  - unfold tapeIds in *. rewrite map_map.
    rewrite (map_ext _ Tape.id) by exact Hid. exact Ht.
  - rewrite segmentIds_concat in *. rewrite map_map.
    eapply subseq_NoDup; [| exact Hs].
    apply (subseq_concat (fun t => tapeSegIds (F t)) tapeSegIds).
    intros t _. apply Hseg.
Qed.

Lemma map_eq_subseq {A : Type} (l l' : list A) : l = l' -> subseq l l'.
Proof. intros ->. apply subseq_refl. Qed.

Lemma in_tapeSegIds (t : Tape.t) (tapes : list Tape.t) (i : nat) :
  In t tapes -> In i (tapeSegIds t) -> In i (segmentIds tapes).
Proof.
  intros Ht Hi. rewrite segmentIds_concat. apply in_concat.
  exists (tapeSegIds t). split; [apply in_map; exact Ht | exact Hi].
Qed.

Lemma segments_handler_unique (tapeId : nat) (g : Tape.t -> list Segment.t)
  (prev : list Tape.t) :
  (forall t, subseq (map Segment.id (g t)) (tapeSegIds t)) ->
  unique_ids prev ->
  unique_ids
    (map (fun t => if Tape.id t =? tapeId then Tape.with_segments t (g t) else t) prev).
Proof.
  intros Hg. apply map_keeps_unique; intros t;
    destruct (Tape.id t =? tapeId); try reflexivity.
  - apply Hg.
  - apply subseq_refl.
Qed.

Lemma subseq_segmentIds_filter (p : Tape.t -> bool) (prev : list Tape.t) :
  subseq (segmentIds (filter p prev)) (segmentIds prev).
Proof.
  induction prev as [| t prev IH]; simpl; [constructor |].
  destruct (p t); rewrite !segmentIds_cons.
  - apply subseq_app; [apply subseq_refl | exact IH].
  - rewrite <- (app_nil_l (segmentIds (filter p prev))).
    apply subseq_app; [apply subseq_nil_l | exact IH].
Qed.

Lemma removeTape_unique (tapeId : nat) (prev : list Tape.t) :
  unique_ids prev -> unique_ids (removeTape tapeId prev).
Proof.
  intros [Ht Hs]. unfold removeTape.
  destruct (1 <? List.length prev); [| split; assumption].
  split.
  - eapply subseq_NoDup; [apply subseq_map_filter | exact Ht].
  - eapply subseq_NoDup; [apply subseq_segmentIds_filter | exact Hs].
Qed.

Lemma tickSegment_id (t : Tape.t) (s : Segment.t) (e : Env) (n : nat) :
  Segment.id (fst (tickSegment t s e n)) = Segment.id s.
Proof.
  unfold tickSegment.
  destruct (negb (Segment.enabled s) || negb (Tape.enabled t)); reflexivity.
Qed.

Lemma tickTape_id (t : Tape.t) (e : Env) (n : nat) :
  Tape.id (fst (tickTape t e n)) = Tape.id t.
Proof.
  unfold tickTape, bind.
  destruct (mapM (tickSegment t) (Tape.segments t) e n); reflexivity.
Qed.

Lemma tickTape_segIds (t : Tape.t) (e : Env) (n : nat) :
  tapeSegIds (fst (tickTape t e n)) = tapeSegIds t.
Proof.
  unfold tickTape, bind, tapeSegIds.
  pose proof (mapM_map_fst (tickSegment t) Segment.id Segment.id
                (tickSegment_id t) (Tape.segments t) e n) as H.
  destruct (mapM (tickSegment t) (Tape.segments t) e n); exact H.
Qed.

Lemma tick_ids (prev : list Tape.t) (e : Env) (n : nat) :
  tapeIds (fst (tick prev e n)) = tapeIds prev
  /\ segmentIds (fst (tick prev e n)) = segmentIds prev.
Proof.
  unfold tick, tapeIds. rewrite !segmentIds_concat. split.
  - apply mapM_map_fst. exact tickTape_id.
  - f_equal. apply mapM_map_fst. exact tickTape_segIds.
Qed.

Lemma addTape_shape (prev : list Tape.t) (e : Env) (n : nat) :
  exists t : Tape.t,
    run (addTape prev) e n = prev ++ [t]
    /\ Tape.id t = list_max (tapeIds prev) + 1
    /\ tapeSegIds t = map (fun k => list_max (segmentIds prev) + 1 + k) (seq 0 4)
    /\ Forall status_ok (Tape.segments t).
Proof.
  unfold run, addTape, bind.
  rewrite fold_left_max_tapes, getMaxSegId_list_max. simpl Nat.max.
  pose proof (createTape_shape (list_max (tapeIds prev) + 1)
                (list_max (segmentIds prev) + 1) 4 e n) as H.
  destruct (createTape _ _ 4 e n) as [t n1]. simpl in H.
  destruct H as (Hid & _ & Hsegs & _ & Hst).
  exists t. simpl. repeat split; assumption.
Qed.

Lemma addTape_unique (prev : list Tape.t) (e : Env) (n : nat) :
  unique_ids prev -> unique_ids (run (addTape prev) e n).
Proof.
  intros [Ht Hs].
  destruct (addTape_shape prev e n) as (t & -> & Hid & Hsegs & _).
  split.
  - unfold tapeIds in *. rewrite map_app. simpl.
    apply NoDup_app; [exact Ht | repeat constructor; intros [] |].
    intros a Ha [<- | []]. apply list_max_ge in Ha.
    unfold tapeIds in Hid. lia.
  - rewrite segmentIds_app, segmentIds_cons.
    change (segmentIds []) with (@nil nat). rewrite app_nil_r, Hsegs.
    apply NoDup_app; [exact Hs | |].
    + simpl. repeat constructor; simpl; intuition lia.
    + intros a Ha Hin. apply list_max_ge in Ha. simpl in Hin. intuition lia.
Qed.

Lemma addSegment_mapM (tapeId m : nat) (e : Env) (f : Tape.t -> Gen Tape.t) :
  (forall t, f t = if Tape.id t =? tapeId
                   then s <- createSegment (m + 1) false ;;
                        ret (Tape.with_segments t (Tape.segments t ++ [s]))
                   else ret t) ->
  forall (prev : list Tape.t) (n : nat),
    (forall i, In i (segmentIds prev) -> i <= m) ->
    NoDup (tapeIds prev) -> NoDup (segmentIds prev) ->
    tapeIds (fst (mapM f prev e n)) = tapeIds prev
    /\ NoDup (segmentIds (fst (mapM f prev e n)))
    /\ (forall i, In i (segmentIds (fst (mapM f prev e n))) ->
                  In i (segmentIds prev) \/ i = m + 1).
Proof.
  intros Hf.
  induction prev as [| t rest IH]; intros n Hm Ht Hs.
  - simpl. repeat split; [constructor | tauto].
  - rewrite segmentIds_cons in Hs, Hm.
    apply NoDup_app_inv in Hs. destruct Hs as (Hs1 & Hs2 & Hdis).
    simpl in Ht. inversion Ht as [| ? ? Hnotin Ht']; subst.
    simpl mapM. unfold bind. rewrite Hf.
    destruct (Nat.eqb_spec (Tape.id t) tapeId) as [E | E].
    + unfold bind.
      pose proof (createSegment_id (m + 1) false e n) as Hsid.
      destruct (createSegment (m + 1) false e n) as [s n1]. simpl in Hsid.
      unfold ret.
      assert (Hrest : mapM f rest e n1 = (rest, n1)).
      { apply mapM_ret_on. intros a Ha k.
        rewrite Hf, (absent_tape_eqb tapeId rest); [reflexivity | | exact Ha].
        rewrite <- E. exact Hnotin. }
      rewrite Hrest. simpl. rewrite !segmentIds_cons.
       assert (Hadd : tapeSegIds (Tape.with_segments t (Tape.segments t ++ [s]))
                     = tapeSegIds t ++ [m + 1]).
      { unfold tapeSegIds. simpl. rewrite map_app. simpl. rewrite Hsid. reflexivity. }
      rewrite Hadd, <- app_assoc. simpl.
      repeat split.
      * apply (NoDup_Add (Add_app (m + 1) (tapeSegIds t) (segmentIds rest))).
        split.
        -- apply NoDup_app; assumption.
        -- intros Hin. specialize (Hm _ Hin). lia.
      * intros i Hi.
                apply in_app_or in Hi. destruct Hi as [Hi | [<- | Hi]].
        -- left. apply in_or_app. left; exact Hi.
        -- right; reflexivity.
        -- left. apply in_or_app. right; exact Hi.
    + unfold ret.
      specialize (IH n (fun i Hi => Hm i (in_or_app _ _ _ (or_intror Hi))) Ht' Hs2).
      destruct (mapM f rest e n) as [r' n1]. simpl in IH. simpl.
      destruct IH as (IH1 & IH2 & IH3).
      rewrite !segmentIds_cons. repeat split.
      * f_equal. exact IH1.
      * apply NoDup_app; [exact Hs1 | exact IH2 |].
        intros a Ha Hin. destruct (IH3 a Hin) as [Hr | ->].
        -- exact (Hdis a Ha Hr).
        -- specialize (Hm (m + 1) (in_or_app _ _ _ (or_introl Ha))). lia.
      * intros i Hi. apply in_app_or in Hi. destruct Hi as [Hi | Hi].
        -- left. apply in_or_app. left; exact Hi.
        -- destruct (IH3 i Hi) as [Hr | ->]; [| right; reflexivity].
           left. apply in_or_app. right; exact Hr.
Qed.

Lemma addSegmentToTape_unique (tapeId : nat) (prev : list Tape.t) (e : Env) (n : nat) :
  unique_ids prev -> unique_ids (run (addSegmentToTape tapeId prev) e n).
Proof.
  intros [Ht Hs]. unfold run, addSegmentToTape.
  rewrite getMaxSegId_list_max.
  destruct (addSegment_mapM tapeId (list_max (segmentIds prev)) e _
              (fun t => eq_refl) prev n
              (fun i Hi => list_max_ge _ i Hi) Ht Hs) as (H1 & H2 & _).
  split; [rewrite H1; exact Ht | exact H2].
Qed.

(** Handlers that rewrite segments one by one and keep their ids. *)
Lemma subseq_same_ids (h : Segment.t -> Segment.t) (t : Tape.t) :
  (forall s, Segment.id (h s) = Segment.id s) ->
  subseq (map Segment.id (map h (Tape.segments t))) (tapeSegIds t).
Proof.
  intros H. rewrite map_map. apply map_eq_subseq. apply map_ext. exact H.
Qed.

Lemma exec_unique (c : Command) (prev : list Tape.t) (e : Env) (n : nat) :
  unique_ids prev -> unique_ids (run (exec c prev) e n).
Proof.
  intros H. destruct c; unfold run; simpl.
  - apply map_keeps_unique; [| | exact H]; intros t;
      destruct (Tape.id t =? tapeId); try reflexivity; apply subseq_refl.
  - apply map_keeps_unique; [| | exact H]; intros t;
      destruct (Tape.id t =? tapeId); try reflexivity; try apply subseq_refl;
      destruct field; try reflexivity; apply subseq_refl.
  - apply addTape_unique; exact H.
  - apply removeTape_unique; exact H.
  - apply addSegmentToTape_unique; exact H.
  - apply segments_handler_unique; [| exact H]. intros t.
    destruct (1 <? List.length (Tape.segments t));
      [apply subseq_map_filter | apply subseq_refl].
  - apply segments_handler_unique; [| exact H]. intros t.
    apply subseq_same_ids. intros s.
    try destruct (Segment.id s =? segId); reflexivity.
  - apply segments_handler_unique; [| exact H]. intros t.
    apply subseq_same_ids. intros s.
    try destruct (Segment.id s =? segId); reflexivity.
  - apply segments_handler_unique; [| exact H]. intros t.
    apply subseq_same_ids. intros s.
    try destruct (Segment.id s =? segId); reflexivity.
  - apply segments_handler_unique; [| exact H]. intros t.
    apply subseq_same_ids. intros s.
    try destruct (Segment.id s =? segId); reflexivity.
  - apply segments_handler_unique; [| exact H]. intros t.
    apply subseq_same_ids. intros s.
    try destruct (Segment.id s =? segId); reflexivity.
  - destruct H as [Ht Hs]. destruct (tick_ids prev e n) as [E1 E2].
    split; [rewrite E1 | rewrite E2]; assumption.
Qed.

(** ** Invariants of the state machine *)

Lemma Forall_map_tapes (P : Tape.t -> Prop) (F : Tape.t -> Tape.t)
  (prev : list Tape.t) :
  (forall t, In t prev -> P t -> P (F t)) -> Forall P prev -> Forall P (map F prev).
Proof.
  intros H Hp. apply Forall_forall. intros t' Ht'.
  apply in_map_iff in Ht'. destruct Ht' as (t & <- & Ht).
  apply H; [exact Ht |]. rewrite Forall_forall in Hp. apply Hp; exact Ht.
Qed.

Lemma Forall_mapM_tapes (P : Tape.t -> Prop) (f : Tape.t -> Gen Tape.t) (e : Env)
  (prev : list Tape.t) (n : nat) :
  (forall t k, In t prev -> P t -> P (fst (f t e k))) ->
  Forall P prev -> Forall P (fst (mapM f prev e n)).
Proof.
  intros H Hp. apply mapM_Forall. intros t k Ht.
  apply H; [exact Ht |]. rewrite Forall_forall in Hp. apply Hp; exact Ht.
Qed.

Lemma Forall_filter_keep {A : Type} (P : A -> Prop) (p : A -> bool) (l : list A) :
  Forall P l -> Forall P (filter p l).
Proof.
  intros H. apply Forall_forall. intros a Ha. apply filter_In in Ha.
  rewrite Forall_forall in H. apply H. tauto.
Qed.

Lemma mapM_length {A B : Type} (f : A -> Gen B) (e : Env) (l : list A) (n : nat) :
  List.length (fst (mapM f l e n)) = List.length l.
Proof.
  revert n; induction l as [| a l IH]; simpl; intros n; [reflexivity |].
  unfold bind. destruct (f a e n) as [b n1].
  specialize (IH n1). destruct (mapM f l e n1) as [bs n2].
  simpl in *. rewrite IH. reflexivity.
Qed.

Lemma createInitialTapes_shape (e : Env) (n : nat) :
  exists t1 t2 : Tape.t,
    run createInitialTapes e n = [t1; t2]
    /\ Tape.id t1 = 1 /\ Tape.id t2 = 2
    /\ tapeSegIds t1 = [1; 2; 3; 4; 5; 6]
    /\ tapeSegIds t2 = [7; 8; 9; 10; 11; 12]
    /\ Forall status_ok (Tape.segments t1)
    /\ Forall status_ok (Tape.segments t2).
Proof.
  unfold run, createInitialTapes, bind.
  pose proof (createTape_shape 1 1 6 e n) as H1.
  destruct (createTape 1 1 6 e n) as [t1 n1].
  pose proof (createTape_shape 2 7 6 e n1) as H2.
  destruct (createTape 2 7 6 e n1) as [t2 n2].
  simpl in H1, H2.
  destruct H1 as (I1 & _ & S1 & _ & O1). destruct H2 as (I2 & _ & S2 & _ & O2).
  eexists; eexists. split; [reflexivity |].
  unfold tapeSegIds. simpl. repeat split; assumption.
Qed.

Lemma initial_unique (e : Env) (n : nat) : unique_ids (run createInitialTapes e n).
Proof.
  destruct (createInitialTapes_shape e n) as (t1 & t2 & -> & I1 & I2 & S1 & S2 & _).
  split.
  - unfold tapeIds. simpl. rewrite I1, I2.
    repeat constructor; simpl; intuition discriminate.
  - rewrite !segmentIds_cons. change (segmentIds []) with (@nil nat).
    rewrite S1, S2. simpl.
    repeat constructor; simpl; intuition discriminate.
Qed.

Lemma initial_status_ok (e : Env) (n : nat) :
  all_status_ok (run createInitialTapes e n).
Proof.
  destruct (createInitialTapes_shape e n) as (t1 & t2 & -> & _ & _ & _ & _ & O1 & O2).
  repeat constructor; assumption.
Qed.

Lemma initial_nonempty (e : Env) (n : nat) : nonempty (run createInitialTapes e n).
Proof.
  destruct (createInitialTapes_shape e n) as (t1 & t2 & -> & _ & _ & S1 & S2 & _).
  apply (f_equal (@List.length nat)) in S1, S2.
  unfold tapeSegIds in S1, S2. rewrite length_map in S1, S2. simpl in S1, S2.
  split; [simpl; lia |].
  repeat constructor; lia.
Qed.

Lemma status_ok_toggled (s : Segment.t) :
  status_ok (Segment.with_enabled_status s (negb (Segment.enabled s))
               (if negb (Segment.enabled s) then normal else off)).
Proof.
  unfold status_ok. simpl. destruct (Segment.enabled s); simpl; split;
    intros H; try discriminate H; reflexivity.
Qed.

Lemma tickSegment_status_ok (t : Tape.t) (s : Segment.t) (e : Env) (n : nat) :
  status_ok s -> status_ok (fst (tickSegment t s e n)).
Proof.
  unfold tickSegment.
  destruct (negb (Segment.enabled s) || negb (Tape.enabled t)); intros H; exact H.
Qed.

Lemma exec_status_ok (c : Command) (prev : list Tape.t) (e : Env) (n : nat) :
  all_status_ok prev -> all_status_ok (run (exec c prev) e n).
Proof.
  unfold all_status_ok. intros H. destruct c; unfold run; simpl.
  - apply Forall_map_tapes; [| exact H]. intros t _ Ht.
    destruct (Tape.id t =? tapeId); exact Ht.
  - apply Forall_map_tapes; [| exact H]. intros t _ Ht.
    destruct (Tape.id t =? tapeId); [destruct field |]; exact Ht.
  - destruct (addTape_shape prev e n) as (t & E & _ & _ & Hst).
    unfold run in E. rewrite E. apply Forall_app. split; [exact H |].
    constructor; [exact Hst | constructor].
  - unfold removeTape. destruct (1 <? List.length prev); [| exact H].
    apply Forall_filter_keep; exact H.
  - apply Forall_mapM_tapes; [| exact H]. intros t k _ Ht.
    destruct (Tape.id t =? tapeId); [| exact Ht].
    unfold bind. pose proof (createSegment_status_ok (getMaxSegId prev + 1) false e k) as Hs.
    destruct (createSegment _ false e k) as [s k1]. simpl in *.
    apply Forall_app. split; [exact Ht |]. constructor; [exact Hs | constructor].
  - apply Forall_map_tapes; [| exact H]. intros t _ Ht.
    destruct (Tape.id t =? tapeId); [| exact Ht]. simpl.
    destruct (1 <? List.length (Tape.segments t)); [| exact Ht].
    apply Forall_filter_keep; exact Ht.
  - apply Forall_map_tapes; [| exact H]. intros t _ Ht.
    destruct (Tape.id t =? tapeId); [| exact Ht]. simpl.
    apply Forall_forall. intros s' Hs'. apply in_map_iff in Hs'.
    destruct Hs' as (s & <- & Hs).
    destruct (Segment.id s =? segId); [apply status_ok_toggled |].
    rewrite Forall_forall in Ht. apply Ht; exact Hs.
  - apply Forall_map_tapes; [| exact H]. intros t _ Ht.
    destruct (Tape.id t =? tapeId); [| exact Ht]. simpl.
    apply Forall_forall. intros s' Hs'. apply in_map_iff in Hs'.
    destruct Hs' as (s & <- & Hs). rewrite Forall_forall in Ht.
    destruct (Segment.id s =? segId); [apply (Ht s Hs) | apply Ht; exact Hs].
  - apply Forall_map_tapes; [| exact H]. intros t _ Ht.
    destruct (Tape.id t =? tapeId); [| exact Ht]. simpl.
    apply Forall_forall. intros s' Hs'. apply in_map_iff in Hs'.
    destruct Hs' as (s & <- & Hs). rewrite Forall_forall in Ht.
    destruct (Segment.id s =? segId); [apply (Ht s Hs) | apply Ht; exact Hs].
  - apply Forall_map_tapes; [| exact H]. intros t _ Ht.
    destruct (Tape.id t =? tapeId); [| exact Ht]. simpl.
    apply Forall_forall. intros s' Hs'. apply in_map_iff in Hs'.
    destruct Hs' as (s & <- & Hs). split; intros C; discriminate C.
  - apply Forall_map_tapes; [| exact H]. intros t _ Ht.
    destruct (Tape.id t =? tapeId); [| exact Ht]. simpl.
    apply Forall_forall. intros s' Hs'. apply in_map_iff in Hs'.
    destruct Hs' as (s & <- & Hs). split; reflexivity.
  - apply Forall_mapM_tapes; [| exact H]. intros t k _ Ht.
    unfold tickTape, bind.
    pose proof (mapM_Forall (tickSegment t) status_ok e (Tape.segments t) k) as Hm.
    destruct (mapM (tickSegment t) (Tape.segments t) e k) as [segs k1]. simpl in *.
    apply Hm. intros s j Hs. apply tickSegment_status_ok.
    rewrite Forall_forall in Ht. apply Ht; exact Hs.
Qed.

Lemma removeTape_length (tapeId : nat) (prev : list Tape.t) :
  NoDup (tapeIds prev) -> 1 <= List.length prev ->
  1 <= List.length (removeTape tapeId prev).
Proof.
  intros Hn Hl. unfold removeTape.
  destruct (Nat.ltb_spec 1 (List.length prev)) as [L | L]; [| exact Hl].
  pose proof (filter_neq_length Tape.id tapeId prev Hn). lia.
Qed.

Lemma removeSegment_length (segId : nat) (t : Tape.t) :
  NoDup (tapeSegIds t) -> 1 <= List.length (Tape.segments t) ->
  1 <= List.length
         (if 1 <? List.length (Tape.segments t)
          then filter (fun s => negb (Segment.id s =? segId)) (Tape.segments t)
          else Tape.segments t).
Proof.
  intros Hn Hl.
  destruct (Nat.ltb_spec 1 (List.length (Tape.segments t))) as [L | L]; [| exact Hl].
  pose proof (filter_neq_length Segment.id segId (Tape.segments t) Hn). lia.
Qed.

Lemma exec_nonempty (c : Command) (prev : list Tape.t) (e : Env) (n : nat) :
  unique_ids prev -> nonempty prev -> nonempty (run (exec c prev) e n).
Proof.
  intros [Hu Hs] [Hl Hf].
  pose proof (unique_tapeSegIds prev Hs) as Hseg. rewrite Forall_forall in Hseg.
  destruct c; unfold run, nonempty; simpl;
    unfold toggleTape, updateTapeField, removeSegmentFromTape, toggleSegment,
      setSegPower, setSegTargetTemp, enableAllSegments, disableAllSegments;
    try (split; [rewrite length_map; exact Hl |];
         apply Forall_map_tapes; [| exact Hf]; intros t Hin Ht;
         destruct (Tape.id t =? tapeId); [| exact Ht]; simpl;
         try rewrite length_map; try exact Ht).
  - destruct field; exact Ht.
  - destruct (addTape_shape prev e n) as (t & E & _ & Hids & _).
    unfold run in E. rewrite E. split.
    + rewrite length_app. simpl. lia.
    + apply Forall_app. split; [exact Hf |]. constructor; [| constructor].
      apply (f_equal (@List.length nat)) in Hids.
      unfold tapeSegIds in Hids. rewrite length_map in Hids. simpl in Hids. lia.
  - split; [apply removeTape_length; assumption |].
    unfold removeTape. destruct (1 <? List.length prev); [| exact Hf].
    apply Forall_filter_keep; exact Hf.
  - unfold addSegmentToTape. split; [rewrite mapM_length; exact Hl |].
    apply Forall_mapM_tapes; [| exact Hf]. intros t k _ Ht.
    destruct (Tape.id t =? tapeId); [| exact Ht].
    unfold bind. destruct (createSegment _ false e k) as [s k1]. simpl.
    rewrite length_app. simpl. lia.
  - apply removeSegment_length; [apply Hseg; exact Hin | exact Ht].
  - unfold tick. split; [rewrite mapM_length; exact Hl |].
    apply Forall_mapM_tapes; [| exact Hf]. intros t k _ Ht.
    unfold tickTape, bind.
    pose proof (mapM_length (tickSegment t) e (Tape.segments t) k) as Hm.
    destruct (mapM (tickSegment t) (Tape.segments t) e k) as [segs k1].
    simpl in *. rewrite Hm. exact Ht.
Qed.

Lemma reachable_invariants (tapes : list Tape.t) :
  reachable tapes -> unique_ids tapes /\ nonempty tapes /\ all_status_ok tapes.
Proof.
  intros H; induction H as [e n _ | c prev e n _ _ (IHu & IHn & IHs)].
  - split; [apply initial_unique |].
    split; [apply initial_nonempty | apply initial_status_ok].
  - split; [apply exec_unique; exact IHu |].
    split; [apply exec_nonempty; assumption | apply exec_status_ok; exact IHs].
Qed.

Lemma Forall2_map_r {A B : Type} (R : A -> B -> Prop) (f : A -> B) (l : list A) :
  (forall a, In a l -> R a (f a)) -> Forall2 R l (map f l).
Proof.
  induction l as [| a l IH]; simpl; intros H; constructor.
  - apply H. left; reflexivity.
  - apply IH. intros b Hb. apply H. right; exact Hb.
Qed.

Lemma valid_env_half : valid_env env_half.
Proof. intros n. simpl. split; [discriminate | reflexivity]. Qed.

(** ** Removal guards *)

(** C4: in every reachable state, [removeTape] returns the state it was
    given when one tape remains and otherwise leaves out the addressed
    tape, so at least one tape always remains; [removeSegmentFromTape]
    returns the addressed tape as it was when it has one segment and
    otherwise leaves out the addressed segment, so every tape keeps at
    least one segment; all other tapes are returned as they were. Both
    handlers are total: a refusal is the unchanged state, not an error. *)
Theorem remove_guards_keep_nonempty :
  forall prev : list Tape.t,
    reachable prev ->
    (forall tapeId : nat,
        (List.length prev = 1 -> removeTape tapeId prev = prev)
        /\ (1 < List.length prev ->
            removeTape tapeId prev
            = filter (fun t => negb (Tape.id t =? tapeId)) prev
            /\ ~ In tapeId (tapeIds (removeTape tapeId prev))
            /\ (In tapeId (tapeIds prev) ->
                List.length (removeTape tapeId prev) = List.length prev - 1))
        /\ 1 <= List.length (removeTape tapeId prev))
    /\ (forall tapeId segId : nat,
           Forall2
             (fun t t' =>
                if Tape.id t =? tapeId
                then (List.length (Tape.segments t) = 1 -> t' = t)
                     /\ (1 < List.length (Tape.segments t) ->
                         t' = Tape.with_segments t
                                (filter (fun s => negb (Segment.id s =? segId))
                                        (Tape.segments t))
                         /\ ~ In segId (tapeSegIds t')
                         /\ (In segId (tapeSegIds t) ->
                             List.length (Tape.segments t')
                             = List.length (Tape.segments t) - 1))
                else t' = t)
             prev (removeSegmentFromTape tapeId segId prev)
           /\ Forall (fun t' => 1 <= List.length (Tape.segments t'))
                     (removeSegmentFromTape tapeId segId prev)).
Proof.
  intros prev Hr.
  destruct (reachable_invariants prev Hr) as ((Hu & Hs) & (Hl & Hf) & _).
  pose proof (unique_tapeSegIds prev Hs) as Hseg. rewrite Forall_forall in Hseg.
  split.
  - intros tapeId. split; [| split].
    + intros E. unfold removeTape. rewrite E. reflexivity.
    + intros L. unfold removeTape.
      destruct (Nat.ltb_spec 1 (List.length prev)) as [_ | C]; [| lia].
      split; [reflexivity |]. split; [apply filter_neq_absent |].
      intros Hin.
      pose proof (filter_neq_length Tape.id tapeId prev Hu).
      pose proof (filter_neq_present_length Tape.id tapeId prev Hin). lia.
    + apply removeTape_length; assumption.
  - intros tapeId segId. split.
    + unfold removeSegmentFromTape. apply Forall2_map_r. intros t Ht.
      destruct (Tape.id t =? tapeId); [| reflexivity].
      destruct (Nat.ltb_spec 1 (List.length (Tape.segments t))) as [L | L]; split.
      * intros E. lia.
      * intros _. split; [reflexivity |]. split.
        -- unfold tapeSegIds. simpl. apply filter_neq_absent.
        -- intros Hin. simpl.
           pose proof (filter_neq_length Segment.id segId (Tape.segments t)
                         (Hseg t Ht)).
           pose proof (filter_neq_present_length Segment.id segId
                         (Tape.segments t) Hin). lia.
      * intros _. apply with_segments_same.
      * intros C. lia.
    + unfold removeSegmentFromTape. apply Forall_map_tapes; [| exact Hf].
      intros t Ht H1. destruct (Tape.id t =? tapeId); [| exact H1]. simpl.
      apply removeSegment_length; [apply Hseg; exact Ht | exact H1].
Qed.

(** C4, on the tapes the panel starts with: tape 2 can be removed, and
    then tape 1, the last one, cannot. *)
Lemma remove_guards_keep_nonempty_initial :
  let tapes := run createInitialTapes env_half 0 in
  reachable tapes
  /\ List.length (removeTape 2 tapes) = 1
  /\ removeTape 1 (removeTape 2 tapes) = removeTape 2 tapes.
Proof.
  intros tapes.
  assert (R0 : reachable tapes) by (apply reach_init; exact valid_env_half).
  assert (R1 : reachable (removeTape 2 tapes)).
  { exact (reach_step (CRemoveTape 2) tapes env_half 0 valid_env_half R0). }
  split; [exact R0 |]. split; [vm_compute; reflexivity |].
  destruct (remove_guards_keep_nonempty _ R1) as (H & _).
  destruct (H 1) as (Hone & _). apply Hone. vm_compute. reflexivity.
Defined.

(** ** Id allocation *)

(** C5: started from a state whose tape ids are pairwise different and
    whose segment ids are pairwise different, any sequence of [addTape]
    and [addSegmentToTape] calls ends in such a state again, and a further
    call only adds ids that are strictly greater than every id of the same
    kind present before it. *)
Theorem add_commands_allocate_fresh_ids :
  forall (prev : list Tape.t) (cs : list AddCommand) (e : Env) (n : nat),
    unique_ids prev ->
    let st := run (execAdds cs prev) e n in
    unique_ids st
    /\ forall (c : AddCommand) (e' : Env) (n' : nat),
         let st' := run (execAdd c st) e' n' in
         (forall i, In i (tapeIds st') ->
                    In i (tapeIds st) \/ (forall j, In j (tapeIds st) -> j < i))
         /\ (forall i, In i (segmentIds st') ->
                       In i (segmentIds st)
                       \/ (forall j, In j (segmentIds st) -> j < i)).
Proof.
  intros prev cs e n Hu. cbv zeta.
  assert (Hst : unique_ids (run (execAdds cs prev) e n)).
  { revert prev n Hu. induction cs as [| c cs IH]; intros prev n Hu; [exact Hu |].
    unfold run. simpl. unfold bind.
    destruct (execAdd c prev e n) as [next n1] eqn:E.
    apply (IH next n1).
    replace next with (run (execAdd c prev) e n) by (unfold run; rewrite E; reflexivity).
    destruct c; simpl; [apply addTape_unique | apply addSegmentToTape_unique]; exact Hu. }
  split; [exact Hst |].
  set (st := run (execAdds cs prev) e n) in *.
  intros c e' n'. destruct c as [| tapeId]; simpl.
  - destruct (addTape_shape st e' n') as (t & -> & Hid & Hsegs & _). split.
    + intros i Hi. unfold tapeIds in Hi. rewrite map_app in Hi.
      apply in_app_or in Hi. destruct Hi as [Hi | [<- | []]]; [left; exact Hi |].
      right. intros j Hj. apply list_max_ge in Hj. lia.
    + intros i Hi. rewrite segmentIds_app, segmentIds_cons in Hi.
      change (segmentIds []) with (@nil nat) in Hi. rewrite app_nil_r, Hsegs in Hi.
      apply in_app_or in Hi. destruct Hi as [Hi | Hi]; [left; exact Hi |].
      right. intros j Hj. apply list_max_ge in Hj. simpl in Hi. intuition lia.
  - destruct Hst as [Ht Hs]. unfold run, addSegmentToTape.
    rewrite getMaxSegId_list_max.
    destruct (addSegment_mapM tapeId (list_max (segmentIds st)) e' _
                (fun t => eq_refl) st n'
                (fun i Hi => list_max_ge _ i Hi) Ht Hs) as (H1 & _ & H3).
    split.
    + intros i Hi. left. rewrite <- H1. exact Hi.
    + intros i Hi. destruct (H3 i Hi) as [Hin | ->]; [left; exact Hin |].
      right. intros j Hj. apply list_max_ge in Hj. lia.
Qed.

(** C5, on the tapes the panel starts with, after adding a tape and then a
    segment to tape 1: the ids are still unique. *)
Lemma add_commands_allocate_fresh_ids_initial :
  unique_ids (run createInitialTapes env_half 0)
  /\ unique_ids
       (run (execAdds [AddTape; AddSegmentToTape 1] (run createInitialTapes env_half 0))
            env_half 0).
Proof.
  assert (H : unique_ids (run createInitialTapes env_half 0)).
  { split; vm_compute; repeat constructor; simpl; intuition discriminate. }
  split; [exact H |].
  exact (proj1 (add_commands_allocate_fresh_ids _ [AddTape; AddSegmentToTape 1]
                  env_half 0 H)).
Defined.

(** ** Status and the enabled flag *)

Lemma in_map_tape_handler (tapeId : nat) (g : Tape.t -> list Segment.t)
  (prev : list Tape.t) (t' : Tape.t) :
  In t' (map (fun t => if Tape.id t =? tapeId
                       then Tape.with_segments t (g t) else t) prev) ->
  Tape.id t' = tapeId ->
  exists t, In t prev /\ Tape.segments t' = g t.
Proof.
  intros Hin Hid. apply in_map_iff in Hin. destruct Hin as (t & E & Ht).
  exists t. split; [exact Ht |].
  destruct (Nat.eqb_spec (Tape.id t) tapeId) as [Et | Et]; subst t'.
  - reflexivity.
  - contradiction.
Qed.

(** C6: a segment has status [off] exactly when it is disabled, in every
    state reachable from the tapes generated at start, and every command
    and the tick keep it so. [createSegment] establishes it; [toggleSegment]
    flips the flag of the addressed segment and sets its status to [normal]
    when that enables it and to [off] when that disables it, leaving every
    other segment as it was; the two bulk handlers set flag and status of
    all segments of the addressed tape to [true] / [normal] and to
    [false] / [off]. *)
Theorem status_off_iff_disabled :
  (forall tapes, reachable tapes -> all_status_ok tapes)
  /\ (forall c prev e n,
         all_status_ok prev -> all_status_ok (run (exec c prev) e n))
  /\ (forall id enabled e n, status_ok (run (createSegment id enabled) e n))
  /\ (forall tapeId segId prev,
         Forall2
           (fun t t' =>
              Forall2
                (fun s s' =>
                   if (Tape.id t =? tapeId) && (Segment.id s =? segId)
                   then s' = Segment.with_enabled_status s
                               (negb (Segment.enabled s))
                               (if Segment.enabled s then off else normal)
                   else s' = s)
                (Tape.segments t) (Tape.segments t'))
           prev (toggleSegment tapeId segId prev))
  /\ (forall tapeId prev t',
         In t' (enableAllSegments tapeId prev) -> Tape.id t' = tapeId ->
         Forall (fun s => Segment.enabled s = true /\ Segment.status s = normal)
                (Tape.segments t'))
  /\ (forall tapeId prev t',
         In t' (disableAllSegments tapeId prev) -> Tape.id t' = tapeId ->
         Forall (fun s => Segment.enabled s = false /\ Segment.status s = off)
                (Tape.segments t')).
Proof.
  split; [| split; [| split; [| split; [| split]]]].
  - intros tapes H. apply reachable_invariants. exact H.
  - intros c prev e n. apply exec_status_ok.
  - intros id enabled e n. apply createSegment_status_ok.
  - intros tapeId segId prev. unfold toggleSegment.
    apply Forall2_map_r. intros t _.
    destruct (Tape.id t =? tapeId); simpl.
    + apply Forall2_map_r. intros s _.
      destruct (Segment.id s =? segId); [| reflexivity].
      destruct (Segment.enabled s); reflexivity.
    + rewrite <- (map_id (Tape.segments t)) at 2.
      apply Forall2_map_r. intros s _. reflexivity.
  - intros tapeId prev t' Hin Hid.
    destruct (in_map_tape_handler tapeId _ prev t' Hin Hid) as (t & _ & ->).
    apply Forall_forall. intros s' Hs'. apply in_map_iff in Hs'.
    destruct Hs' as (s & <- & _). split; reflexivity.
  - intros tapeId prev t' Hin Hid.
    destruct (in_map_tape_handler tapeId _ prev t' Hin Hid) as (t & _ & ->).
    apply Forall_forall. intros s' Hs'. apply in_map_iff in Hs'.
    destruct Hs' as (s & <- & _). split; reflexivity.
Qed.

(** C6, on a reachable state: the tapes generated at start, after segment
    6 of tape 1 is switched on and a tick has run. *)
Lemma status_off_iff_disabled_after_toggle :
  let tapes :=
    run (tick (toggleSegment 1 6 (run createInitialTapes env_half 0))) env_half 0 in
  reachable tapes /\ all_status_ok tapes.
Proof.
  intros tapes.
  assert (R : reachable tapes).
  { apply (reach_step CTick _ env_half 0 valid_env_half).
    apply (reach_step (CToggleSegment 1 6) _ env_half 0 valid_env_half).
    apply reach_init. exact valid_env_half. }
  split; [exact R |].
  exact (proj1 status_off_iff_disabled tapes R).
Defined.

(** ** Binary64 rounding *)

Lemma round_even_near (x : Q) : (Qabs (inject_Z (round_even x) - x) <= 1 # 2)%Q.
Proof.
  unfold round_even.
  pose proof (Qfloor_le x) as Hlo. pose proof (Qlt_floor x) as Hhi.
  rewrite inject_Z_plus in Hhi. change (inject_Z 1) with 1%Q in Hhi.
  apply Qabs_Qle_condition.
  destruct (Qcompare_spec (x - inject_Z (Qfloor x)) (1 # 2)) as [E | E | E].
  - destruct (Z.even (Qfloor x)).
    + split; lra.
    + rewrite inject_Z_plus. change (inject_Z 1) with 1%Q. split; lra.
  - split; lra.
  - rewrite inject_Z_plus. change (inject_Z 1) with 1%Q. split; lra.
Qed.

Lemma pow2_pos (e : Z) : (0 < 2 ^ e)%Q.
Proof. apply Qpower_0_lt. reflexivity. Qed.

Lemma Qabs_pos (q : Q) : ~ (q == 0)%Q -> (0 < Qabs q)%Q.
Proof.
  intros Hq. destruct (Q_dec q 0) as [[H | H] | H]; [| | contradiction];
    apply Qabs_case; intros; lra.
Qed.

Lemma ilog2_le (q : Q) : (0 < q)%Q -> (2 ^ ilog2 q <= q)%Q.
Proof.
  intros Hq. unfold ilog2. destruct (Qle_bool 1 q) eqn:E.
  - apply Qle_bool_iff in E.
    assert (Hf : (1 <= Qfloor q)%Z).
    { rewrite <- (Qfloor_Z 1). apply Qfloor_resp_le. exact E. }
    pose proof (Z.log2_spec (Qfloor q) ltac:(lia)) as [Hl _].
    pose proof (Z.log2_nonneg (Qfloor q)) as Hn.
    change 2%Q with (inject_Z 2). rewrite <- Zpower_Qpower by exact Hn.
    eapply Qle_trans; [| apply Qfloor_le].
    rewrite <- Zle_Qle. exact Hl.
  - assert (Hlt : (q < 1)%Q).
    { apply Qnot_le_lt. intros H. apply Qle_bool_iff in H. congruence. }
    set (c := Qceiling (/ q)).
    assert (Hy : (/ q <= inject_Z c)%Q) by apply Qle_ceiling.
    assert (Hi : (0 < / q)%Q) by (apply Qinv_lt_0_compat; exact Hq).
    assert (Hc : (0 < c)%Z).
    { rewrite Zlt_Qlt. eapply Qlt_le_trans; [exact Hi | exact Hy]. }
    pose proof (Z.log2_log2_up_spec c Hc) as [_ Hu].
    pose proof (Z.log2_up_nonneg c) as Hn.
    rewrite Qpower_opp.
    apply Qle_shift_inv_r; [apply pow2_pos |].
    change 2%Q with (inject_Z 2). rewrite <- Zpower_Qpower by exact Hn.
    rewrite Zle_Qle in Hu.
    assert (H1 : (/ q <= inject_Z (2 ^ Z.log2_up c))%Q) by (eapply Qle_trans; eassumption).
    assert (H2 : (q * / q == 1)%Q) by (apply Qmult_inv_r; intro Hc0; lra).
    assert (H3 : (q * / q <= q * inject_Z (2 ^ Z.log2_up c))%Q).
    { apply Qmult_le_l; assumption. }
    lra.
Qed.

Lemma ilog2_lt (q : Q) : (0 < q)%Q -> (q < 2 ^ (ilog2 q + 1))%Q.
Proof.
  intros Hq. unfold ilog2. destruct (Qle_bool 1 q) eqn:E.
  - apply Qle_bool_iff in E.
    assert (Hf : (1 <= Qfloor q)%Z).
    { rewrite <- (Qfloor_Z 1). apply Qfloor_resp_le. exact E. }
    pose proof (Z.log2_spec (Qfloor q) ltac:(lia)) as [_ Hl].
    pose proof (Z.log2_nonneg (Qfloor q)) as Hn.
    change 2%Q with (inject_Z 2). rewrite <- Zpower_Qpower by lia.
    eapply Qlt_le_trans; [apply Qlt_floor |].
    rewrite <- Zle_Qle. unfold Z.succ in Hl. lia.
  - assert (Hlt : (q < 1)%Q).
    { apply Qnot_le_lt. intros H. apply Qle_bool_iff in H. congruence. }
    set (c := Qceiling (/ q)).
    assert (Hi : (1 < / q)%Q).
    { apply Qlt_shift_inv_l; [exact Hq | lra]. }
    assert (Hy : (/ q <= inject_Z c)%Q) by apply Qle_ceiling.
    assert (Hc : (1 < c)%Z).
    { rewrite Zlt_Qlt. eapply Qlt_le_trans; [exact Hi | exact Hy]. }
    pose proof (Z.log2_up_spec c Hc) as [Hu _].
    assert (Hpos : (0 < Z.log2_up c)%Z) by (apply Z.log2_up_pos; exact Hc).
    assert (Hc1 : (inject_Z (c - 1) < / q)%Q) by apply Qceiling_lt.
    replace (- Z.log2_up c + 1)%Z with (- (Z.log2_up c - 1))%Z by lia.
    rewrite Qpower_opp.
    change 2%Q with (inject_Z 2). rewrite <- Zpower_Qpower by lia.
    unfold Z.pred in Hu.
    replace (Z.log2_up c + -1)%Z with (Z.log2_up c - 1)%Z in Hu by lia.
    assert (Hp : (0 < 2 ^ (Z.log2_up c - 1))%Z) by (apply Z.pow_pos_nonneg; lia).
    assert (H1 : (inject_Z (2 ^ (Z.log2_up c - 1)) <= inject_Z (c - 1))%Q).
    { rewrite <- Zle_Qle. lia. }
    rewrite Zlt_Qlt in Hp. change (inject_Z 0) with 0%Q in Hp.
    apply Qlt_shift_inv_l; [exact Hp |].
    set (P := inject_Z (2 ^ (Z.log2_up c - 1))) in *.
    assert (H2 : (P < / q)%Q) by (eapply Qle_lt_trans; eassumption).
    assert (H4 : (q * / q == 1)%Q) by (apply Qmult_inv_r; intro Hc0; lra).
    assert (H3 : (q * P < q * / q)%Q).
    { apply Qmult_lt_l; assumption. }
    lra.
Qed.

(** [double q] is a binary64 number, an integer of at most 53 binary
    digits times a power of two not below [2 ^ -1074], and no multiple of
    that power of two is nearer to [q]. *)
Lemma double_binary64 (q : Q) :
  exists M e : Z,
    (double q == inject_Z M * 2 ^ e)%Q
    /\ (Z.abs M <= 2 ^ 53)%Z /\ (-1074 <= e)%Z
    /\ (Qabs (double q - q) <= 2 ^ e * (1 # 2))%Q.
Proof.
  unfold double. destruct (Qeq_bool q 0) eqn:E.
  - apply Qeq_bool_eq in E. exists 0%Z, (-1074)%Z.
    split; [ring |]. split; [discriminate |]. split; [lia |].
    rewrite E. pose proof (pow2_pos (-1074)). change (Qabs (0 - 0)) with 0%Q. lra.
  - apply Qeq_bool_neq in E.
    exists (round_even (q / 2 ^ ulp_exponent q)), (ulp_exponent q).
    split; [apply Qred_correct |].
    pose proof (pow2_pos (ulp_exponent q)) as Hpos.
    pose proof (ilog2_lt (Qabs q) (Qabs_pos q E)) as Hl.
    assert (He : (ilog2 (Qabs q) - 52 <= ulp_exponent q)%Z) by (unfold ulp_exponent; lia).
    set (L := ilog2 (Qabs q)) in *.
    assert (Hm : (2 ^ (L - 52) <= 2 ^ ulp_exponent q)%Q).
    { apply Qpower_le_compat_l; [exact He | discriminate]. }
    assert (E2 : (2 ^ (L + 1) == 9007199254740992 * 2 ^ (L - 52))%Q).
    { replace (L + 1)%Z with (53 + (L - 52))%Z by lia.
      rewrite Qpower_plus by discriminate. reflexivity. }
    set (p := (2 ^ ulp_exponent q)%Q) in *.
    pose proof (round_even_near (q / p)) as Hr.
    assert (Hz : (q / p * p == q)%Q)
      by (rewrite Qmult_comm; apply Qmult_div_r; intro Hc; lra).
    apply Qabs_Qle_condition in Hr. destruct Hr as [Hr1 Hr2].
    assert (Hq1 : (q < 9007199254740992 * p)%Q).
    { revert Hl. apply Qabs_case; intros; lra. }
    assert (Hq2 : (- (9007199254740992 * p) < q)%Q).
    { revert Hl. apply Qabs_case; intros; lra. }
    assert (Hz1 : (q / p < 9007199254740992)%Q).
    { apply (Qmult_lt_r _ _ p Hpos). lra. }
    assert (Hz2 : (- (9007199254740992) < q / p)%Q).
    { apply (Qmult_lt_r _ _ p Hpos). lra. }
    set (M := round_even (q / p)) in *.
    split; [| split; [unfold ulp_exponent; lia |]].
    + assert (K1 : (inject_Z M < inject_Z (2 ^ 53 + 1))%Q).
      { change (inject_Z (2 ^ 53 + 1)) with 9007199254740993%Q. lra. }
      assert (K2 : (inject_Z (- 2 ^ 53 - 1) < inject_Z M)%Q).
      { change (inject_Z (- 2 ^ 53 - 1)) with (- (9007199254740993))%Q. lra. }
      rewrite <- Zlt_Qlt in K1, K2. lia.
    + rewrite Qred_correct.
      assert (Hd : (inject_Z M * p - q == (inject_Z M - q / p) * p)%Q)
        by (rewrite <- Hz at 1; ring).
      assert (H1 : ((inject_Z M - q / p) * p <= (1 # 2) * p)%Q).
      { apply Qmult_le_compat_r; lra. }
      assert (H2 : (- (1 # 2) * p <= (inject_Z M - q / p) * p)%Q).
      { apply Qmult_le_compat_r; lra. }
      apply Qabs_Qle_condition. split; lra.
Qed.

(** The rounding error of [double]: at most [2 ^ -53] of the magnitude, or
    [2 ^ -1075] for the smallest numbers. *)
Lemma double_near (q : Q) :
  (Qabs (double q - q) <= Qabs q * (1 # 9007199254740992) + 2 ^ (-1075))%Q.
Proof.
  pose proof (pow2_pos (-1075)) as Hp. pose proof (Qabs_nonneg q) as Hn.
  destruct (Qeq_dec q 0) as [E | E].
  - unfold double. rewrite (Qeq_eq_bool _ _ E). rewrite E.
    change (Qabs (0 - 0)) with 0%Q. change (Qabs 0) with 0%Q. lra.
  - destruct (double_binary64 q) as (M & e & _ & _ & _ & _).
    unfold double. destruct (Qeq_bool q 0) eqn:Eb;
      [apply Qeq_bool_eq in Eb; contradiction |].
    rewrite Qred_correct.
    pose proof (pow2_pos (ulp_exponent q)) as Hpos.
    pose proof (ilog2_le (Qabs q) (Qabs_pos q E)) as Hl.
    assert (Hu : (2 ^ ulp_exponent q
                  <= Qabs q * (1 # 4503599627370496) + 2 ^ (-1074))%Q).
    { pose proof (pow2_pos (-1074)) as Hp1.
      pose proof (pow2_pos (ilog2 (Qabs q) - 52)) as Hp2.
      unfold ulp_exponent.
      destruct (Z.max_spec (ilog2 (Qabs q) - 52) (-1074)) as [[_ ->] | [_ ->]].
      - lra.
      - assert (E1 : (2 ^ (ilog2 (Qabs q) - 52)
                      == 2 ^ ilog2 (Qabs q) * (1 # 4503599627370496))%Q).
        { unfold Z.sub. rewrite Qpower_plus by discriminate. reflexivity. }
        rewrite E1 in *. lra. }
    set (p := (2 ^ ulp_exponent q)%Q) in *.
    pose proof (round_even_near (q / p)) as Hr.
    apply Qabs_Qle_condition in Hr. destruct Hr as [Hr1 Hr2].
    set (N := inject_Z (round_even (q / p))) in *.
    assert (Hz : (q / p * p == q)%Q)
      by (rewrite Qmult_comm; apply Qmult_div_r; intro Hc; lra).
    assert (Hd : (N * p - q == (N - q / p) * p)%Q) by (rewrite <- Hz at 1; ring).
    assert (H1 : ((N - q / p) * p <= (1 # 2) * p)%Q).
    { apply Qmult_le_compat_r; lra. }
    assert (H2 : (- (1 # 2) * p <= (N - q / p) * p)%Q).
    { apply Qmult_le_compat_r; lra. }
    assert (H3 : (2 ^ (-1074) == 2 * 2 ^ (-1075))%Q) by reflexivity.
    apply Qabs_Qle_condition. split; lra.
Qed.

Lemma double_within (q B : Q) :
  (- B <= q)%Q -> (q <= B)%Q ->
  (- ((B + 1) * (1 # 9007199254740992)) <= double q - q)%Q
  /\ (double q - q <= (B + 1) * (1 # 9007199254740992))%Q.
Proof.
  intros H1 H2. pose proof (double_near q) as H.
  assert (Ha : (Qabs q <= B)%Q) by (apply Qabs_Qle_condition; split; assumption).
  assert (He : (2 ^ (-1075) <= 1 # 9007199254740992)%Q) by (vm_compute; discriminate).
  apply Qabs_Qle_condition in H. destruct H. split; lra.
Qed.

(** A draw in [0, 1) is read as a binary64 number in [0, 1). *)
Lemma double_below_range (q : Q) :
  (0 <= q)%Q -> (0 <= double_below q)%Q /\ (double_below q <= q)%Q.
Proof.
  intros Hq. unfold double_below. destruct (Qeq_bool q 0) eqn:E.
  - split; [apply Qle_refl | exact Hq].
  - apply Qeq_bool_neq in E. rewrite Qred_correct.
    pose proof (pow2_pos (ulp_exponent q)) as Hpos.
    set (p := (2 ^ ulp_exponent q)%Q) in *.
    assert (Hz : (q / p * p == q)%Q)
      by (rewrite Qmult_comm; apply Qmult_div_r; intro Hc; lra).
    assert (H0 : (0 <= q / p)%Q).
    { apply Qle_shift_div_l; [exact Hpos |]. rewrite Qmult_0_l. exact Hq. }
    assert (Hf : (0 <= Qfloor (q / p))%Z).
    { rewrite <- (Qfloor_Z 0). apply Qfloor_resp_le. exact H0. }
    rewrite Zle_Qle in Hf. change (inject_Z 0) with 0%Q in Hf.
    pose proof (Qfloor_le (q / p)) as Hl.
    split.
    + apply Qmult_le_0_compat; lra.
    + rewrite <- Hz at 2. apply Qmult_le_compat_r; lra.
Qed.

(** [double_below q] is a binary64 number as well. *)
Lemma double_below_binary64 (q : Q) :
  (0 <= q)%Q ->
  exists M e : Z,
    (double_below q == inject_Z M * 2 ^ e)%Q
    /\ (0 <= M < 2 ^ 53)%Z /\ (-1074 <= e)%Z.
Proof.
  intros Hq. unfold double_below. destruct (Qeq_bool q 0) eqn:E.
  - exists 0%Z, (-1074)%Z. split; [ring |]. split; [split; [lia | reflexivity] | lia].
  - apply Qeq_bool_neq in E.
    exists (Qfloor (q / 2 ^ ulp_exponent q)), (ulp_exponent q).
    split; [apply Qred_correct |].
    split; [| unfold ulp_exponent; lia].
    pose proof (pow2_pos (ulp_exponent q)) as Hpos.
    pose proof (ilog2_lt (Qabs q) (Qabs_pos q E)) as Hl.
    assert (He : (ilog2 (Qabs q) - 52 <= ulp_exponent q)%Z) by (unfold ulp_exponent; lia).
    set (L := ilog2 (Qabs q)) in *.
    assert (Hm : (2 ^ (L - 52) <= 2 ^ ulp_exponent q)%Q).
    { apply Qpower_le_compat_l; [exact He | discriminate]. }
    assert (E2 : (2 ^ (L + 1) == 9007199254740992 * 2 ^ (L - 52))%Q).
    { replace (L + 1)%Z with (53 + (L - 52))%Z by lia.
      rewrite Qpower_plus by discriminate. reflexivity. }
    set (p := (2 ^ ulp_exponent q)%Q) in *.
    assert (Hz : (q / p * p == q)%Q)
      by (rewrite Qmult_comm; apply Qmult_div_r; intro Hc; lra).
    assert (Hq1 : (q < 9007199254740992 * p)%Q).
    { revert Hl. apply Qabs_case; intros; lra. }
    assert (Hz1 : (q / p < 9007199254740992)%Q).
    { apply (Qmult_lt_r _ _ p Hpos). lra. }
    assert (H0 : (0 <= q / p)%Q).
    { apply Qle_shift_div_l; [exact Hpos |]. rewrite Qmult_0_l. exact Hq. }
    split.
    + rewrite <- (Qfloor_Z 0). apply Qfloor_resp_le. exact H0.
    + rewrite Zlt_Qlt. eapply Qle_lt_trans; [apply Qfloor_le |].
      change (inject_Z (2 ^ 53)) with 9007199254740992%Q. exact Hz1.
Qed.

(** On these inputs the binary64 operations of the Standard Library give
    the number that [scaledTemp] gives. *)
Lemma scaledTemp_as_SpecFloat :
  Forall (fun tr => of_SF (SF_scaledTemp (fst tr) (snd tr))
                    = Some (scaledTemp (fst tr) (snd tr)))
         [ ((-5)%Q, (9007199254740991 # 9007199254740992)%Q);
           ((7 # 10)%Q, 0%Q);
           ((-5)%Q, 0%Q);
           ((7 # 2)%Q, (1 # 2)%Q);
           (9%Q, (99 # 100)%Q);
           ((1 # 25)%Q, (99 # 100)%Q);
           ((- (42 # 10))%Q, (9007199254740991 # 9007199254740992)%Q);
           ((3 # 10)%Q, (1 # 3)%Q);
           ((123456789 # 10)%Q, (1 # 7)%Q);
           ((- (1 # 10))%Q, (1 # 1000000)%Q) ].
Proof. repeat constructor; vm_compute; reflexivity. Qed.

(** The binary64 number that the program holds for [k] tenths, the
    quotient [k / 10], is [double] of the decimal: on these [k] the
    division of the Standard Library gives it. *)
Lemma double_as_SpecFloat_division :
  Forall (fun k => of_SF (SpecFloat.SFdiv 53 1024 (to_SF (inject_Z k)) (to_SF 10))
                   = Some (double (inject_Z k / 10)))
         [7; -1; -42; -50; 3; 11; 35; 90; -57; 1; 123456789; -999999999;
          10000000000]%Z.
Proof. repeat constructor; vm_compute; reflexivity. Qed.

(** ** Simulation tick *)

Lemma newTemp_one_decimal (T r : Q) : one_decimal (newTemp T r).
Proof. unfold one_decimal, newTemp. eexists. reflexivity. Qed.

(** From [k] tenths, of at most [10 ^ 9] degrees, the tick goes to [m]
    tenths with [m] within 8 of [k]. *)
Lemma newTemp_tenths (k : Z) (T r : Q) :
  (0 <= r)%Q -> (r < 1)%Q -> (T == inject_Z k / 10)%Q -> (Qabs T <= 1000000000)%Q ->
  exists m : Z, newTemp T r = (inject_Z m / 10)%Q /\ (k - 8 <= m <= k + 8)%Z.
Proof.
  intros H0 H1 Hk HT. unfold newTemp, scaledTemp, drift.
  apply Qabs_Qle_condition in HT. destruct HT as [HT1 HT2].
  destruct (double_below_range r H0) as [Hb0 Hb1].
  set (rb := double_below r) in *.
  destruct (double_within (rb - (1 # 2)) (1 # 2)) as [A1 A2]; [lra | lra |].
  set (d1 := double (rb - (1 # 2))) in *.
  destruct (double_within (d1 * (3 # 2)) 1) as [B1 B2]; [lra | lra |].
  set (d := double (d1 * (3 # 2))) in *.
  destruct (double_within T 1000000000) as [C1 C2]; [lra | lra |].
  set (x := double T) in *.
  destruct (double_within (x + d) 1000000002) as [D1 D2]; [lra | lra |].
  set (s := double (x + d)) in *.
  destruct (double_within (s * 10) 10000000030) as [E1 E2]; [lra | lra |].
  set (y := double (s * 10)) in *.
  exists (Math_round y). split; [reflexivity |].
  unfold Math_round.
  pose proof (Qfloor_le (y + (1 # 2))) as Hlo.
  pose proof (Qlt_floor (y + (1 # 2))) as Hhi.
  unfold Qdiv in Hk. change (/ 10)%Q with (1 # 10)%Q in Hk.
  assert (K1 : (inject_Z (k - 8) < inject_Z (Qfloor (y + (1 # 2)) + 1))%Q).
  { eapply Qle_lt_trans; [| exact Hhi].
    unfold Z.sub. rewrite inject_Z_plus. change (inject_Z (- (8))) with (- 8)%Q. lra. }
  assert (K2 : (inject_Z (Qfloor (y + (1 # 2))) < inject_Z (k + 9))%Q).
  { eapply Qle_lt_trans; [exact Hlo |].
    rewrite inject_Z_plus. change (inject_Z 9) with 9%Q. lra. }
  rewrite <- Zlt_Qlt in K1, K2. lia.
Qed.

Lemma newTemp_near_one_decimal (T r : Q) :
  (0 <= r)%Q -> (r < 1)%Q -> one_decimal T -> (Qabs T <= 1000000000)%Q ->
  (Qabs (newTemp T r - T) <= 4 # 5)%Q.
Proof.
  intros H0 H1 [k Hk] HT.
  destruct (newTemp_tenths k T r H0 H1 Hk HT) as (m & -> & Hm).
  rewrite Hk.
  assert (Q1 : (inject_Z k - 8 <= inject_Z m)%Q).
  { assert (K : (k + - (8) <= m)%Z) by lia.
    rewrite Zle_Qle, inject_Z_plus in K. exact K. }
  assert (Q2 : (inject_Z m <= inject_Z k + 8)%Q).
  { assert (K : (m <= k + 8)%Z) by lia.
    rewrite Zle_Qle, inject_Z_plus in K. exact K. }
  apply Qabs_Qle_condition.
  set (a := inject_Z k) in *. set (b := inject_Z m) in *.
  unfold Qdiv. change (/ 10)%Q with (1 # 10)%Q. split; lra.
Qed.

(** What one tick does to a segment [s] of tape [t]. *)
Lemma tickSegment_spec (e : Env) (t : Tape.t) (s : Segment.t) (n : nat) :
  valid_env e ->
  if Segment.enabled s && Tape.enabled t
  then fst (tickSegment t s e n)
       = Segment.with_temperature s (Segment.temperature (fst (tickSegment t s e n)))
       /\ one_decimal (Segment.temperature (fst (tickSegment t s e n)))
       /\ (forall k : Z,
             (Segment.temperature s == inject_Z k / 10)%Q ->
             (Qabs (Segment.temperature s) <= 1000000000)%Q ->
             exists m : Z,
               Segment.temperature (fst (tickSegment t s e n)) = (inject_Z m / 10)%Q
               /\ (k - 8 <= m <= k + 8)%Z)
       /\ (one_decimal (Segment.temperature s) ->
           (Qabs (Segment.temperature s) <= 1000000000)%Q ->
           (Qabs (Segment.temperature (fst (tickSegment t s e n))
                  - Segment.temperature s) <= 4 # 5)%Q)
  else fst (tickSegment t s e n) = s.
Proof.
  intros He. unfold tickSegment.
  destruct (Segment.enabled s), (Tape.enabled t);
    cbn [negb orb andb]; try reflexivity.
  unfold bind, Math_random, ret.
  cbn [fst Segment.temperature Segment.with_temperature].
  destruct (He n) as [H0 H1].
  split; [destruct s; reflexivity |].
  split; [apply newTemp_one_decimal |].
  split.
  - intros k Hk HT. apply newTemp_tenths; assumption.
  - intros Hd HT. apply newTemp_near_one_decimal; assumption.
Qed.

(** C2, as the code has it: one tick gives every segment that is enabled
    on an enabled tape a new temperature that is a whole number of tenths,
    and nothing else of the segment changes. When the old temperature is
    [k] tenths and at most [10 ^ 9] degrees in magnitude, the new one is
    [m] tenths with [m] within 8 of [k]: it differs by at most 0.8, the
    drift of at most 0.75 and the rounding to one decimal. A segment that
    is disabled or on a disabled tape is returned as it was, and so is
    every field of a tape other than its segments. *)
Theorem tick_moves_enabled_segments_only :
  forall (e : Env) (prev : list Tape.t) (n : nat),
    valid_env e ->
    Forall2
      (fun t t' =>
         t' = Tape.with_segments t (Tape.segments t')
         /\ Forall2
              (fun s s' =>
                 if Segment.enabled s && Tape.enabled t
                 then s' = Segment.with_temperature s (Segment.temperature s')
                      /\ one_decimal (Segment.temperature s')
                      /\ (forall k : Z,
                            (Segment.temperature s == inject_Z k / 10)%Q ->
                            (Qabs (Segment.temperature s) <= 1000000000)%Q ->
                            exists m : Z,
                              Segment.temperature s' = (inject_Z m / 10)%Q
                              /\ (k - 8 <= m <= k + 8)%Z)
                      /\ (one_decimal (Segment.temperature s) ->
                          (Qabs (Segment.temperature s) <= 1000000000)%Q ->
                          (Qabs (Segment.temperature s' - Segment.temperature s)
                           <= 4 # 5)%Q)
                 else s' = s)
              (Tape.segments t) (Tape.segments t'))
      prev (run (tick prev) e n).
Proof.
  intros e prev n He. unfold run, tick.
  apply mapM_Forall2. intros t k. unfold tickTape, bind.
  pose proof (mapM_Forall2 (tickSegment t)
                (fun s s' =>
                   if Segment.enabled s && Tape.enabled t
                   then s' = Segment.with_temperature s (Segment.temperature s')
                        /\ one_decimal (Segment.temperature s')
                        /\ (forall k : Z,
                              (Segment.temperature s == inject_Z k / 10)%Q ->
                              (Qabs (Segment.temperature s) <= 1000000000)%Q ->
                              exists m : Z,
                                Segment.temperature s' = (inject_Z m / 10)%Q
                                /\ (k - 8 <= m <= k + 8)%Z)
                        /\ (one_decimal (Segment.temperature s) ->
                            (Qabs (Segment.temperature s) <= 1000000000)%Q ->
                            (Qabs (Segment.temperature s' - Segment.temperature s)
                             <= 4 # 5)%Q)
                   else s' = s)
                e (fun s j => tickSegment_spec e t s j He) (Tape.segments t) k) as H.
  destruct (mapM (tickSegment t) (Tape.segments t) e k) as [segs k1].
  cbn [fst Tape.segments Tape.with_segments] in *. split; [reflexivity | exact H].
Qed.

Lemma Forall2_Forall_l {A B : Type} (P : A -> Prop) (R R' : A -> B -> Prop)
  (l : list A) (l' : list B) :
  Forall P l -> (forall a b, P a -> R a b -> R' a b) ->
  Forall2 R l l' -> Forall2 R' l l'.
Proof.
  intros HP HR H. induction H as [| a b l l' Hab _ IH]; constructor.
  - apply HR; [exact (Forall_inv HP) | exact Hab].
  - apply IH. exact (Forall_inv_tail HP).
Qed.

Lemma valid_env_zero : valid_env env_zero.
Proof. intros n. split; [discriminate | reflexivity]. Qed.

Lemma valid_env_top : valid_env env_top.
Proof. intros n. split; [discriminate | reflexivity]. Qed.

(** C2, on the tapes generated at start when every draw was 0, so that
    every segment reads -5.0, and a tick in which every draw is
    [1 - 2 ^ -53]: the ten segments in effect move to -4.2, which is within
    0.8, and the two disabled ones stay. *)
Lemma tick_moves_enabled_segments_only_initial :
  valid_env env_top
  /\ map Segment.temperature
         (allSegments (run (tick (run createInitialTapes env_zero 0)) env_top 0))
     <> map Segment.temperature (allSegments (run createInitialTapes env_zero 0))
  /\ Forall2
       (fun t t' =>
          Forall2
            (fun s s' =>
               if Segment.enabled s && Tape.enabled t
               then (Qabs (Segment.temperature s' - Segment.temperature s) <= 4 # 5)%Q
               else s' = s)
            (Tape.segments t) (Tape.segments t'))
       (run createInitialTapes env_zero 0)
       (run (tick (run createInitialTapes env_zero 0)) env_top 0).
Proof.
  split; [exact valid_env_top |].
  split; [vm_compute; discriminate |].
  pose proof (tick_moves_enabled_segments_only env_top
                (run createInitialTapes env_zero 0) 0 valid_env_top) as H.
  assert (Hs : Forall (fun t => Forall (fun s =>
                 one_decimal (Segment.temperature s)
                 /\ (Qabs (Segment.temperature s) <= 1000000000)%Q)
                 (Tape.segments t)) (run createInitialTapes env_zero 0)).
  { set (l := run createInitialTapes env_zero 0). vm_compute in l. subst l.
    repeat (first [apply Forall_nil | apply Forall_cons]);
      (split; [exists (-50)%Z; reflexivity | vm_compute; discriminate]). }
  eapply Forall2_Forall_l; [exact Hs | | exact H].
  intros t t' Ht [_ Hss]. cbv beta in Ht.
  eapply Forall2_Forall_l; [exact Ht | | exact Hss].
  intros s s' [Hd Hm] Hr. cbv beta in Hr.
  destruct (Segment.enabled s && Tape.enabled t); [| exact Hr].
  destruct Hr as (_ & _ & _ & Hq). exact (Hq Hd Hm).
Defined.

(** C2 with a bound of 0.75 fails in a state the program reaches. When
    every draw at start was 0, every segment reads -5.0. In a tick that
    draws [1 - 2 ^ -53] the drift is rounded to 0.75 less [2 ^ -52], the
    sum to -4.25 and the product to -42.5, which [Math.round] takes to
    -42: the ten segments in effect read -4.2, which is 0.8 away. In the
    same way 0.7 with a draw of 0 goes to -0.1. *)
Lemma tick_moves_more_than_three_quarters :
  valid_env env_zero /\ valid_env env_top
  /\ reachable (run createInitialTapes env_zero 0)
  /\ map Segment.temperature (effectiveSegments (run createInitialTapes env_zero 0))
     = repeat (-50 # 10)%Q 10
  /\ map Segment.temperature
         (effectiveSegments (run (tick (run createInitialTapes env_zero 0)) env_top 0))
     = repeat (-42 # 10)%Q 10
  /\ ~ (Qabs ((-42 # 10) - (-50 # 10)) <= 3 # 4)%Q
  /\ newTemp (7 # 10) 0 = (-1 # 10)%Q
  /\ ~ (Qabs ((-1 # 10) - (7 # 10)) <= 3 # 4)%Q.
Proof.
  split; [exact valid_env_zero |]. split; [exact valid_env_top |].
  split; [apply reach_init; exact valid_env_zero |].
  split; [vm_compute; reflexivity |].
  split; [vm_compute; reflexivity |].
  split; [intros H; vm_compute in H; apply H; reflexivity |].
  split; [vm_compute; reflexivity |].
  intros H. vm_compute in H. apply H. reflexivity.
Qed.

(** ** Migration of persisted settings *)

Lemma createSensors_length (segId : nat) (count : Z) (e : Env) (n : nat) :
  List.length (fst (createSensors segId count e n)) = Z.to_nat count.
Proof.
  unfold createSensors, Array_from. rewrite mapM_length. apply length_seq.
Qed.

Lemma sensorCount_range (r : Q) :
  (0 <= r)%Q -> (r < 1)%Q ->
  (2 <= 2 + Math_floor (r * 3)%Q <= 4)%Z.
Proof.
  intros H0 H1. unfold Math_floor.
  assert (L : (0 <= Qfloor (r * 3))%Z).
  { rewrite <- (Qfloor_Z 0). apply Qfloor_resp_le. change (inject_Z 0) with 0%Q. lra. }
  assert (U : (Qfloor (r * 3) < 3)%Z).
  { rewrite Zlt_Qlt. eapply Qle_lt_trans; [apply Qfloor_le |].
    change (inject_Z 3) with 3%Q. lra. }
  lia.
Qed.

Lemma with_sensors_same (s : RawSegment.t) (l : list Sensor.t) :
  RawSegment.sensors s = val l -> RawSegment.with_sensors s (val l) = s.
Proof. destruct s; simpl; intros ->; reflexivity. Qed.

(** [migrateSegments] keeps a segment that has a sensors array and gives
    every other segment two to four generated sensors. *)
Lemma migrateSegments_spec (e : Env) (segs : list RawSegment.t) (n : nat) :
  valid_env e ->
  Forall2
    (fun s s' =>
       exists l,
         s' = RawSegment.with_sensors s (val l)
         /\ match RawSegment.sensors s with
            | val l0 => l = l0
            | _ => 2 <= List.length l <= 4
            end)
    segs (fst (migrateSegments segs e n)).
Proof.
  intros He. unfold migrateSegments. apply mapM_Forall2. intros s k.
  assert (G : forall k',
             exists l,
               fst ((r <- Math_random ;;
                     ss <- createSensors (RawSegment.id s)
                             (2 + Math_floor (r * 3)%Q)%Z ;;
                     ret (RawSegment.with_sensors s (val ss))) e k')
               = RawSegment.with_sensors s (val l)
               /\ 2 <= List.length l <= 4).
  { intros k'. unfold bind, Math_random.
    pose proof (createSensors_length (RawSegment.id s)
                  (2 + Math_floor (random e k' * 3)%Q)%Z e (S k')) as Hlen.
    destruct (createSensors _ _ e (S k')) as [ss k1]. cbn [fst] in Hlen |- *.
    exists ss. split; [reflexivity |].
    destruct (He k') as [H0 H1]. pose proof (sensorCount_range _ H0 H1) as Hc.
    rewrite Hlen. lia. }
  destruct (RawSegment.sensors s) as [| | l0] eqn:E.
  - apply G.
  - apply G.
  - exists l0. simpl. split; [| reflexivity].
    symmetry. apply with_sensors_same. exact E.
Qed.

Lemma migrateSegments_fixed (e : Env) (segs : list RawSegment.t) (n : nat) :
  Forall has_sensors segs -> migrateSegments segs e n = (segs, n).
Proof.
  intros H. unfold migrateSegments. apply mapM_ret_on.
  intros s Hs k. rewrite Forall_forall in H. destruct (H s Hs) as [l ->].
  reflexivity.
Qed.

Lemma migrateSegments_has_sensors (e : Env) (segs : list RawSegment.t) (n : nat) :
  Forall has_sensors (fst (migrateSegments segs e n)).
Proof.
  unfold migrateSegments. apply mapM_Forall. intros s k _.
  destruct (RawSegment.sensors s) as [| | l0] eqn:E.
  - unfold bind, Math_random. destruct (createSensors _ _ e (S k)) as [ss k1].
    simpl. exists ss. reflexivity.
  - unfold bind, Math_random. destruct (createSensors _ _ e (S k)) as [ss k1].
    simpl. exists ss. reflexivity.
  - simpl. exists l0. exact E.
Qed.

Lemma migrateTapes_fixed (e : Env) (ts : list RawTape.t) (n : nat) :
  Forall normal_tape ts -> migrateTapes ts e n = (ts, n).
Proof.
  intros H. unfold migrateTapes. apply mapM_ret_on.
  intros t Ht k. rewrite Forall_forall in H.
  destruct (H t Ht) as ([c Hc] & [d Hd] & [l Hl] & [w Hw] & Hen & segs & Hsegs & Hall).
  unfold bind. rewrite Hsegs. simpl.
  rewrite (migrateSegments_fixed e segs k Hall). unfold ret.
  destruct t as [i nm co cn le wi sg en]. simpl in *. subst.
  destruct en; [contradiction | reflexivity | reflexivity].
Qed.

Lemma migrateTapes_normal (e : Env) (ts : list RawTape.t) (n : nat) :
  Forall normal_tape (fst (migrateTapes ts e n)).
Proof.
  unfold migrateTapes. apply mapM_Forall. intros t k _. unfold bind.
  pose proof (migrateSegments_has_sensors e (arrOr (RawTape.segments t)) k) as Hs.
  destruct (migrateSegments (arrOr (RawTape.segments t)) e k) as [segs k1].
  simpl in *. unfold normal_tape. simpl.
  repeat split; try (eexists; reflexivity).
  - destruct (RawTape.enabled t); discriminate.
  - exists segs. split; [reflexivity | exact Hs].
Qed.

(** On a settled blob [migrate] returns the blob and draws nothing. *)
Lemma migrate_fixed (e : Env) (b : Blob.t) (n : nat) :
  settled b -> migrate b e n = (b, n).
Proof.
  intros [Hc Hn]. unfold migrate, bind. rewrite Hc. unfold ret at 1.
  destruct (Blob.tapes b) as [| | ts] eqn:E; simpl; try reflexivity.
  rewrite (migrateTapes_fixed e ts n Hn). unfold ret.
  destruct b; simpl in *. subst. reflexivity.
Qed.

(** Whatever the blob, what [migrate] returns is settled. *)
Lemma migrate_settles (e : Env) (b : Blob.t) (n : nat) :
  settled (fst (migrate b e n)).
Proof.
  unfold migrate, bind.
  destruct (truthy (Blob.segments b) && negb (truthy (Blob.tapes b))) eqn:C.
  - destruct (migrateSegments (arrOr (Blob.segments b)) e n) as [segs n1].
    unfold ret at 1. simpl.
    pose proof (migrateTapes_normal e
      [RawTape.mk 1 "Лента 1" (val "") (val "")
         (val (strOr (Blob.tapeLength b) "24")) (val (strOr (Blob.tapeWidth b) "50"))
         (val segs) (val true)] n1) as Hn.
    destruct (migrateTapes _ e n1) as [ts n2]. simpl in *.
    split; [reflexivity | exact Hn].
  - unfold ret at 1.
    destruct (Blob.tapes b) as [| | ts] eqn:E; simpl.
    + split; [rewrite E; exact C | rewrite E; exact I].
    + split; [rewrite E; exact C | rewrite E; exact I].
    + pose proof (migrateTapes_normal e ts n) as Hn.
      destruct (migrateTapes ts e n) as [ts' n1]. simpl in *.
      split; [apply andb_false_r | exact Hn].
Qed.

Lemma mapM_no_draws {A B : Type} (f : A -> Gen B) (e : Env) (l : list A) (n : nat) :
  (forall a, In a l -> forall k, snd (f a e k) = k) -> snd (mapM f l e n) = n.
Proof.
  revert n; induction l as [| a l IH]; simpl; intros n H; [reflexivity |].
  unfold bind.
  pose proof (H a (or_introl eq_refl) n) as Ha.
  destruct (f a e n) as [b n1]. simpl in Ha. subst n1.
  specialize (IH n (fun c Hc => H c (or_intror Hc))).
  destruct (mapM f l e n) as [bs n2]. simpl in *. exact IH.
Qed.

Lemma migrate_current_no_draws (e : Env) (b : Blob.t) (n : nat) :
  current_shape b -> snd (migrate b e n) = n.
Proof.
  intros (ts & Hts & Hall). unfold migrate, bind. rewrite Hts. simpl.
  rewrite andb_false_r. unfold ret at 1. rewrite Hts. simpl.
  pose proof (mapM_no_draws
    (fun t =>
       segs <- migrateSegments (arrOr (RawTape.segments t)) ;;
       ret (RawTape.mk (RawTape.id t) (RawTape.name t)
              (val (nullish (RawTape.coordinates t) ""))
              (val (nullish (RawTape.contractNumber t) ""))
              (val (nullish (RawTape.length t) "24"))
              (val (nullish (RawTape.width t) "50"))
              (val segs)
              (match RawTape.enabled t with
               | undefined => val true
               | x => x
               end))) e ts n) as H.
  fold (migrateTapes ts) in H.
  destruct (migrateTapes ts e n) as [ts' n1]. simpl in *.
  apply H. intros t Ht k. rewrite Forall_forall in Hall.
  pose proof (Hall t Ht) as Hs. unfold bind.
  rewrite (migrateSegments_fixed e _ k Hs). reflexivity.
Qed.

(** C8: on a blob of the current shape the migration is idempotent:
    migrating the migrated blob returns it as it is, with the random
    numbers that follow the first migration or with any others, and draws
    no random number; the first migration draws none either. *)
Theorem migrate_idempotent :
  forall (e : Env) (S : Blob.t) (n : nat),
    current_shape S ->
    migrate (run (migrate S) e n) e (draws (migrate S) e n)
    = (run (migrate S) e n, draws (migrate S) e n)
    /\ (forall e' n', migrate (run (migrate S) e n) e' n' = (run (migrate S) e n, n'))
    /\ draws (migrate S) e n = n.
Proof.
  intros e S n Hc.
  pose proof (migrate_settles e S n) as Hs.
  split; [| split].
  - apply migrate_fixed. exact Hs.
  - intros e' n'. apply migrate_fixed. exact Hs.
  - apply migrate_current_no_draws. exact Hc.
Qed.

(** C8, on a blob of the current shape whose tape lacks [coordinates]:
    the first migration fills them in, the second changes nothing. *)
Lemma migrate_idempotent_current_blob :
  current_shape current_blob
  /\ run (migrate current_blob) env_half 0 <> current_blob
  /\ run (migrate (run (migrate current_blob) env_half 0)) env_half 0
     = run (migrate current_blob) env_half 0.
Proof.
  assert (H : current_shape current_blob).
  { eexists. split; [reflexivity |].
    repeat constructor. eexists. reflexivity. }
  split; [exact H |]. split; [vm_compute; discriminate |].
  unfold run at 1.
  rewrite (proj1 (proj2 (migrate_idempotent env_half current_blob 0 H)) env_half 0).
  reflexivity.
Defined.

(** C7: a blob with a top-level [segments] array and no [tapes] key, none
    of whose segments carries an empty [sensors] array, is loaded as a blob
    whose [tapes] hold exactly one tape: id 1, empty coordinates and
    contract number, length and width from [tapeLength] and [tapeWidth] or
    "24" and "50" when these are absent or empty, enabled. Its segments
    are the legacy segments in order, each with a non-empty [sensors]
    array: its own when it had one, two to four generated sensors
    otherwise; nothing else of a segment changes. The [segments] key is
    gone from the result. *)
Theorem legacy_blob_migrates_to_one_tape :
  forall (e : Env) (b : Blob.t) (n : nat) (segs : list RawSegment.t),
    valid_env e ->
    Blob.segments b = val segs ->
    Blob.tapes b = undefined ->
    Forall (fun s => RawSegment.sensors s <> val []) segs ->
    exists segs' : list RawSegment.t,
      run (loadSettings (Some b)) e n
      = Some (Blob.delete_segments
                (Blob.with_tapes b
                   (val [ RawTape.mk 1 "Лента 1" (val "") (val "")
                            (val (strOr (Blob.tapeLength b) "24"))
                            (val (strOr (Blob.tapeWidth b) "50"))
                            (val segs')
                            (val true) ])))
      /\ Forall2
           (fun s s' =>
              exists l,
                s' = RawSegment.with_sensors s (val l)
                /\ l <> []
                /\ match RawSegment.sensors s with
                   | val l0 => l = l0
                   | _ => 2 <= List.length l <= 4
                   end)
           segs segs'.
Proof.
  intros e b n segs He Hsegs Htapes Hne.
  unfold run, loadSettings, bind, migrate, bind.
  rewrite Hsegs, Htapes. simpl.
  pose proof (migrateSegments_spec e segs n He) as Hspec.
  pose proof (migrateSegments_has_sensors e segs n) as Hhas.
  destruct (migrateSegments segs e n) as [segs' n1]. simpl in Hspec, Hhas.
  unfold ret at 1. simpl.
  rewrite migrateTapes_fixed.
  2:{ constructor; [| constructor]. unfold normal_tape. simpl.
      repeat split; try (eexists; reflexivity); try discriminate.
      exists segs'. split; [reflexivity | exact Hhas]. }
  exists segs'. split; [reflexivity |].
  clear Hhas Hsegs. induction Hspec as [| s s' segs segs' (l & Hl & Hm) _ IH];
    [constructor |].
  inversion Hne as [| ? ? Hs Hrest]; subst.
  constructor; [| apply IH; exact Hrest].
  exists l. split; [reflexivity |]. split; [| exact Hm].
  destruct (RawSegment.sensors s) as [| | l0].
  - intros ->. simpl in Hm. lia.
  - intros ->. simpl in Hm. lia.
  - subst l0. intros ->. apply Hs. reflexivity.
Qed.

(** C7, on a blob with two segments without sensors, a tape length of
    "30" and no tape width. *)
Lemma legacy_blob_migrates_to_one_tape_example :
  (valid_env env_half
   /\ Blob.tapes legacy_blob = undefined
   /\ Forall (fun s => RawSegment.sensors s <> val [])
             (arrOr (Blob.segments legacy_blob)))
  /\ exists segs' : list RawSegment.t,
       run (loadSettings (Some legacy_blob)) env_half 0
       = Some (Blob.delete_segments
                 (Blob.with_tapes legacy_blob
                    (val [ RawTape.mk 1 "Лента 1" (val "") (val "")
                             (val "30") (val "50") (val segs') (val true) ])))
       /\ map RawSegment.id segs' = [1; 2]
       /\ Forall (fun s' => exists l, RawSegment.sensors s' = val l /\ l <> []) segs'.
Proof.
  assert (Hne : Forall (fun s => RawSegment.sensors s <> val [])
                       (arrOr (Blob.segments legacy_blob))).
  { simpl. repeat constructor; discriminate. }
  split; [split; [exact valid_env_half | split; [reflexivity | exact Hne]] |].
  destruct (legacy_blob_migrates_to_one_tape env_half legacy_blob 0 _
              valid_env_half eq_refl eq_refl Hne) as (segs' & Heq & Hall).
  exists segs'. split; [exact Heq |].
  inversion Hall as [| s1 s1' r1 r1' (l1 & -> & N1 & _) Hall1]; subst.
  inversion Hall1 as [| s2 s2' r2 r2' (l2 & -> & N2 & _) Hall2]; subst.
  inversion Hall2; subst.
  split; [reflexivity |].
  repeat constructor; eexists; (split; [reflexivity | assumption]).
Defined.

(** * Further properties of the code *)

(** ** Generated sensors, segments and tapes *)

Lemma mapM_draws {A B : Type} (f : A -> Gen B) (e : Env) (c : nat) (l : list A) :
  (forall a k, In a l -> snd (f a e k) = k + c) ->
  forall n, snd (mapM f l e n) = n + c * List.length l.
Proof.
  induction l as [| a l IH]; simpl; intros H n; [lia |].
  unfold bind.
  pose proof (H a n (or_introl eq_refl)) as Ha.
  destruct (f a e n) as [b n1]. simpl in Ha. subst n1.
  specialize (IH (fun x k Hx => H x k (or_intror Hx)) (n + c)).
  destruct (mapM f l e (n + c)) as [bs n2]. simpl in *. lia.
Qed.

Lemma floor_scaled_range (r : Q) (m : Z) :
  (0 < m)%Z -> (0 <= r)%Q -> (r < 1)%Q ->
  (0 <= Math_floor (r * inject_Z m) < m)%Z.
Proof.
  intros Hm H0 H1. unfold Math_floor.
  assert (Hq : (0 < inject_Z m)%Q) by (rewrite Zlt_Qlt in Hm; exact Hm).
  split.
  - rewrite <- (Qfloor_Z 0). apply Qfloor_resp_le. change (inject_Z 0) with 0%Q.
    apply Qmult_le_0_compat; [exact H0 | apply Qlt_le_weak; exact Hq].
  - rewrite Zlt_Qlt. eapply Qle_lt_trans; [apply Qfloor_le |].
    rewrite <- (Qmult_1_l (inject_Z m)) at 2.
    apply Qmult_lt_compat_r; assumption.
Qed.

Lemma hex_table :
  forallb (fun k => is_hex_pair (padStart 2 (toUpperCase (toString16 (Z.of_nat k)))))
          (seq 0 256) = true.
Proof. vm_compute. reflexivity. Qed.

Lemma hex_pair_of_draw (r : Q) :
  (0 <= r)%Q -> (r < 1)%Q ->
  is_hex_pair (padStart 2 (toUpperCase (toString16 (Math_floor (r * 256)%Q)))) = true.
Proof.
  intros H0 H1.
  pose proof (floor_scaled_range r 256 eq_refl H0 H1) as Hv.
  change (inject_Z 256) with 256%Q in Hv.
  pose proof hex_table as T. rewrite forallb_forall in T.
  specialize (T (Z.to_nat (Math_floor (r * 256)%Q))).
  rewrite Z2Nat.id in T by lia. apply T. apply in_seq. lia.
Qed.

Lemma hex_pair_shape (h : string) :
  is_hex_pair h = true ->
  exists a b, h = String a (String b EmptyString)
              /\ isHexUpper a = true /\ isHexUpper b = true.
Proof.
  unfold is_hex_pair. intros H. apply andb_true_iff in H. destruct H as [L F].
  destruct h as [| a [| b [| c h]]]; simpl in L; try discriminate L.
  simpl in F. apply andb_true_iff in F. destruct F as [Fa F].
  apply andb_true_iff in F. destruct F as [Fb _].
  exists a, b. repeat split; assumption.
Qed.

Lemma generateSerial_spec (e : Env) (n : nat) :
  valid_env e ->
  is_serial (fst (generateSerial e n)) = true /\ snd (generateSerial e n) = n + 6.
Proof.
  intros He. unfold generateSerial, hex, bind, Math_random, ret.
  cbv beta iota zeta delta [fst snd].
  split; [| lia].
  destruct (hex_pair_shape _ (hex_pair_of_draw _ (proj1 (He n)) (proj2 (He n))))
    as (a1 & b1 & -> & A1 & B1).
  destruct (hex_pair_shape _ (hex_pair_of_draw _ (proj1 (He (S n))) (proj2 (He (S n)))))
    as (a2 & b2 & -> & A2 & B2).
  destruct (hex_pair_shape _ (hex_pair_of_draw _ (proj1 (He (S (S n))))
                                (proj2 (He (S (S n))))))
    as (a3 & b3 & -> & A3 & B3).
  destruct (hex_pair_shape _ (hex_pair_of_draw _ (proj1 (He (S (S (S n)))))
                                (proj2 (He (S (S (S n)))))))
    as (a4 & b4 & -> & A4 & B4).
  destruct (hex_pair_shape _ (hex_pair_of_draw _ (proj1 (He (S (S (S (S n))))))
                                (proj2 (He (S (S (S (S n))))))))
    as (a5 & b5 & -> & A5 & B5).
  destruct (hex_pair_shape _ (hex_pair_of_draw _ (proj1 (He (S (S (S (S (S n)))))))
                                (proj2 (He (S (S (S (S (S n)))))))))
    as (a6 & b6 & -> & A6 & B6).
  simpl. rewrite A1, B1, A2, B2, A3, B3, A4, B4, A5, B5, A6, B6. reflexivity.
Qed.

Lemma createSensor_step (e : Env) (segId j k : nat) :
  valid_env e ->
  let r := (ser <- generateSerial ;;
            rt <- Math_random ;;
            rs <- Math_random ;;
            now <- timeString ;;
            ret (Sensor.mk
                   ("DS18B20-" ++ padStart 2 (String_ segId)
                      ++ padStart 2 (String_ (j + 1)))%string
                   ser
                   (inject_Z (-5 + Math_floor (rt * 15)%Q))
                   (if Qgtb rs (9 # 10)%Q then offline else online)
                   now)) e k in
  sensor_ok (fst r) /\ snd r = k + 8.
Proof.
  intros He. cbv zeta. unfold bind.
  destruct (generateSerial_spec e k He) as [Hser Hk].
  destruct (generateSerial e k) as [ser k1]. simpl in Hser, Hk. subst k1.
  unfold Math_random, timeString, ret. simpl.
  split; [| lia]. unfold sensor_ok. simpl. repeat split.
  - destruct (He (k + 6)) as [H0 H1].
    pose proof (floor_scaled_range _ 15 eq_refl H0 H1) as Hr.
    change (inject_Z 15) with 15%Q in Hr.
    exists (-5 + Math_floor (random e (k + 6) * 15)%Q)%Z. split; [lia | reflexivity].
  - destruct (Qgtb _ _); discriminate.
  - exact Hser.
Qed.

(** X1 (generateSerial, createSensors): with draws in [0, 1),
    [createSensors segId count] returns [count] sensors (none when [count]
    is negative), numbered from 01 in their ids. Each reads a whole number
    of degrees from -5 to 9, is online or offline (never in error), and has
    a serial of "28-" followed by twelve upper-case hexadecimal digits.
    Eight random numbers are drawn per sensor. *)
Theorem createSensors_makes_valid_sensors :
  forall (e : Env) (segId : nat) (count : Z) (n : nat),
    valid_env e ->
    List.length (run (createSensors segId count) e n) = Z.to_nat count
    /\ Forall sensor_ok (run (createSensors segId count) e n)
    /\ map Sensor.id (run (createSensors segId count) e n)
       = map (fun j => ("DS18B20-" ++ padStart 2 (String_ segId)
                          ++ padStart 2 (String_ (j + 1)))%string)
             (seq 0 (Z.to_nat count))
    /\ draws (createSensors segId count) e n = n + 8 * Z.to_nat count.
Proof.
  intros e segId count n He. unfold run, draws.
  split; [apply createSensors_length |].
  unfold createSensors, Array_from. split; [| split].
  - apply mapM_Forall. intros j k _.
    exact (proj1 (createSensor_step e segId j k He)).
  - apply mapM_map_fst. intros j e' k. unfold bind.
    destruct (generateSerial e' k) as [ser k1]. reflexivity.
  - rewrite mapM_draws with (c := 8).
    + rewrite length_seq. reflexivity.
    + intros j k _. exact (proj2 (createSensor_step e segId j k He)).
Qed.

(** X1, with every draw one half: three sensors for segment 7. *)
Lemma createSensors_makes_valid_sensors_example :
  valid_env env_half
  /\ map Sensor.id (run (createSensors 7 3) env_half 0)
     = ["DS18B20-0701"; "DS18B20-0702"; "DS18B20-0703"]
  /\ Forall sensor_ok (run (createSensors 7 3) env_half 0).
Proof.
  split; [exact valid_env_half |].
  split; [vm_compute; reflexivity |].
  exact (proj1 (proj2 (createSensors_makes_valid_sensors env_half 7 3 0 valid_env_half))).
Defined.

Lemma sumQ_range (l : list Q) (acc : Q) :
  Forall (fun x => (-5 <= x)%Q /\ (x <= 9)%Q) l ->
  (acc - 5 * inject_Z (Z.of_nat (List.length l)) <= fold_left Qplus l acc)%Q
  /\ (fold_left Qplus l acc <= acc + 9 * inject_Z (Z.of_nat (List.length l)))%Q.
Proof.
  revert acc; induction l as [| x l IH]; intros acc H.
  - simpl. change (inject_Z 0) with 0%Q. split; lra.
  - inversion H as [| ? ? [Hx1 Hx2] Hl]; subst.
    specialize (IH (acc + x)%Q Hl).
    cbn [fold_left List.length]. rewrite Nat2Z.inj_succ. unfold Z.succ.
    rewrite inject_Z_plus. change (inject_Z 1) with 1%Q.
    destruct IH as [IH1 IH2]. split; lra.
Qed.

Lemma rounded_mean_range (sum : Q) (len : nat) :
  0 < len ->
  (- 5 * inject_Z (Z.of_nat len) <= sum)%Q ->
  (sum <= 9 * inject_Z (Z.of_nat len))%Q ->
  let t := (inject_Z (Math_round (sum / inject_Z (Z.of_nat len) * 10)) / 10)%Q in
  (-5 <= t)%Q /\ (t <= 9)%Q.
Proof.
  intros Hlen H1 H2.
  assert (Hpos : (0 < inject_Z (Z.of_nat len))%Q).
  { change 0%Q with (inject_Z 0). rewrite <- Zlt_Qlt. lia. }
  assert (A1 : (-5 <= sum / inject_Z (Z.of_nat len))%Q).
  { apply Qle_shift_div_l; assumption. }
  assert (A2 : (sum / inject_Z (Z.of_nat len) <= 9)%Q).
  { apply Qle_shift_div_r; assumption. }
  cbv zeta. unfold Math_round.
  generalize dependent (sum / inject_Z (Z.of_nat len))%Q. intros x A1 A2.
  assert (K1 : (-50 <= Qfloor (x * 10 + (1 # 2)))%Z).
  { rewrite <- (Qfloor_Z (-50)). apply Qfloor_resp_le.
    change (inject_Z (-50)) with (-50)%Q. lra. }
  assert (K2 : (Qfloor (x * 10 + (1 # 2)) <= 90)%Z).
  { change 90%Z with (Qfloor (90 + (1 # 2))). apply Qfloor_resp_le. lra. }
  rewrite Zle_Qle in K1, K2.
  change (inject_Z (-50)) with (-50)%Q in K1. change (inject_Z 90) with 90%Q in K2.
  unfold Qdiv. change (/ 10)%Q with (1 # 10)%Q. split; lra.
Qed.

Lemma createSensors_facts (e : Env) (segId : nat) (count : Z) (n : nat) :
  valid_env e ->
  List.length (fst (createSensors segId count e n)) = Z.to_nat count
  /\ Forall sensor_ok (fst (createSensors segId count e n))
  /\ snd (createSensors segId count e n) = n + 8 * Z.to_nat count.
Proof.
  intros He. split; [apply createSensors_length |].
  unfold createSensors, Array_from. split.
  - apply mapM_Forall. intros j k _.
    exact (proj1 (createSensor_step e segId j k He)).
  - rewrite mapM_draws with (c := 8).
    + rewrite length_seq. reflexivity.
    + intros j k _. exact (proj2 (createSensor_step e segId j k He)).
Qed.

Lemma sensor_ok_range (l : list Sensor.t) :
  Forall sensor_ok l ->
  Forall (fun x => (-5 <= x)%Q /\ (x <= 9)%Q) (map Sensor.temperature l).
Proof.
  intros H. apply Forall_forall. intros x Hx. apply in_map_iff in Hx.
  destruct Hx as (s & <- & Hs). rewrite Forall_forall in H.
  destruct (H s Hs) as ((k & Hk & ->) & _).
  split.
  - change (-5)%Q with (inject_Z (-5)). rewrite <- Zle_Qle. lia.
  - change 9%Q with (inject_Z 9). rewrite <- Zle_Qle. lia.
Qed.

Lemma createSegment_facts (e : Env) (id : nat) (enabled : bool) (n : nat) :
  valid_env e ->
  let s := fst (createSegment id enabled e n) in
  Segment.id s = id
  /\ Segment.enabled s = enabled
  /\ Segment.name s = ("Сегмент " ++ String_ id)%string
  /\ Segment.sensorId s = ("DS18B20-" ++ padStart 3 (String_ id))%string
  /\ Segment.targetTemp s = 5%Z
  /\ (40 <= Segment.power s <= 89)%Z
  /\ sensors_ok s
  /\ Forall sensor_ok (Segment.sensors s)
  /\ one_decimal (Segment.temperature s)
  /\ (-5 <= Segment.temperature s)%Q /\ (Segment.temperature s <= 9)%Q
  /\ (if enabled
      then Segment.status s = normal \/ Segment.status s = warning
      else Segment.status s = off)
  /\ snd (createSegment id enabled e n)
     = n + 2 + 8 * List.length (Segment.sensors s) + (if enabled then 1 else 0).
Proof.
  intros He. cbv zeta. unfold createSegment, bind, Math_random.
  cbv beta iota zeta.
  destruct (He n) as [R0 R1].
  pose proof (sensorCount_range _ R0 R1) as Hc.
  destruct (createSensors_facts e id (2 + Math_floor (random e n * 3)%Q)%Z (S n) He)
    as (Hlen & Hok & Hdr).
  destruct (createSensors id _ e (S n)) as [ss n1]. cbn [fst snd] in Hlen, Hok, Hdr.
  destruct (He n1) as [P0 P1].
  pose proof (floor_scaled_range _ 50 eq_refl P0 P1) as Hp.
  change (inject_Z 50) with 50%Q in Hp.
  assert (Hs : 2 <= List.length ss <= 4) by lia.
  pose proof (sumQ_range _ 0%Q (sensor_ok_range ss Hok)) as [S1 S2].
  rewrite length_map in S1, S2.
  pose proof (rounded_mean_range
                (fold_left Qplus (map Sensor.temperature ss) 0%Q) (List.length ss)
                ltac:(lia) ltac:(lra) ltac:(lra)) as [M1 M2].
  destruct enabled; unfold ret, sensors_ok; cbv beta iota;
    cbn [fst snd Segment.id Segment.enabled Segment.name Segment.sensorId
         Segment.targetTemp Segment.power Segment.sensors Segment.temperature
         Segment.status];
    (repeat split;
     try reflexivity; try exact Hok; try exact M1; try exact M2; try lia;
     try (unfold one_decimal; eexists; reflexivity);
     try (destruct (Qgtb _ _); [right | left]; reflexivity)).
Qed.

Lemma createSegment_segment_ok (e : Env) (id : nat) (enabled : bool) (n : nat) :
  valid_env e -> segment_ok (fst (createSegment id enabled e n)).
Proof.
  intros He.
  destruct (createSegment_facts e id enabled n He)
    as (_ & Hen & _ & _ & Ht & Hp & Hs & Hok & Hd & H1 & H2 & Hst & _).
  unfold segment_ok. rewrite Hen.
  split; [exact Hs |]. split; [exact Hok |]. split; [exact Hp |].
  repeat split; assumption.
Qed.

(** X2 (createSegment): with draws in [0, 1), [createSegment id enabled]
    returns a segment with that id and flag, named after the id, with two
    to four valid sensors, a power from 40 to 89, a target of 5 degrees
    and a temperature that is a multiple of 0.1 between -5 and 9; its
    status is [off] when disabled and [normal] or [warning] (never
    [critical]) when enabled. It draws two random numbers, eight per
    sensor, and one more when enabled. *)
Theorem createSegment_makes_valid_segment :
  forall (e : Env) (id : nat) (enabled : bool) (n : nat),
    valid_env e ->
    Segment.id (run (createSegment id enabled) e n) = id
    /\ Segment.enabled (run (createSegment id enabled) e n) = enabled
    /\ Segment.name (run (createSegment id enabled) e n)
       = ("Сегмент " ++ String_ id)%string
    /\ Segment.sensorId (run (createSegment id enabled) e n)
       = ("DS18B20-" ++ padStart 3 (String_ id))%string
    /\ segment_ok (run (createSegment id enabled) e n)
    /\ draws (createSegment id enabled) e n
       = n + 2
         + 8 * List.length (Segment.sensors (run (createSegment id enabled) e n))
         + (if enabled then 1 else 0).
Proof.
  intros e id enabled n He. unfold run, draws.
  destruct (createSegment_facts e id enabled n He)
    as (Hid & Hen & Hn & Hsi & _ & _ & _ & _ & _ & _ & _ & _ & Hdr).
  split; [exact Hid |]. split; [exact Hen |]. split; [exact Hn |].
  split; [exact Hsi |].
  split; [apply createSegment_segment_ok; exact He | exact Hdr].
Qed.

(** X2, with every draw one half: segment 7, enabled. *)
Lemma createSegment_makes_valid_segment_example :
  valid_env env_half
  /\ Segment.power (run (createSegment 7 true) env_half 0) = 65%Z
  /\ List.length (Segment.sensors (run (createSegment 7 true) env_half 0)) = 3
  /\ segment_ok (run (createSegment 7 true) env_half 0).
Proof.
  split; [exact valid_env_half |].
  split; [vm_compute; reflexivity |].
  split; [vm_compute; reflexivity |].
  exact (proj1 (proj2 (proj2 (proj2 (proj2
           (createSegment_makes_valid_segment env_half 7 true 0 valid_env_half)))))).
Defined.

Lemma length_filter_map {A : Type} (p : A -> bool) (l : list A) :
  List.length (filter p l) = List.length (filter (fun b => b) (map p l)).
Proof.
  induction l as [| a l IH]; simpl; [reflexivity |].
  destruct (p a); simpl; rewrite IH; reflexivity.
Qed.

Lemma count_below (k : Z) (n : nat) :
  List.length (filter (fun i => (Z.of_nat i <? k)%Z) (seq 0 n))
  = Z.to_nat (Z.max 0 (Z.min k (Z.of_nat n))).
Proof.
  induction n as [| n IH]; [simpl; lia |].
  rewrite seq_S, filter_app, length_app, IH. simpl.
  destruct (Z.ltb_spec (Z.of_nat n) k); simpl; lia.
Qed.

Lemma ceil_seven_tenths (n : nat) :
  (0 <= Math_ceil (inject_Z (Z.of_nat n) * (7 # 10))%Q <= Z.of_nat n)%Z.
Proof.
  unfold Math_ceil.
  assert (Hn : (0 <= inject_Z (Z.of_nat n))%Q).
  { change 0%Q with (inject_Z 0). rewrite <- Zle_Qle. lia. }
  split.
  - rewrite <- (Qceiling_Z 0). apply Qceiling_resp_le.
    change (inject_Z 0) with 0%Q. lra.
  - rewrite <- (Qceiling_Z (Z.of_nat n)) at 2. apply Qceiling_resp_le. lra.
Qed.

Lemma map_add_seq (s a n : nat) :
  map (fun k => s + k) (seq a n) = seq (s + a) n.
Proof.
  revert a; induction n as [| n IH]; intros a; simpl; [reflexivity |].
  f_equal. rewrite IH. f_equal. lia.
Qed.

Lemma createTape_segments_ok (e : Env) (id start count n : nat) :
  valid_env e -> Forall segment_ok (Tape.segments (fst (createTape id start count e n))).
Proof.
  intros He. unfold createTape, bind, Array_from.
  pose proof (mapM_Forall
    (fun i => createSegment (start + i)
       (Z.of_nat i <? Math_ceil (inject_Z (Z.of_nat count) * (7 # 10))%Q)%Z)
    segment_ok e (seq 0 count) n
    (fun a k _ => createSegment_segment_ok e _ _ k He)) as Hm.
  destruct (mapM _ (seq 0 count) e n) as [segs n1]. exact Hm.
Qed.

(** X3 (createTape): with draws in [0, 1), [createTape id start count]
    returns an enabled tape with the given id, empty coordinates and
    contract number, length "24" and width "50". It has [count] valid
    segments with the ids [start], [start + 1], ...; the segment at index
    [i] is enabled exactly when [i < ceil (0.7 * count)], so exactly
    [ceil (0.7 * count)] segments, the first ones, are enabled. *)
Theorem createTape_makes_tape :
  forall (e : Env) (id start count n : nat),
    valid_env e ->
    let t := run (createTape id start count) e n in
    Tape.id t = id
    /\ Tape.name t = ("Лента " ++ String_ id)%string
    /\ Tape.coordinates t = "" /\ Tape.contractNumber t = ""
    /\ Tape.length t = "24" /\ Tape.width t = "50" /\ Tape.enabled t = true
    /\ List.length (Tape.segments t) = count
    /\ tapeSegIds t = seq start count
    /\ map Segment.enabled (Tape.segments t)
       = map (fun i => (Z.of_nat i <? Math_ceil (inject_Z (Z.of_nat count) * (7 # 10))%Q)%Z)
             (seq 0 count)
    /\ List.length (filter Segment.enabled (Tape.segments t))
       = Z.to_nat (Math_ceil (inject_Z (Z.of_nat count) * (7 # 10))%Q)
    /\ Forall segment_ok (Tape.segments t).
Proof.
  intros e id start count n He. cbv zeta. unfold run.
  pose proof (createTape_shape id start count e n) as H. cbv zeta in H.
  destruct H as (Hid & Hen & Hids & Hflags & _).
  pose proof (createTape_segments_ok e id start count n He) as Hok.
  assert (Hfields : Tape.name (fst (createTape id start count e n))
                    = ("Лента " ++ String_ id)%string
                    /\ Tape.coordinates (fst (createTape id start count e n)) = ""
                    /\ Tape.contractNumber (fst (createTape id start count e n)) = ""
                    /\ Tape.length (fst (createTape id start count e n)) = "24"
                    /\ Tape.width (fst (createTape id start count e n)) = "50").
  { unfold createTape, bind. destruct (Array_from count _ e n) as [segs n1].
    repeat split. }
  destruct Hfields as (F1 & F2 & F3 & F4 & F5).
  repeat split; try assumption.
  - apply (f_equal (@List.length bool)) in Hflags.
    rewrite !length_map, length_seq in Hflags. exact Hflags.
  - unfold tapeSegIds. rewrite Hids.
    rewrite map_add_seq, Nat.add_0_r. reflexivity.
  - rewrite length_filter_map, Hflags, <- length_filter_map, count_below.
    pose proof (ceil_seven_tenths count). lia.
Qed.

(** X3, with every draw one half: a tape of four segments from id 13. *)
Lemma createTape_makes_tape_example :
  valid_env env_half
  /\ tapeSegIds (run (createTape 3 13 4) env_half 0) = [13; 14; 15; 16]
  /\ List.length (filter Segment.enabled (Tape.segments (run (createTape 3 13 4) env_half 0)))
     = 3.
Proof.
  split; [exact valid_env_half |].
  destruct (createTape_makes_tape env_half 3 13 4 0 valid_env_half)
    as (_ & _ & _ & _ & _ & _ & _ & _ & Hids & _ & Hcount & _).
  split; [exact Hids | exact Hcount].
Defined.

(** ** What reachable states keep *)

Lemma mapM_Forall2_in {A B : Type} (f : A -> Gen B) (R : A -> B -> Prop) (e : Env) :
  forall l n,
    (forall a k, In a l -> R a (fst (f a e k))) ->
    Forall2 R l (fst (mapM f l e n)).
Proof.
  induction l as [| a l IH]; simpl; intros n H; [constructor |].
  unfold bind.
  pose proof (H a n (or_introl eq_refl)) as Ha.
  destruct (f a e n) as [b n1].
  specialize (IH n1 (fun x k Hx => H x k (or_intror Hx))).
  destruct (mapM f l e n1) as [bs n2]. simpl in *.
  constructor; assumption.
Qed.

Lemma segment_ok_inv (s : Segment.t) : segment_ok s -> segment_inv s.
Proof.
  intros (Hs & Hok & _ & _ & Hd & _). repeat split; try assumption; apply Hs.
Qed.

Lemma Forall_map_segments (P : Segment.t -> Prop) (h : Segment.t -> Segment.t)
  (segs : list Segment.t) :
  (forall s, P s -> P (h s)) -> Forall P segs -> Forall P (map h segs).
Proof.
  intros H Hp. apply Forall_forall. intros s' Hs'. apply in_map_iff in Hs'.
  destruct Hs' as (s & <- & Hs). apply H. rewrite Forall_forall in Hp.
  apply Hp; exact Hs.
Qed.

Lemma tickSegment_inv (t : Tape.t) (s : Segment.t) (e : Env) (n : nat) :
  segment_inv s -> segment_inv (fst (tickSegment t s e n)).
Proof.
  unfold tickSegment.
  destruct (negb (Segment.enabled s) || negb (Tape.enabled t)); intros H; [exact H |].
  destruct H as (Hs & Hok & _). simpl.
  split; [exact Hs |]. split; [exact Hok | apply newTemp_one_decimal].
Qed.

Lemma exec_segment_inv (c : Command) (prev : list Tape.t) (e : Env) (n : nat) :
  valid_env e ->
  Forall (fun t => Forall segment_inv (Tape.segments t)) prev ->
  Forall (fun t => Forall segment_inv (Tape.segments t)) (run (exec c prev) e n).
Proof.
  intros He H. destruct c; unfold run; simpl.
  - apply Forall_map_tapes; [| exact H]. intros t _ Ht.
    destruct (Tape.id t =? tapeId); exact Ht.
  - apply Forall_map_tapes; [| exact H]. intros t _ Ht.
    destruct (Tape.id t =? tapeId); [destruct field |]; exact Ht.
  - unfold addTape, bind.
    pose proof (createTape_segments_ok e
                  (fold_left (fun m t => Nat.max m (Tape.id t)) prev 0 + 1)
                  (getMaxSegId prev + 1) 4 n He) as Hc.
    destruct (createTape _ _ 4 e n) as [t n1]. simpl in *.
    apply Forall_app. split; [exact H |].
    constructor; [| constructor].
    eapply Forall_impl; [| exact Hc]. intros s. apply segment_ok_inv.
  - unfold removeTape. destruct (1 <? List.length prev); [| exact H].
    apply Forall_filter_keep; exact H.
  - apply Forall_mapM_tapes; [| exact H]. intros t k _ Ht.
    destruct (Tape.id t =? tapeId); [| exact Ht].
    unfold bind.
    pose proof (createSegment_segment_ok e (getMaxSegId prev + 1) false k He) as Hs.
    destruct (createSegment _ false e k) as [s k1]. simpl in *.
    apply Forall_app. split; [exact Ht |].
    constructor; [apply segment_ok_inv; exact Hs | constructor].
  - apply Forall_map_tapes; [| exact H]. intros t _ Ht.
    destruct (Tape.id t =? tapeId); [| exact Ht]. simpl.
    destruct (1 <? List.length (Tape.segments t)); [| exact Ht].
    apply Forall_filter_keep; exact Ht.
  - apply Forall_map_tapes; [| exact H]. intros t _ Ht.
    destruct (Tape.id t =? tapeId); [| exact Ht]. simpl.
    apply Forall_map_segments; [| exact Ht]. intros s Hs.
    destruct (Segment.id s =? segId); exact Hs.
  - apply Forall_map_tapes; [| exact H]. intros t _ Ht.
    destruct (Tape.id t =? tapeId); [| exact Ht]. simpl.
    apply Forall_map_segments; [| exact Ht]. intros s Hs.
    destruct (Segment.id s =? segId); exact Hs.
  - apply Forall_map_tapes; [| exact H]. intros t _ Ht.
    destruct (Tape.id t =? tapeId); [| exact Ht]. simpl.
    apply Forall_map_segments; [| exact Ht]. intros s Hs.
    destruct (Segment.id s =? segId); exact Hs.
  - apply Forall_map_tapes; [| exact H]. intros t _ Ht.
    destruct (Tape.id t =? tapeId); [| exact Ht]. simpl.
    apply Forall_map_segments; [| exact Ht]. intros s Hs. exact Hs.
  - apply Forall_map_tapes; [| exact H]. intros t _ Ht.
    destruct (Tape.id t =? tapeId); [| exact Ht]. simpl.
    apply Forall_map_segments; [| exact Ht]. intros s Hs. exact Hs.
  - apply Forall_mapM_tapes; [| exact H]. intros t k _ Ht.
    unfold tickTape, bind.
    pose proof (mapM_Forall (tickSegment t) segment_inv e (Tape.segments t) k) as Hm.
    destruct (mapM (tickSegment t) (Tape.segments t) e k) as [segs k1]. simpl in *.
    apply Hm. intros s j Hs. apply tickSegment_inv.
    rewrite Forall_forall in Ht. apply Ht; exact Hs.
Qed.

Lemma initial_segment_inv (e : Env) (n : nat) :
  valid_env e ->
  Forall (fun t => Forall segment_inv (Tape.segments t)) (run createInitialTapes e n).
Proof.
  intros He. unfold run, createInitialTapes, bind.
  pose proof (createTape_segments_ok e 1 1 6 n He) as H1.
  destruct (createTape 1 1 6 e n) as [t1 n1].
  pose proof (createTape_segments_ok e 2 7 6 n1 He) as H2.
  destruct (createTape 2 7 6 e n1) as [t2 n2].
  simpl in *.
  repeat constructor; simpl.
  - eapply Forall_impl; [| exact H1]. intros s. apply segment_ok_inv.
  - eapply Forall_impl; [| exact H2]. intros s. apply segment_ok_inv.
Qed.

Lemma reachable_segment_inv (tapes : list Tape.t) :
  reachable tapes -> Forall (fun t => Forall segment_inv (Tape.segments t)) tapes.
Proof.
  intros H; induction H as [e n He | c prev e n He _ IH].
  - apply initial_segment_inv; exact He.
  - apply exec_segment_inv; assumption.
Qed.

Lemma totalSensors_range (l : list Segment.t) (a : nat) :
  Forall sensors_ok l ->
  a + 2 * List.length l
  <= fold_left (fun acc s => acc + List.length (Segment.sensors s)) l a
  <= a + 4 * List.length l.
Proof.
  revert a; induction l as [| s l IH]; intros a H; simpl; [lia |].
  inversion H as [| ? ? Hs Hl]; subst. unfold sensors_ok in Hs.
  specialize (IH (a + List.length (Segment.sensors s)) Hl). lia.
Qed.

(** X4 (createInitialTapes): whatever the draws in [0, 1), the panel
    starts with tapes 1 and 2 at their fixed coordinates and contract
    numbers, both enabled, holding the valid segments 1 to 12; ten of the
    twelve segments are enabled, so the header shows 10 active segments
    and 2 active tapes, and between 24 and 48 sensors. *)
Theorem createInitialTapes_start_state :
  forall (e : Env) (n : nat),
    valid_env e ->
    let tapes := run createInitialTapes e n in
    tapeIds tapes = [1; 2]
    /\ map Tape.coordinates tapes = ["55.7558, 37.6173"; "55.7600, 37.6200"]
    /\ map Tape.contractNumber tapes = ["№2024-001"; "№2024-002"]
    /\ segmentIds tapes = seq 1 12
    /\ Forall segment_ok (allSegments tapes)
    /\ activeCount tapes = 10
    /\ activeTapes tapes = 2
    /\ 24 <= totalSensors tapes <= 48.
Proof.
  intros e n He. cbv zeta. unfold run, createInitialTapes, bind.
  pose proof (createTape_shape 1 1 6 e n) as S1.
  pose proof (createTape_segments_ok e 1 1 6 n He) as O1.
  destruct (createTape 1 1 6 e n) as [t1 n1].
  pose proof (createTape_shape 2 7 6 e n1) as S2.
  pose proof (createTape_segments_ok e 2 7 6 n1 He) as O2.
  destruct (createTape 2 7 6 e n1) as [t2 n2].
  cbv zeta in S1, S2. cbn [fst] in S1, S2, O1, O2.
  destruct S1 as (I1 & E1 & D1 & F1 & _). destruct S2 as (I2 & E2 & D2 & F2 & _).
  change (map _ (seq 0 6)) with [true; true; true; true; true; false] in F1, F2.
  assert (Hall : Forall segment_ok (Tape.segments t1 ++ Tape.segments t2)).
  { apply Forall_app. split; assumption. }
  assert (Hlen : List.length (Tape.segments t1 ++ Tape.segments t2) = 12).
  { rewrite length_app.
    apply (f_equal (@List.length nat)) in D1, D2.
    rewrite !length_map in D1, D2. simpl in D1, D2. lia. }
  unfold ret, tapeIds, segmentIds, activeCount, activeTapes, totalSensors,
    enabledSegments, allSegments.
  cbn [fst map flat_map Tape.id Tape.coordinates Tape.contractNumber Tape.segments
       Tape.enabled Tape.with_coordinates Tape.with_contractNumber filter].
  rewrite app_nil_r, E1, E2, I1, I2.
  split; [reflexivity |]. split; [reflexivity |]. split; [reflexivity |].
  split; [rewrite map_app, D1, D2; reflexivity |].
  split; [exact Hall |].
  split; [rewrite filter_app, length_app,
            (length_filter_map Segment.enabled (Tape.segments t1)),
            (length_filter_map Segment.enabled (Tape.segments t2)), F1, F2;
          reflexivity |].
  split; [reflexivity |].
  assert (Hs : Forall sensors_ok (Tape.segments t1 ++ Tape.segments t2)).
  { eapply Forall_impl; [| exact Hall]. intros s Hs. apply Hs. }
  pose proof (totalSensors_range _ 0 Hs) as Ht. rewrite Hlen in Ht. exact Ht.
Qed.

(** X4, with every draw one half. *)
Lemma createInitialTapes_start_state_example :
  valid_env env_half
  /\ activeCount (run createInitialTapes env_half 0) = 10
  /\ totalSensors (run createInitialTapes env_half 0) = 36.
Proof.
  split; [exact valid_env_half |].
  split; [| vm_compute; reflexivity].
  exact (proj1 (proj2 (proj2 (proj2 (proj2 (proj2
           (createInitialTapes_start_state env_half 0 valid_env_half))))))).
Defined.

Lemma Forall_allSegments (P : Segment.t -> Prop) (tapes : list Tape.t) :
  Forall (fun t => Forall P (Tape.segments t)) tapes -> Forall P (allSegments tapes).
Proof.
  intros H. apply Forall_forall. intros s Hs. unfold allSegments in Hs.
  apply in_flat_map in Hs. destruct Hs as (t & Ht & Hs).
  rewrite Forall_forall in H. specialize (H t Ht).
  rewrite Forall_forall in H. apply H; exact Hs.
Qed.



Lemma tickSegment_near (t : Tape.t) (s : Segment.t) (e : Env) (j : nat) :
  valid_env e -> one_decimal (Segment.temperature s) ->
  (Qabs (Segment.temperature s) <= 1000000000)%Q ->
  (Qabs (Segment.temperature (fst (tickSegment t s e j)) - Segment.temperature s)
   <= 4 # 5)%Q.
Proof.
  intros He Hd Hm. unfold tickSegment.
  destruct (negb (Segment.enabled s) || negb (Tape.enabled t)).
  - unfold ret. cbn [fst]. apply Qabs_Qle_condition. split; lra.
  - unfold bind, Math_random, ret.
    cbn [fst Segment.temperature Segment.with_temperature].
    destruct (He j) as [H0 H1]. apply newTemp_near_one_decimal; assumption.
Qed.

(** X6 (temperatures under the tick): in every state reachable from the
    tapes generated at start, every segment temperature is a whole number
    of tenths, and one tick changes no temperature of at most [10 ^ 9]
    degrees in magnitude by more than 0.8. *)
Theorem reachable_tick_moves_at_most_eight_tenths :
  forall tapes : list Tape.t,
    reachable tapes ->
    Forall (fun s => one_decimal (Segment.temperature s)) (allSegments tapes)
    /\ forall (e : Env) (n : nat),
         valid_env e ->
         Forall2
           (fun t t' =>
              Forall2
                (fun s s' =>
                   (Qabs (Segment.temperature s) <= 1000000000)%Q ->
                   (Qabs (Segment.temperature s' - Segment.temperature s) <= 4 # 5)%Q)
                (Tape.segments t) (Tape.segments t'))
           tapes (run (tick tapes) e n).
Proof.
  intros tapes Hr.
  pose proof (reachable_segment_inv tapes Hr) as Hinv.
  split.
  - pose proof (Forall_allSegments segment_inv tapes Hinv) as H.
    eapply Forall_impl; [| exact H]. intros s Hs. apply Hs.
  - intros e n He. unfold run, tick.
    apply mapM_Forall2_in. intros t k Ht.
    rewrite Forall_forall in Hinv. specialize (Hinv t Ht).
    unfold tickTape, bind.
    pose proof (mapM_Forall2_in (tickSegment t)
                  (fun s s' =>
                     (Qabs (Segment.temperature s) <= 1000000000)%Q ->
                     (Qabs (Segment.temperature s' - Segment.temperature s) <= 4 # 5)%Q)
                  e (Tape.segments t) k) as Hm.
    destruct (mapM (tickSegment t) (Tape.segments t) e k) as [segs k1].
    cbn [fst Tape.segments Tape.with_segments] in *. apply Hm. intros s j Hs Hb.
    rewrite Forall_forall in Hinv. destruct (Hinv s Hs) as (_ & _ & Hd).
    apply tickSegment_near; assumption.
Qed.

(** X6, on the tapes generated at start when every draw was 0, after a
    tick in which every draw is [1 - 2 ^ -53]: the state is reachable and
    its temperatures are -4.2 and, for the two disabled segments, -5.0. *)
Lemma reachable_tick_moves_at_most_eight_tenths_example :
  let tapes := run (tick (run createInitialTapes env_zero 0)) env_top 0 in
  reachable tapes
  /\ map Segment.temperature (allSegments tapes)
     = [(-42 # 10); (-42 # 10); (-42 # 10); (-42 # 10); (-42 # 10); (-50 # 10);
        (-42 # 10); (-42 # 10); (-42 # 10); (-42 # 10); (-42 # 10); (-50 # 10)]%Q
  /\ Forall (fun s => one_decimal (Segment.temperature s)) (allSegments tapes).
Proof.
  intros tapes.
  assert (R : reachable tapes).
  { apply (reach_step CTick _ env_top 0 valid_env_top).
    apply reach_init. exact valid_env_zero. }
  split; [exact R |]. split; [vm_compute; reflexivity |].
  exact (proj1 (reachable_tick_moves_at_most_eight_tenths tapes R)).
Defined.

(** ** The tick: random numbers used, and what it leaves alone *)

Lemma mapM_draws_sum {A B : Type} (f : A -> Gen B) (e : Env) (c : A -> nat)
  (l : list A) :
  (forall a k, In a l -> snd (f a e k) = k + c a) ->
  forall n, snd (mapM f l e n) = n + list_sum (map c l).
Proof.
  induction l as [| a l IH]; simpl; intros H n; [lia |].
  unfold bind.
  pose proof (H a n (or_introl eq_refl)) as Ha.
  destruct (f a e n) as [b n1]. simpl in Ha. subst n1.
  specialize (IH (fun x k Hx => H x k (or_intror Hx)) (n + c a)).
  destruct (mapM f l e (n + c a)) as [bs n2]. simpl in *. lia.
Qed.

Lemma list_sum_indicator {A : Type} (p : A -> bool) (l : list A) :
  list_sum (map (fun a => if p a then 1 else 0) l) = List.length (filter p l).
Proof.
  induction l as [| a l IH]; simpl; [reflexivity |].
  destruct (p a); simpl; rewrite IH; reflexivity.
Qed.

Lemma length_flat_map {A B : Type} (f : A -> list B) (l : list A) :
  List.length (flat_map f l) = list_sum (map (fun a => List.length (f a)) l).
Proof.
  induction l as [| a l IH]; simpl; [reflexivity |].
  rewrite length_app, IH. reflexivity.
Qed.

Lemma tickSegment_draws (t : Tape.t) (s : Segment.t) (e : Env) (k : nat) :
  snd (tickSegment t s e k)
  = k + (if Segment.enabled s && Tape.enabled t then 1 else 0).
Proof.
  unfold tickSegment.
  destruct (Segment.enabled s), (Tape.enabled t); simpl; lia.
Qed.

Lemma tickTape_draws (t : Tape.t) (e : Env) (k : nat) :
  snd (tickTape t e k)
  = k + List.length (filter (fun s => Segment.enabled s && Tape.enabled t)
                            (Tape.segments t)).
Proof.
  unfold tickTape, bind.
  pose proof (mapM_draws_sum (tickSegment t) e
                (fun s => if Segment.enabled s && Tape.enabled t then 1 else 0)
                (Tape.segments t)
                (fun s j _ => tickSegment_draws t s e j) k) as H.
  destruct (mapM (tickSegment t) (Tape.segments t) e k) as [segs k1].
  simpl in *. rewrite H, list_sum_indicator. reflexivity.
Qed.

(** X7 (simulation tick): one tick calls [Math.random] exactly once for
    every segment that is enabled on an enabled tape, and not at all for
    the others. *)
Theorem tick_draws_one_number_per_effective_segment :
  forall (e : Env) (prev : list Tape.t) (n : nat),
    draws (tick prev) e n = n + List.length (effectiveSegments prev).
Proof.
  intros e prev n. unfold draws, tick, effectiveSegments.
  rewrite (mapM_draws_sum tickTape e
             (fun t => List.length
                         (filter (fun s => Segment.enabled s && Tape.enabled t)
                                 (Tape.segments t)))).
  - rewrite length_flat_map. reflexivity.
  - intros t k _. apply tickTape_draws.
Qed.

Lemma same_but_temperature_refl (s : Segment.t) : same_but_temperature s s.
Proof. unfold same_but_temperature. destruct s; reflexivity. Qed.

Lemma tickSegment_same (t : Tape.t) (s : Segment.t) (e : Env) (k : nat) :
  same_but_temperature s (fst (tickSegment t s e k)).
Proof.
  unfold tickSegment.
  destruct (negb (Segment.enabled s) || negb (Tape.enabled t)).
  - apply same_but_temperature_refl.
  - reflexivity.
Qed.

Lemma tickTape_same (t : Tape.t) (e : Env) (k : nat) :
  fst (tickTape t e k) = Tape.with_segments t (Tape.segments (fst (tickTape t e k)))
  /\ Forall2 same_but_temperature (Tape.segments t) (Tape.segments (fst (tickTape t e k))).
Proof.
  unfold tickTape, bind.
  pose proof (mapM_Forall2 (tickSegment t) same_but_temperature e
                (fun s j => tickSegment_same t s e j) (Tape.segments t) k) as H.
  destruct (mapM (tickSegment t) (Tape.segments t) e k) as [segs k1].
  simpl in *. split; [reflexivity | exact H].
Qed.

Lemma tick_allSegments_same (e : Env) (prev : list Tape.t) (n : nat) :
  Forall2 same_but_temperature (allSegments prev) (allSegments (fst (tick prev e n))).
Proof.
  unfold tick. revert n. induction prev as [| t prev IH]; intros n; [constructor |].
  simpl mapM. unfold bind.
  pose proof (tickTape_same t e n) as [_ Ht].
  destruct (tickTape t e n) as [t' n1].
  specialize (IH n1). destruct (mapM tickTape prev e n1) as [prev' n2].
  simpl in *. apply Forall2_app; assumption.
Qed.

Lemma same_filter_enabled (l l' : list Segment.t) :
  Forall2 same_but_temperature l l' ->
  Forall2 same_but_temperature (filter Segment.enabled l) (filter Segment.enabled l').
Proof.
  intros H; induction H as [| s s' l l' Hs _ IH]; simpl; [constructor |].
  assert (E : Segment.enabled s' = Segment.enabled s).
  { unfold same_but_temperature in Hs. rewrite Hs. reflexivity. }
  rewrite E. destruct (Segment.enabled s); [constructor |]; assumption.
Qed.

Lemma same_fold {A : Type} (g : Segment.t -> A) (op : A -> A -> A)
  (l l' : list Segment.t) :
  (forall s v, g (Segment.with_temperature s v) = g s) ->
  Forall2 same_but_temperature l l' ->
  forall a, fold_left (fun acc s => op acc (g s)) l' a
            = fold_left (fun acc s => op acc (g s)) l a.
Proof.
  intros Hg H; induction H as [| s s' l l' Hs _ IH]; intros a; simpl; [reflexivity |].
  assert (E : g s' = g s).
  { unfold same_but_temperature in Hs. rewrite Hs. apply Hg. }
  rewrite E. apply IH.
Qed.

(** X8 (simulation tick): a tick changes temperatures and nothing else.
    Tape fields, ids, flags, powers, targets, statuses and sensors are as
    before, so the number of active segments, the total power, the number
    of active tapes and the number of sensors shown do not change. *)
Theorem tick_changes_temperatures_only :
  forall (e : Env) (prev : list Tape.t) (n : nat),
    let next := run (tick prev) e n in
    Forall2 (fun t t' => t' = Tape.with_segments t (Tape.segments t')) prev next
    /\ Forall2 same_but_temperature (allSegments prev) (allSegments next)
    /\ activeCount next = activeCount prev
    /\ totalPower next = totalPower prev
    /\ activeTapes next = activeTapes prev
    /\ totalSensors next = totalSensors prev.
Proof.
  intros e prev n. cbv zeta. unfold run.
  pose proof (tick_allSegments_same e prev n) as Hall.
  pose proof (same_filter_enabled _ _ Hall) as Hen.
  split; [| split; [exact Hall | split; [| split; [| split]]]].
  - unfold tick. apply mapM_Forall2. intros t k. apply tickTape_same.
  - unfold activeCount, enabledSegments.
    symmetry. eapply Forall2_length. exact Hen.
  - unfold totalPower, enabledSegments. f_equal.
    apply (same_fold (fun s => (inject_Z (Segment.power s) / 100 * (1 # 2))%Q) Qplus);
      [reflexivity | exact Hen].
  - unfold activeTapes.
    rewrite !(length_filter_map Tape.enabled). f_equal. f_equal.
    unfold tick. apply mapM_map_fst. intros t e' k.
    unfold tickTape, bind.
    destruct (mapM (tickSegment t) (Tape.segments t) e' k); reflexivity.
  - unfold totalSensors.
    apply (same_fold (fun s => List.length (Segment.sensors s)) Nat.add);
      [reflexivity | exact Hall].
Qed.

(** ** How the commands compose *)

Lemma with_enabled_twice (t : Tape.t) :
  Tape.with_enabled (Tape.with_enabled t (negb (Tape.enabled t)))
    (negb (Tape.enabled (Tape.with_enabled t (negb (Tape.enabled t))))) = t.
Proof. destruct t as [i nm co cn le wi sg en]; simpl. rewrite negb_involutive. reflexivity. Qed.

(** X9 (toggleTape): switching a tape twice gives back the state: the
    second [toggleTape] undoes the first, on every tape with that id, and
    no segment is touched by either. *)
Theorem toggleTape_twice_is_identity :
  forall (tapeId : nat) (prev : list Tape.t),
    toggleTape tapeId (toggleTape tapeId prev) = prev
    /\ allSegments (toggleTape tapeId prev) = allSegments prev.
Proof.
  intros tapeId prev. unfold toggleTape. split.
  - rewrite map_map. apply map_id_on. intros t _.
    destruct (Nat.eqb_spec (Tape.id t) tapeId) as [E | E].
    + simpl. rewrite E, Nat.eqb_refl. apply with_enabled_twice.
    + destruct (Nat.eqb_spec (Tape.id t) tapeId); [contradiction | reflexivity].
  - unfold allSegments. rewrite flat_map_concat_map, map_map, <- flat_map_concat_map.
    apply flat_map_ext. intros t. destruct (Tape.id t =? tapeId); reflexivity.
Qed.

(** X10 (toggleSegment): switching a segment off and on again (or on and
    off) restores its flag but not always its status: the segment ends
    with status [normal] when enabled and [off] when disabled, so a
    [warning] or [critical] status is lost. The state is the one before
    when every addressed segment had this plain status. *)
Theorem toggleSegment_twice_resets_status :
  forall (tapeId segId : nat) (prev : list Tape.t),
    toggleSegment tapeId segId (toggleSegment tapeId segId prev)
    = map (fun t =>
             if Tape.id t =? tapeId
             then Tape.with_segments t
                    (map (fun s =>
                            if Segment.id s =? segId
                            then Segment.with_enabled_status s (Segment.enabled s)
                                   (if Segment.enabled s then normal else off)
                            else s) (Tape.segments t))
             else t) prev
    /\ ((forall t s, In t prev -> In s (Tape.segments t) ->
                     Tape.id t = tapeId -> Segment.id s = segId ->
                     Segment.status s = (if Segment.enabled s then normal else off)) ->
        toggleSegment tapeId segId (toggleSegment tapeId segId prev) = prev).
Proof.
  intros tapeId segId prev.
  assert (H : toggleSegment tapeId segId (toggleSegment tapeId segId prev)
              = map (fun t =>
                       if Tape.id t =? tapeId
                       then Tape.with_segments t
                              (map (fun s =>
                                      if Segment.id s =? segId
                                      then Segment.with_enabled_status s (Segment.enabled s)
                                             (if Segment.enabled s then normal else off)
                                      else s) (Tape.segments t))
                       else t) prev).
  { unfold toggleSegment. rewrite map_map. apply map_ext. intros t.
    destruct (Nat.eqb_spec (Tape.id t) tapeId) as [E | E].
    - simpl. rewrite E, Nat.eqb_refl. unfold Tape.with_segments. simpl.
      f_equal. rewrite map_map. apply map_ext. intros s.
      destruct (Nat.eqb_spec (Segment.id s) segId) as [Es | Es].
      + simpl. rewrite Es, Nat.eqb_refl. unfold Segment.with_enabled_status. simpl.
        rewrite negb_involutive. destruct (Segment.enabled s); reflexivity.
      + destruct (Nat.eqb_spec (Segment.id s) segId); [contradiction | reflexivity].
    - destruct (Nat.eqb_spec (Tape.id t) tapeId); [contradiction | reflexivity]. }
  split; [exact H |].
  intros Hplain. rewrite H. apply map_tape_segments_noop. intros t Ht Et.
  apply map_id_on. intros s Hs.
  destruct (Nat.eqb_spec (Segment.id s) segId) as [Es | Es]; [| reflexivity].
  specialize (Hplain t s Ht Hs Et Es).
  destruct s as [i nm en pw te tg st si ss]. simpl in *. subst st. reflexivity.
Qed.

(** X10, where the draws make every enabled segment start in [warning]:
    toggling segment 1 twice does not give back the start state; and on
    the tapes of the half draws, where it is [normal], it does. *)
Lemma toggleSegment_twice_resets_status_example :
  (forall t s, In t (run createInitialTapes env_half 0) -> In s (Tape.segments t) ->
               Tape.id t = 1 -> Segment.id s = 1 ->
               Segment.status s = (if Segment.enabled s then normal else off))
  /\ toggleSegment 1 1 (toggleSegment 1 1 (run createInitialTapes env_half 0))
     = run createInitialTapes env_half 0
  /\ toggleSegment 1 1 (toggleSegment 1 1 (run createInitialTapes env_high 0))
     <> run createInitialTapes env_high 0.
Proof.
  assert (H : forall t s, In t (run createInitialTapes env_half 0) ->
                          In s (Tape.segments t) ->
                          Tape.id t = 1 -> Segment.id s = 1 ->
                          Segment.status s = (if Segment.enabled s then normal else off)).
  { intros t s Ht Hs Et Es. destruct Ht as [<- | [<- | []]].
    - simpl in Hs.
      repeat (destruct Hs as [<- | Hs]; [try discriminate Es; reflexivity |]).
      contradiction.
    - vm_compute in Et. discriminate Et. }
  split; [exact H |]. split.
  - exact (proj2 (toggleSegment_twice_resets_status 1 1 _) H).
  - vm_compute. discriminate.
Defined.

Lemma Forall2_map_back {A B : Type} (R : A -> B -> Prop) (F : B -> A)
  (l : list A) (l' : list B) :
  Forall2 R l l' -> (forall a b, In a l -> R a b -> F b = a) -> map F l' = l.
Proof.
  intros H; induction H as [| a b l l' Hab _ IH]; intros HF; simpl; [reflexivity |].
  rewrite (HF a b (or_introl eq_refl) Hab). f_equal.
  apply IH. intros x y Hx Hxy. apply (HF x y (or_intror Hx) Hxy).
Qed.

(** X11 (addTape, removeTape): removing the tape that [addTape] has just
    added gives back the state before, provided there was a tape before.
    From the empty list the added tape is the only one, and [removeTape]
    refuses to remove it. *)
Theorem removeTape_undoes_addTape :
  forall (prev : list Tape.t) (e : Env) (n : nat),
    exists t : Tape.t,
      run (addTape prev) e n = prev ++ [t]
      /\ (prev <> [] -> removeTape (Tape.id t) (run (addTape prev) e n) = prev)
      /\ (prev = [] -> removeTape (Tape.id t) (run (addTape prev) e n) = [t]).
Proof.
  intros prev e n.
  destruct (addTape_shape prev e n) as (t & E & Hid & _).
  exists t. split; [exact E |]. rewrite E. split.
  - intros Hne. unfold removeTape.
    destruct (Nat.ltb_spec 1 (List.length (prev ++ [t]))) as [_ | L].
    + rewrite filter_app. simpl. rewrite Nat.eqb_refl. simpl. rewrite app_nil_r.
      apply filter_all. intros a Ha. apply negb_true_iff, Nat.eqb_neq.
      assert (Tape.id a <= list_max (tapeIds prev)).
      { apply list_max_ge. unfold tapeIds. apply in_map. exact Ha. }
      lia.
    + rewrite length_app in L. simpl in L.
      destruct prev; [contradiction | simpl in L; lia].
  - intros ->. reflexivity.
Qed.

(** X11, on the tapes generated at start. *)
Lemma removeTape_undoes_addTape_example :
  run createInitialTapes env_half 0 <> []
  /\ removeTape 3 (run (addTape (run createInitialTapes env_half 0)) env_half 0)
     = run createInitialTapes env_half 0.
Proof.
  assert (Hne : run createInitialTapes env_half 0 <> []) by (vm_compute; discriminate).
  split; [exact Hne |].
  destruct (removeTape_undoes_addTape (run createInitialTapes env_half 0) env_half 0)
    as (t & E & Hback & _).
  assert (Hid : Tape.id t = 3).
  { apply (f_equal (fun l => map Tape.id l)) in E. rewrite map_app in E.
    vm_compute in E. injection E as E. exact (eq_sym E). }
  rewrite <- Hid. apply Hback. exact Hne.
Defined.

Lemma with_segments_twice (t : Tape.t) (x : list Segment.t) :
  Tape.with_segments (Tape.with_segments t x) (Tape.segments t) = t.
Proof. destruct t; reflexivity. Qed.

(** X12 (addSegmentToTape, removeSegmentFromTape): on a state in which
    every tape has a segment, removing from a tape the segment that
    [addSegmentToTape] has just added to it gives back the state before.
    The new segment has the id [getMaxSegId prev + 1], is disabled and has
    status [off]. *)
Theorem removeSegment_undoes_addSegment :
  forall (tapeId : nat) (prev : list Tape.t) (e : Env) (n : nat),
    Forall (fun t => Tape.segments t <> []) prev ->
    removeSegmentFromTape tapeId (getMaxSegId prev + 1)
      (run (addSegmentToTape tapeId prev) e n) = prev
    /\ Forall2
         (fun t t' =>
            if Tape.id t =? tapeId
            then exists s, t' = Tape.with_segments t (Tape.segments t ++ [s])
                           /\ Segment.id s = getMaxSegId prev + 1
                           /\ Segment.enabled s = false
                           /\ Segment.status s = off
            else t' = t)
         prev (run (addSegmentToTape tapeId prev) e n).
Proof.
  intros tapeId prev e n Hne.
  assert (H2 : Forall2
                 (fun t t' =>
                    if Tape.id t =? tapeId
                    then exists s, t' = Tape.with_segments t (Tape.segments t ++ [s])
                                   /\ Segment.id s = getMaxSegId prev + 1
                                   /\ Segment.enabled s = false
                                   /\ Segment.status s = off
                    else t' = t)
                 prev (run (addSegmentToTape tapeId prev) e n)).
  { unfold run, addSegmentToTape. apply mapM_Forall2. intros t k.
    destruct (Tape.id t =? tapeId); [| reflexivity].
    unfold bind.
    pose proof (createSegment_id (getMaxSegId prev + 1) false e k) as Hid.
    pose proof (createSegment_enabled (getMaxSegId prev + 1) false e k) as Hen.
    pose proof (createSegment_status_ok (getMaxSegId prev + 1) false e k) as Hst.
    destruct (createSegment _ false e k) as [s k1]. simpl in *.
    exists s. repeat split; try assumption. apply Hst. exact Hen. }
  split; [| exact H2].
  unfold removeSegmentFromTape.
  apply (Forall2_map_back _ _ _ _ H2). intros t t' Ht Htt'.
  destruct (Nat.eqb_spec (Tape.id t) tapeId) as [E | E].
  - destruct Htt' as (s & -> & Hid & _). simpl. rewrite E, Nat.eqb_refl.
    rewrite length_app. simpl.
    rewrite Forall_forall in Hne. specialize (Hne t Ht).
    destruct (Nat.ltb_spec 1 (List.length (Tape.segments t) + 1)) as [_ | L].
    + rewrite filter_app. simpl. rewrite Hid, Nat.eqb_refl. simpl.
      rewrite app_nil_r, filter_all; [apply with_segments_twice |].
      intros a Ha. apply negb_true_iff, Nat.eqb_neq.
      assert (Segment.id a <= getMaxSegId prev).
      { rewrite getMaxSegId_list_max. apply list_max_ge.
        apply (in_tapeSegIds t); [exact Ht |]. unfold tapeSegIds. apply in_map. exact Ha. }
      lia.
    + destruct (Tape.segments t); [contradiction | simpl in L; lia].
  - subst t'. destruct (Nat.eqb_spec (Tape.id t) tapeId); [contradiction | reflexivity].
Qed.

(** X12, on the tapes generated at start: segment 13 is added to tape 2
    and removed again. *)
Lemma removeSegment_undoes_addSegment_example :
  Forall (fun t => Tape.segments t <> []) (run createInitialTapes env_half 0)
  /\ getMaxSegId (run createInitialTapes env_half 0) + 1 = 13
  /\ removeSegmentFromTape 2 13
       (run (addSegmentToTape 2 (run createInitialTapes env_half 0)) env_half 0)
     = run createInitialTapes env_half 0.
Proof.
  assert (H : Forall (fun t => Tape.segments t <> []) (run createInitialTapes env_half 0)).
  { repeat constructor; vm_compute; discriminate. }
  split; [exact H |]. split; [vm_compute; reflexivity |].
  exact (proj1 (removeSegment_undoes_addSegment 2 _ env_half 0 H)).
Defined.

Lemma bulk_after_handler (tapeId : nat) (b : bool) (st : SegmentStatus)
  (h : Tape.t -> Segment.t -> Segment.t) (prev : list Tape.t) :
  (forall t s, Segment.with_enabled_status (h t s) b st
               = Segment.with_enabled_status s b st) ->
  map (fun t => if Tape.id t =? tapeId
                then Tape.with_segments t
                       (map (fun s => Segment.with_enabled_status s b st)
                            (Tape.segments t))
                else t)
      (map (fun t => if Tape.id t =? tapeId
                     then Tape.with_segments t (map (h t) (Tape.segments t))
                     else t) prev)
  = map (fun t => if Tape.id t =? tapeId
                  then Tape.with_segments t
                         (map (fun s => Segment.with_enabled_status s b st)
                              (Tape.segments t))
                  else t) prev.
Proof.
  intros Hh. rewrite map_map. apply map_ext. intros t.
  destruct (Nat.eqb_spec (Tape.id t) tapeId) as [E | E].
  - simpl. rewrite E, Nat.eqb_refl. unfold Tape.with_segments. simpl.
    f_equal. rewrite map_map. apply map_ext. intros s. apply Hh.
  - destruct (Nat.eqb_spec (Tape.id t) tapeId); [contradiction | reflexivity].
Qed.

(** X13 (enable all / disable all): the bulk buttons of a tape overwrite
    flag and status of all its segments, so their result does not depend
    on what the flags were: each is idempotent, each cancels an earlier
    press of the other, and each cancels an earlier [toggleSegment] on the
    same tape. *)
Theorem bulk_switch_overwrites :
  forall (tapeId segId : nat) (prev : list Tape.t),
    enableAllSegments tapeId (enableAllSegments tapeId prev)
    = enableAllSegments tapeId prev
    /\ disableAllSegments tapeId (disableAllSegments tapeId prev)
       = disableAllSegments tapeId prev
    /\ enableAllSegments tapeId (disableAllSegments tapeId prev)
       = enableAllSegments tapeId prev
    /\ disableAllSegments tapeId (enableAllSegments tapeId prev)
       = disableAllSegments tapeId prev
    /\ enableAllSegments tapeId (toggleSegment tapeId segId prev)
       = enableAllSegments tapeId prev
    /\ disableAllSegments tapeId (toggleSegment tapeId segId prev)
       = disableAllSegments tapeId prev.
Proof.
  intros tapeId segId prev.
  unfold enableAllSegments, disableAllSegments, toggleSegment.
  repeat split.
  - apply (bulk_after_handler tapeId true normal
             (fun _ s => Segment.with_enabled_status s true normal)).
    reflexivity.
  - apply (bulk_after_handler tapeId false off
             (fun _ s => Segment.with_enabled_status s false off)).
    reflexivity.
  - apply (bulk_after_handler tapeId true normal
             (fun _ s => Segment.with_enabled_status s false off)).
    reflexivity.
  - apply (bulk_after_handler tapeId false off
             (fun _ s => Segment.with_enabled_status s true normal)).
    reflexivity.
  - apply (bulk_after_handler tapeId true normal
             (fun _ s => if Segment.id s =? segId
                         then Segment.with_enabled_status s (negb (Segment.enabled s))
                                (if negb (Segment.enabled s) then normal else off)
                         else s)).
    intros _ s. destruct (Segment.id s =? segId); reflexivity.
  - apply (bulk_after_handler tapeId false off
             (fun _ s => if Segment.id s =? segId
                         then Segment.with_enabled_status s (negb (Segment.enabled s))
                                (if negb (Segment.enabled s) then normal else off)
                         else s)).
    intros _ s. destruct (Segment.id s =? segId); reflexivity.
Qed.

(** ** Derived numbers *)

Lemma list_max_attained (l : list nat) : l <> [] -> In (list_max l) l.
Proof.
  induction l as [| a l IH]; [contradiction |]. intros _.
  destruct l as [| b l].
  - simpl. left. lia.
  - assert (H : In (list_max (b :: l)) (b :: l)) by (apply IH; discriminate).
    change (list_max (a :: b :: l)) with (Nat.max a (list_max (b :: l))).
    destruct (Nat.max_spec a (list_max (b :: l))) as [[_ ->] | [_ ->]].
    + right. exact H.
    + left. reflexivity.
Qed.

(** X14 (getMaxSegId): [getMaxSegId] is the largest segment id of the
    whole system: no segment of any tape has a larger id, some segment has
    exactly this id when there is a segment, and it is 0 when there is
    none. *)
Theorem getMaxSegId_is_the_largest_id :
  forall tapes : list Tape.t,
    (forall t s, In t tapes -> In s (Tape.segments t) ->
                 Segment.id s <= getMaxSegId tapes)
    /\ (allSegments tapes <> [] ->
        exists t s, In t tapes /\ In s (Tape.segments t)
                    /\ Segment.id s = getMaxSegId tapes)
    /\ (allSegments tapes = [] -> getMaxSegId tapes = 0).
Proof.
  intros tapes. rewrite getMaxSegId_list_max. repeat split.
  - intros t s Ht Hs. apply list_max_ge.
    apply (in_tapeSegIds t); [exact Ht |]. unfold tapeSegIds. apply in_map. exact Hs.
  - intros Hne.
    assert (Hin : In (list_max (segmentIds tapes)) (segmentIds tapes)).
    { apply list_max_attained. unfold segmentIds. intros C.
      apply map_eq_nil in C. contradiction. }
    unfold segmentIds in Hin. apply in_map_iff in Hin. destruct Hin as (s & Es & Hs).
    unfold allSegments in Hs. apply in_flat_map in Hs. destruct Hs as (t & Ht & Hs).
    exists t, s. repeat split; assumption.
  - intros E. unfold segmentIds. rewrite E. reflexivity.
Qed.

Lemma acknowledge_all_map (ids : list nat) (alerts : list Alert.t) :
  fold_left (fun l i => acknowledgeAlert i l) ids alerts
  = map (fun a => if existsb (Nat.eqb (Alert.id a)) ids
                  then Alert.with_acknowledged a true else a) alerts.
Proof.
  revert alerts; induction ids as [| i ids IH]; intros alerts; simpl.
  - symmetry. apply map_id_on. reflexivity.
  - rewrite IH. unfold acknowledgeAlert. rewrite map_map. apply map_ext. intros a.
    destruct (Alert.id a =? i) eqn:E; simpl.
    + destruct (existsb _ ids); reflexivity.
    + reflexivity.
Qed.

(** X15 (acknowledgeAlert, unacknowledgedAlerts): acknowledging an id
    lowers the badge count by the number of unacknowledged alerts with
    that id and never raises it; after every alert's id has been
    acknowledged the count is 0. *)
Theorem acknowledgeAlert_lowers_badge :
  forall (id : nat) (alerts : list Alert.t),
    unacknowledgedAlerts (acknowledgeAlert id alerts)
    + List.length (filter (fun a => (Alert.id a =? id) && negb (Alert.acknowledged a))
                          alerts)
    = unacknowledgedAlerts alerts
    /\ unacknowledgedAlerts (acknowledgeAlert id alerts) <= unacknowledgedAlerts alerts
    /\ unacknowledgedAlerts
         (fold_left (fun l i => acknowledgeAlert i l) (map Alert.id alerts) alerts) = 0.
Proof.
  intros id alerts.
  assert (H : unacknowledgedAlerts (acknowledgeAlert id alerts)
              + List.length (filter (fun a => (Alert.id a =? id)
                                              && negb (Alert.acknowledged a)) alerts)
              = unacknowledgedAlerts alerts).
  { unfold unacknowledgedAlerts, acknowledgeAlert.
    induction alerts as [| a alerts IH]; simpl; [reflexivity |].
    destruct (Alert.id a =? id); simpl;
      destruct (Alert.acknowledged a); simpl; lia. }
  split; [exact H |]. split; [lia |].
  rewrite acknowledge_all_map. unfold unacknowledgedAlerts.
  assert (Hall : forall l : list Alert.t,
             incl l alerts ->
             filter (fun a => negb (Alert.acknowledged a))
                    (map (fun a => if existsb (Nat.eqb (Alert.id a)) (map Alert.id alerts)
                                   then Alert.with_acknowledged a true else a) l) = []).
  { induction l as [| a l IHl]; intros Hincl; simpl; [reflexivity |].
    assert (Hex : existsb (Nat.eqb (Alert.id a)) (map Alert.id alerts) = true).
    { apply existsb_exists. exists (Alert.id a). split; [| apply Nat.eqb_refl].
      apply in_map. apply Hincl. left; reflexivity. }
    rewrite Hex. simpl. apply IHl. intros x Hx. apply Hincl. right; exact Hx. }
  rewrite (Hall alerts (incl_refl alerts)). reflexivity.
Qed.

Lemma toFixed1_near (x : Q) :
  (x - (1 # 20) <= toFixed1 x)%Q /\ (toFixed1 x <= x + (1 # 20))%Q.
Proof.
  unfold toFixed1. destruct (Qle_bool 0 x).
  - pose proof (Qfloor_le (x * 10 + (1 # 2))) as Hlo.
    pose proof (Qlt_floor (x * 10 + (1 # 2))) as Hhi.
    rewrite inject_Z_plus in Hhi. change (inject_Z 1) with 1%Q in Hhi.
    generalize dependent (inject_Z (Qfloor (x * 10 + (1 # 2)))). intros k Hlo Hhi.
    unfold Qdiv. change (/ 10)%Q with (1 # 10)%Q. split; lra.
  - pose proof (Qfloor_le (- x * 10 + (1 # 2))) as Hlo.
    pose proof (Qlt_floor (- x * 10 + (1 # 2))) as Hhi.
    rewrite inject_Z_plus in Hhi. change (inject_Z 1) with 1%Q in Hhi.
    generalize dependent (inject_Z (Qfloor (- x * 10 + (1 # 2)))). intros k Hlo Hhi.
    unfold Qdiv. change (/ 10)%Q with (1 # 10)%Q. split; lra.
Qed.

Lemma toFixed1_one_decimal (x : Q) : one_decimal (toFixed1 x).
Proof.
  unfold toFixed1, one_decimal. destruct (Qle_bool 0 x).
  - eexists. reflexivity.
  - exists (- Qfloor (- x * 10 + (1 # 2)))%Z. rewrite inject_Z_opp.
    unfold Qdiv. ring.
Qed.

Lemma toFixed1_nonneg_range (x : Q) (m : Z) :
  (0 <= x)%Q -> (x <= inject_Z m / 10)%Q ->
  (0 <= toFixed1 x)%Q /\ (toFixed1 x <= inject_Z m / 10)%Q.
Proof.
  intros H0 Hm. unfold toFixed1.
  assert (Hb : Qle_bool 0 x = true) by (apply Qle_bool_iff; exact H0).
  rewrite Hb.
  unfold Qdiv in *. change (/ 10)%Q with (1 # 10)%Q in *.
  assert (K1 : (0 <= Qfloor (x * 10 + (1 # 2)))%Z).
  { rewrite <- (Qfloor_Z 0). apply Qfloor_resp_le. change (inject_Z 0) with 0%Q. lra. }
  assert (K2 : (Qfloor (x * 10 + (1 # 2)) < m + 1)%Z).
  { rewrite Zlt_Qlt. eapply Qle_lt_trans; [apply Qfloor_le |].
    rewrite inject_Z_plus. change (inject_Z 1) with 1%Q. lra. }
  assert (K3 : (Qfloor (x * 10 + (1 # 2)) <= m)%Z) by lia.
  rewrite Zle_Qle in K1, K3. change (inject_Z 0) with 0%Q in K1.
  split; lra.
Qed.

Lemma sum_temperature_range (a b : Q) (l : list Segment.t) (acc : Q) :
  Forall (fun s => (a <= Segment.temperature s)%Q /\ (Segment.temperature s <= b)%Q) l ->
  (acc + inject_Z (Z.of_nat (List.length l)) * a
   <= fold_left (fun x s => x + Segment.temperature s) l acc)%Q
  /\ (fold_left (fun x s => x + Segment.temperature s) l acc
      <= acc + inject_Z (Z.of_nat (List.length l)) * b)%Q.
Proof.
  revert acc; induction l as [| s l IH]; intros acc H.
  - simpl. change (inject_Z 0) with 0%Q. split; lra.
  - inversion H as [| ? ? [Hs1 Hs2] Hl]; subst.
    specialize (IH (acc + Segment.temperature s)%Q Hl).
    cbn [fold_left List.length]. rewrite Nat2Z.inj_succ. unfold Z.succ.
    rewrite inject_Z_plus. change (inject_Z 1) with 1%Q.
    destruct IH as [IH1 IH2].
    generalize dependent (inject_Z (Z.of_nat (List.length l))). intros N IH1 IH2.
    split; nra.
Qed.

Lemma mean_between (a b : Q) (l : list Segment.t) :
  l <> [] ->
  Forall (fun s => (a <= Segment.temperature s)%Q /\ (Segment.temperature s <= b)%Q) l ->
  (a - (1 # 20)
   <= toFixed1 (fold_left (fun x s => x + Segment.temperature s) l 0
                / inject_Z (Z.of_nat (List.length l))))%Q
  /\ (toFixed1 (fold_left (fun x s => x + Segment.temperature s) l 0
                / inject_Z (Z.of_nat (List.length l)))
      <= b + (1 # 20))%Q.
Proof.
  intros Hne Hab.
  destruct (sum_temperature_range a b l 0%Q Hab) as [S1 S2].
  assert (Hpos : (0 < inject_Z (Z.of_nat (List.length l)))%Q).
  { change 0%Q with (inject_Z 0). rewrite <- Zlt_Qlt.
    destruct l; [contradiction | simpl; lia]. }
  set (sum := fold_left (fun x s => (x + Segment.temperature s)%Q) l 0%Q) in *.
  set (N := inject_Z (Z.of_nat (List.length l))) in *.
  assert (A1 : (a <= sum / N)%Q) by (apply Qle_shift_div_l; [exact Hpos | lra]).
  assert (A2 : (sum / N <= b)%Q) by (apply Qle_shift_div_r; [exact Hpos | lra]).
  destruct (toFixed1_near (sum / N)) as [N1 N2].
  split; lra.
Qed.

(** X16 (avgTemp): the header shows the dash instead of an average
    exactly when no segment has its own flag set. Otherwise the number
    shown is a multiple of 0.1 and lies, up to the 0.05 of rounding,
    between the lowest and the highest temperature of the counted
    segments. *)
Theorem avgTemp_between_extremes :
  forall tapes : list Tape.t,
    (avgTemp tapes = None <-> enabledSegments tapes = [])
    /\ forall q, avgTemp tapes = Some q ->
         one_decimal q
         /\ forall a b : Q,
              Forall (fun s => (a <= Segment.temperature s)%Q
                               /\ (Segment.temperature s <= b)%Q)
                     (enabledSegments tapes) ->
              (a - (1 # 20) <= q)%Q /\ (q <= b + (1 # 20))%Q.
Proof.
  intros tapes. unfold avgTemp, activeCount.
  destruct (enabledSegments tapes) as [| s l] eqn:E.
  - simpl. split; [split; reflexivity |]. intros q C. discriminate C.
  - change (0 <? List.length (s :: l)) with true. cbv iota.
    split; [split; intros C; discriminate C |].
    intros q Hq. injection Hq as <-.
    split; [apply toFixed1_one_decimal |].
    intros a b Hab.
    exact (mean_between a b (s :: l) ltac:(discriminate) Hab).
Qed.

(** X16, on the tapes generated at start with half draws: all enabled
    segments read between -0.5 and 5.5 degrees. *)
Lemma avgTemp_between_extremes_example :
  Forall (fun s => (-(1 # 2) <= Segment.temperature s)%Q
                   /\ (Segment.temperature s <= 11 # 2)%Q)
         (enabledSegments (run createInitialTapes env_half 0))
  /\ exists q, avgTemp (run createInitialTapes env_half 0) = Some q
               /\ (-(1 # 2) - (1 # 20) <= q)%Q /\ (q <= (11 # 2) + (1 # 20))%Q.
Proof.
  assert (H : Forall (fun s => (-(1 # 2) <= Segment.temperature s)%Q
                               /\ (Segment.temperature s <= 11 # 2)%Q)
                     (enabledSegments (run createInitialTapes env_half 0))).
  { vm_compute. repeat constructor; discriminate. }
  split; [exact H |].
  destruct (avgTemp (run createInitialTapes env_half 0)) as [q |] eqn:E.
  - exists q. split; [reflexivity |].
    exact (proj2 (proj2 (avgTemp_between_extremes _) q E) _ _ H).
  - vm_compute in E. discriminate E.
Defined.

Lemma sum_power_range (l : list Segment.t) (acc : Q) :
  Forall (fun s => (0 <= Segment.power s <= 100)%Z) l ->
  (acc <= fold_left (fun x s => x + inject_Z (Segment.power s) / 100 * (1 # 2)) l acc)%Q
  /\ (fold_left (fun x s => x + inject_Z (Segment.power s) / 100 * (1 # 2)) l acc
      <= acc + inject_Z (Z.of_nat (List.length l)) * (1 # 2))%Q.
Proof.
  revert acc; induction l as [| s l IH]; intros acc H.
  - simpl. change (inject_Z 0) with 0%Q. split; lra.
  - inversion H as [| ? ? [Hs1 Hs2] Hl]; subst.
    specialize (IH (acc + inject_Z (Segment.power s) / 100 * (1 # 2))%Q Hl).
    cbn [fold_left List.length]. rewrite Nat2Z.inj_succ. unfold Z.succ.
    rewrite inject_Z_plus. change (inject_Z 1) with 1%Q.
    rewrite Zle_Qle in Hs1, Hs2.
    change (inject_Z 0) with 0%Q in Hs1. change (inject_Z 100) with 100%Q in Hs2.
    destruct IH as [IH1 IH2].
    unfold Qdiv in *. change (/ 100)%Q with (1 # 100)%Q in *.
    split; lra.
Qed.

(** X17 (totalPower): when every counted segment has a power from 0 to
    100, the total shown is a multiple of 0.1 between 0 and half a
    kilowatt per counted segment. *)
Theorem totalPower_at_most_half_kw_per_segment :
  forall tapes : list Tape.t,
    Forall (fun s => (0 <= Segment.power s <= 100)%Z) (enabledSegments tapes) ->
    one_decimal (totalPower tapes)
    /\ (0 <= totalPower tapes)%Q
    /\ (totalPower tapes <= inject_Z (Z.of_nat (activeCount tapes)) * (1 # 2))%Q.
Proof.
  intros tapes H. unfold totalPower, activeCount.
  split; [apply toFixed1_one_decimal |].
  destruct (sum_power_range (enabledSegments tapes) 0%Q H) as [S1 S2].
  set (sum := fold_left
                (fun x s => (x + inject_Z (Segment.power s) / 100 * (1 # 2))%Q)
                (enabledSegments tapes) 0%Q) in *.
  assert (Hm : (sum <= inject_Z (5 * Z.of_nat (List.length (enabledSegments tapes))) / 10)%Q).
  { rewrite inject_Z_mult. change (inject_Z 5) with 5%Q.
    unfold Qdiv. change (/ 10)%Q with (1 # 10)%Q. lra. }
  destruct (toFixed1_nonneg_range sum _ S1 Hm) as [T1 T2].
  split; [exact T1 |].
  rewrite inject_Z_mult in T2. change (inject_Z 5) with 5%Q in T2.
  unfold Qdiv in T2. change (/ 10)%Q with (1 # 10)%Q in T2. lra.
Qed.

(** X17, on the tapes generated at start with half draws: ten counted
    segments of 65 % each give 3.3 kW (3.25 rounded). *)
Lemma totalPower_at_most_half_kw_per_segment_example :
  Forall (fun s => (0 <= Segment.power s <= 100)%Z)
         (enabledSegments (run createInitialTapes env_half 0))
  /\ (totalPower (run createInitialTapes env_half 0) == 33 # 10)%Q
  /\ (totalPower (run createInitialTapes env_half 0)
      <= inject_Z (Z.of_nat (activeCount (run createInitialTapes env_half 0))) * (1 # 2))%Q.
Proof.
  assert (H : Forall (fun s => (0 <= Segment.power s <= 100)%Z)
                     (enabledSegments (run createInitialTapes env_half 0))).
  { vm_compute. repeat constructor; discriminate. }
  split; [exact H |]. split; [vm_compute; reflexivity |].
  exact (proj2 (proj2 (totalPower_at_most_half_kw_per_segment _ H))).
Defined.

(** ** Loading and saving *)

(** X18 (migrateTapes): [migrateTapes] keeps the number and order of the
    tapes and each tape's id and name. Coordinates, contract number,
    length and width keep a value that is present and become "", "",
    "24", "50" when the key is missing or null. The enabled flag becomes
    true only when the key is missing: a null flag stays null. Segments
    become an array (empty when there was none) of as many segments as
    before, each with a sensors array. *)
Theorem migrateTapes_fills_missing_fields :
  forall (e : Env) (tapes : list RawTape.t) (n : nat),
    Forall2
      (fun t t' =>
         RawTape.id t' = RawTape.id t
         /\ RawTape.name t' = RawTape.name t
         /\ (forall v, RawTape.coordinates t = val v -> RawTape.coordinates t' = val v)
         /\ (RawTape.coordinates t = undefined \/ RawTape.coordinates t = null ->
             RawTape.coordinates t' = val "")
         /\ (forall v, RawTape.contractNumber t = val v ->
                       RawTape.contractNumber t' = val v)
         /\ (RawTape.contractNumber t = undefined \/ RawTape.contractNumber t = null ->
             RawTape.contractNumber t' = val "")
         /\ (forall v, RawTape.length t = val v -> RawTape.length t' = val v)
         /\ (RawTape.length t = undefined \/ RawTape.length t = null ->
             RawTape.length t' = val "24")
         /\ (forall v, RawTape.width t = val v -> RawTape.width t' = val v)
         /\ (RawTape.width t = undefined \/ RawTape.width t = null ->
             RawTape.width t' = val "50")
         /\ (RawTape.enabled t = undefined -> RawTape.enabled t' = val true)
         /\ (RawTape.enabled t <> undefined -> RawTape.enabled t' = RawTape.enabled t)
         /\ exists segs',
              RawTape.segments t' = val segs'
              /\ List.length segs' = List.length (arrOr (RawTape.segments t))
              /\ Forall has_sensors segs')
      tapes (run (migrateTapes tapes) e n).
Proof.
  intros e tapes n. unfold run, migrateTapes. apply mapM_Forall2. intros t k.
  unfold bind.
  pose proof (migrateSegments_has_sensors e (arrOr (RawTape.segments t)) k) as Hs.
  assert (Hl : List.length (fst (migrateSegments (arrOr (RawTape.segments t)) e k))
               = List.length (arrOr (RawTape.segments t))).
  { unfold migrateSegments. apply mapM_length. }
  destruct (migrateSegments (arrOr (RawTape.segments t)) e k) as [segs k1].
  cbn [fst ret RawTape.id RawTape.name RawTape.coordinates RawTape.contractNumber
       RawTape.length RawTape.width RawTape.enabled RawTape.segments] in *.
  split; [reflexivity |]. split; [reflexivity |].
  split; [intros v ->; reflexivity |]. split; [intros [-> | ->]; reflexivity |].
  split; [intros v ->; reflexivity |]. split; [intros [-> | ->]; reflexivity |].
  split; [intros v ->; reflexivity |]. split; [intros [-> | ->]; reflexivity |].
  split; [intros v ->; reflexivity |]. split; [intros [-> | ->]; reflexivity |].
  split; [intros ->; reflexivity |].
  split; [destruct (RawTape.enabled t); [contradiction | reflexivity | reflexivity] |].
  exists segs. repeat split; assumption.
Qed.

(** X18, on a tape whose flag is null and whose width is missing. *)
Lemma migrateTapes_fills_missing_fields_example :
  map RawTape.enabled
      (run (migrateTapes
              [RawTape.mk 4 "Лента 4" null (val "№7") (val "12") undefined undefined null])
           env_half 0)
  = [null]
  /\ map RawTape.width
         (run (migrateTapes
                 [RawTape.mk 4 "Лента 4" null (val "№7") (val "12") undefined undefined null])
              env_half 0)
     = [val "50"].
Proof.
  pose proof (migrateTapes_fills_missing_fields env_half
                [RawTape.mk 4 "Лента 4" null (val "№7") (val "12") undefined undefined null]
                0) as H.
  remember (run (migrateTapes
              [RawTape.mk 4 "Лента 4" null (val "№7") (val "12") undefined undefined null])
           env_half 0) as res eqn:Eres.
  clear Eres. inversion H as [| t t' r r' Ht Hr Et Er]; subst. inversion Hr; subst.
  destruct Ht as (_ & _ & _ & _ & _ & _ & _ & _ & _ & Hw & _ & Hen & _).
  split.
  - change (RawTape.enabled t' :: map RawTape.enabled [] = [null]).
    rewrite Hen by discriminate. reflexivity.
  - change (RawTape.width t' :: map RawTape.width [] = [val "50"]).
    rewrite Hw by (left; reflexivity). reflexivity.
Defined.

(** X19 (loadSettings): loading never changes a key other than [tapes]
    and [segments]; in particular the legacy [tapeLength] and [tapeWidth]
    stay in the blob. A blob with neither a [tapes] nor a [segments] array
    is returned as it is, a blob that has both keeps its [segments] next
    to the migrated tapes, and a missing or unparsable item gives [null].
    The last case and the case without arrays draw no random number. *)
Theorem loadSettings_touches_tapes_and_segments_only :
  forall (e : Env) (b : Blob.t) (n : nat),
    (Blob.tapeLength (run (migrate b) e n) = Blob.tapeLength b
     /\ Blob.tapeWidth (run (migrate b) e n) = Blob.tapeWidth b
     /\ Blob.alerts (run (migrate b) e n) = Blob.alerts b
     /\ Blob.systemOn (run (migrate b) e n) = Blob.systemOn b
     /\ Blob.autoMode (run (migrate b) e n) = Blob.autoMode b
     /\ Blob.thresholdTemp (run (migrate b) e n) = Blob.thresholdTemp b
     /\ Blob.alertSound (run (migrate b) e n) = Blob.alertSound b
     /\ Blob.pollInterval (run (migrate b) e n) = Blob.pollInterval b)
    /\ (truthy (Blob.tapes b) = false -> truthy (Blob.segments b) = false ->
        loadSettings (Some b) e n = (Some b, n))
    /\ (truthy (Blob.tapes b) = true ->
        Blob.segments (run (migrate b) e n) = Blob.segments b
        /\ Blob.tapes (run (migrate b) e n)
           = val (run (migrateTapes (arrOr (Blob.tapes b))) e n))
    /\ loadSettings None e n = (None, n).
Proof.
  intros e b n. split; [| split; [| split]].
  - unfold run, migrate, bind, ret.
    destruct (truthy (Blob.segments b) && negb (truthy (Blob.tapes b))).
    + destruct (migrateSegments (arrOr (Blob.segments b)) e n) as [segs n1].
      cbn [truthy Blob.tapes Blob.delete_segments Blob.with_tapes arrOr].
      destruct (migrateTapes _ e n1) as [ts n2]. repeat split.
    + destruct (truthy (Blob.tapes b)).
      * destruct (migrateTapes _ e n) as [ts n1]. repeat split.
      * repeat split.
  - intros Ht Hs. unfold loadSettings, migrate, bind, ret. rewrite Ht, Hs.
    cbn [andb]. rewrite Ht. reflexivity.
  - intros Ht. unfold run, migrate, bind, ret. rewrite Ht. cbn [negb].
    rewrite andb_false_r. cbv beta iota. rewrite Ht.
    destruct (migrateTapes (arrOr (Blob.tapes b)) e n) as [ts n1]. split; reflexivity.
  - reflexivity.
Qed.

(** X19, on the legacy blob: its tape length "30" is still a key of the
    loaded blob. *)
Lemma loadSettings_touches_tapes_and_segments_only_example :
  Blob.tapeLength (run (migrate legacy_blob) env_half 0) = val "30"
  /\ truthy (Blob.tapes current_blob) = true
  /\ Blob.segments (run (migrate current_blob) env_half 0) = undefined.
Proof.
  destruct (loadSettings_touches_tapes_and_segments_only env_half legacy_blob 0)
    as ((Hl & _) & _).
  destruct (loadSettings_touches_tapes_and_segments_only env_half current_blob 0)
    as (_ & _ & Hc & _).
  split; [rewrite Hl; reflexivity |]. split; [reflexivity |].
  rewrite (proj1 (Hc eq_refl)). reflexivity.
Defined.

Lemma toJSON_normal (tapes : list Tape.t) : Forall normal_tape (map Tape_toJSON tapes).
Proof.
  apply Forall_forall. intros r Hr. apply in_map_iff in Hr. destruct Hr as (t & <- & _).
  unfold normal_tape, Tape_toJSON. simpl.
  repeat split; try (eexists; reflexivity); try discriminate.
  eexists. split; [reflexivity |].
  apply Forall_forall. intros s Hs. apply in_map_iff in Hs. destruct Hs as (x & <- & _).
  eexists. reflexivity.
Qed.

Lemma Segment_toJSON_inj (s1 s2 : Segment.t) :
  Segment_toJSON s1 = Segment_toJSON s2 -> s1 = s2.
Proof.
  destruct s1, s2. unfold Segment_toJSON. simpl. intros H.
  injection H as -> -> -> -> -> -> -> -> ->. reflexivity.
Qed.

Lemma map_inj {A B : Type} (f : A -> B) :
  (forall a b, f a = f b -> a = b) -> forall l1 l2, map f l1 = map f l2 -> l1 = l2.
Proof.
  intros Hf l1; induction l1 as [| a l1 IH]; intros [| b l2] H; simpl in H;
    try discriminate H; [reflexivity |].
  injection H as Hab Hl. f_equal; [apply Hf; exact Hab | apply IH; exact Hl].
Qed.

Lemma Tape_toJSON_inj (t1 t2 : Tape.t) : Tape_toJSON t1 = Tape_toJSON t2 -> t1 = t2.
Proof.
  destruct t1, t2. unfold Tape_toJSON. simpl. intros H.
  injection H as -> -> -> -> -> -> Hs ->.
  apply (map_inj _ Segment_toJSON_inj) in Hs. subst. reflexivity.
Qed.

Lemma settled_empty : settled emptyBlob.
Proof. split; [reflexivity | exact I]. Qed.

Lemma settled_spread (b d : Blob.t) : settled b -> typed_data d -> settled (spread b d).
Proof.
  intros [Hc Hn] [Hs Ht]. unfold settled, spread. simpl. rewrite Hs. simpl.
  destruct (Blob.tapes d) as [| | ts]; simpl.
  - split; assumption.
  - contradiction.
  - split; [apply andb_false_r | exact Ht].
Qed.

Lemma spread_empty (d : Blob.t) : spread emptyBlob d = d.
Proof.
  assert (K : forall (A : Type) (x : js A), spreadKey undefined x = x)
    by (intros A x; destruct x; reflexivity).
  destruct d as [a1 a2 a3 a4 a5 a6 a7 a8 a9 a10]. unfold spread. simpl.
  rewrite !K. reflexivity.
Qed.

(** What [saveSettings] stores: the merge of the data into a settled blob,
    which is the stored blob itself when that was settled already. *)
Lemma saveSettings_result (data : Blob.t) (stored : option Blob.t) (e : Env) (n : nat) :
  exists ex : Blob.t,
    settled ex
    /\ fst (saveSettings data stored e n) = Some (spread ex data)
    /\ (stored = None -> ex = emptyBlob)
    /\ (forall b, stored = Some b -> ex = fst (migrate b e n))
    /\ (forall b, stored = Some b -> settled b ->
                  ex = b /\ snd (saveSettings data stored e n) = n).
Proof.
  unfold saveSettings, loadSettings, bind.
  destruct stored as [b |].
  - pose proof (migrate_settles e b n) as Hs.
    pose proof (migrate_fixed e b n) as Hfix.
    destruct (migrate b e n) as [ex n1] eqn:Em. simpl in *.
    exists ex. split; [exact Hs |]. split; [reflexivity |].
    split; [discriminate |]. split.
    + intros b' E. injection E as <-. rewrite Em. reflexivity.
    + intros b' E Hb. injection E as <-. specialize (Hfix Hb).
      injection Hfix as -> ->. split; reflexivity.
  - exists emptyBlob. split; [exact settled_empty |]. split; [reflexivity |].
    split; [reflexivity |]. split; intros b E; discriminate E.
Qed.

Lemma typed_tapesData (tapes : list Tape.t) : typed_data (tapesData tapes).
Proof. split; [reflexivity | apply toJSON_normal]. Qed.

Lemma typed_settingsData (s : Settings.t) : typed_data (settingsData s).
Proof. split; [reflexivity | exact I]. Qed.

Lemma typed_alertsData (alerts : list Alert.t) : typed_data (alertsData alerts).
Proof. split; [reflexivity | exact I]. Qed.

Lemma saveSettings_step (data : Blob.t) (b : Blob.t) (e : Env) (n : nat) :
  settled b -> saveSettings data (Some b) e n = (Some (spread b data), n).
Proof.
  intros Hb.
  destruct (saveSettings_result data (Some b) e n) as (ex & _ & Hf & _ & _ & Hk).
  destruct (Hk b eq_refl Hb) as [-> Hn].
  destruct (saveSettings data (Some b) e n) as [r k]. simpl in *. subst. reflexivity.
Qed.

(** X20 (saveSettings, loadSettings): whatever was stored before, be it
    nothing, an unparsable item or a legacy blob, after the three saves of
    a render the stored blob holds the tapes as saved, and loading it
    gives back the settings and the alerts that were saved. Loading it
    changes nothing and draws no random number, and different tape lists
    are stored differently, so the tape list can be read back. *)
Theorem saved_state_is_loaded_back :
  forall (tapes : list Tape.t) (s : Settings.t) (alerts : list Alert.t)
         (stored : option Blob.t) (e : Env) (n : nat),
    (exists b : Blob.t,
        run (saveAll tapes s alerts stored) e n = Some b
        /\ Blob.tapes b = val (map Tape_toJSON tapes)
        /\ initialSettings (Some b) = s
        /\ initialAlerts (Some b) = alerts
        /\ forall e' n', loadSettings (Some b) e' n' = (Some b, n'))
    /\ forall ts1 ts2 : list Tape.t,
         map Tape_toJSON ts1 = map Tape_toJSON ts2 -> ts1 = ts2.
Proof.
  intros tapes s alerts stored e n. split; [| apply map_inj; exact Tape_toJSON_inj].
  unfold run, saveAll, bind.
  destruct (saveSettings_result (tapesData tapes) stored e n) as (ex & Hex & Hf & _).
  destruct (saveSettings (tapesData tapes) stored e n) as [st1 n1]. simpl in Hf. subst st1.
  pose proof (settled_spread ex _ Hex (typed_tapesData tapes)) as H1.
  rewrite (saveSettings_step (settingsData s) _ e n1 H1).
  pose proof (settled_spread _ _ H1 (typed_settingsData s)) as H2.
  rewrite (saveSettings_step (alertsData alerts) _ e n1 H2).
  pose proof (settled_spread _ _ H2 (typed_alertsData alerts)) as H3.
  eexists. split; [reflexivity |]. split; [reflexivity |].
  split; [| split].
  - destruct s as [so am tt [|] pi]; reflexivity.
  - reflexivity.
  - intros e' n'. unfold loadSettings, bind.
    rewrite (migrate_fixed e' _ n' H3). reflexivity.
Qed.

(** X21 (initial settings and alerts): with nothing loaded, or with a
    blob that lacks the keys, the settings start as on, automatic,
    threshold "5", sound on, poll interval "2", and the alerts as the
    built-in list. A saved [false] for the system or the mode is kept.
    The alert sound is off only for the stored text "false": any other
    text, a missing key or null means on. A saved alert list is used even
    when it is empty. *)
Theorem initial_settings_defaults :
  initialSettings None = Settings.mk true true "5" true "2"
  /\ initialSettings (Some emptyBlob) = Settings.mk true true "5" true "2"
  /\ initialAlerts None = generateAlerts
  /\ initialAlerts (Some emptyBlob) = generateAlerts
  /\ (forall b v, Blob.systemOn b = val v ->
                  Settings.systemOn (initialSettings (Some b)) = v)
  /\ (forall b v, Blob.autoMode b = val v ->
                  Settings.autoMode (initialSettings (Some b)) = v)
  /\ (forall b, Settings.alertSound (initialSettings (Some b)) = false
                <-> Blob.alertSound b = val "false")
  /\ (forall b l, Blob.alerts b = val l -> initialAlerts (Some b) = l).
Proof.
  repeat split; try reflexivity.
  - intros b v E. unfold initialSettings. simpl. rewrite E. reflexivity.
  - intros b v E. unfold initialSettings. simpl. rewrite E. reflexivity.
  - unfold initialSettings. simpl. intros H.
    destruct (Blob.alertSound b) as [| | v]; try discriminate H.
    destruct (string_dec v "false") as [-> | Hne]; [reflexivity |].
    exfalso.
    repeat (destruct v as [| [[|] [|] [|] [|] [|] [|] [|] [|]] v];
            try discriminate H; try (apply Hne; reflexivity)).
  - unfold initialSettings. simpl. intros ->. reflexivity.
  - intros b l E. unfold initialAlerts. simpl. rewrite E. reflexivity.
Qed.

(** X21, on a blob whose alert sound is the text "off" and whose alert
    list is empty: the sound is on and no alert is shown. *)
Lemma initial_settings_defaults_example :
  Settings.alertSound
    (initialSettings
       (Some (Blob.mk undefined undefined undefined undefined (val [])
                undefined undefined undefined (val "off") undefined))) = true
  /\ initialAlerts
       (Some (Blob.mk undefined undefined undefined undefined (val [])
                undefined undefined undefined (val "off") undefined)) = [].
Proof.
  destruct initial_settings_defaults as (_ & _ & _ & _ & _ & _ & Hs & Ha).
  split.
  - destruct (Settings.alertSound _) eqn:E; [reflexivity |].
    apply Hs in E. discriminate E.
  - apply Ha. reflexivity.
Defined.

(** X22 (saveSettings): after one save of data of the component, whatever
    was stored before, the stored blob is settled: loading it changes
    nothing and draws no random number. Every key the data has is stored
    as given and every other key is as [loadSettings] returned it, so a
    save of one group of keys keeps the others. Over a missing or
    unparsable item exactly the data is stored. Over a legacy blob the
    [segments] key is gone and [tapes] is an array, while the legacy
    [tapeLength] is still there. *)
Theorem saveSettings_merges_into_loaded :
  forall (data : Blob.t) (stored : option Blob.t) (e : Env) (n : nat),
    typed_data data ->
    exists b : Blob.t,
      run (saveSettings data stored) e n = Some b
      /\ settled b
      /\ (forall e' n', loadSettings (Some b) e' n' = (Some b, n'))
      /\ (forall v, Blob.tapes data = val v -> Blob.tapes b = val v)
      /\ (forall v, Blob.alerts data = val v -> Blob.alerts b = val v)
      /\ (Blob.alerts data = undefined ->
          Blob.alerts b = savedKey Blob.alerts (run (loadSettings stored) e n))
      /\ (Blob.tapes data = undefined ->
          Blob.tapes b = savedKey Blob.tapes (run (loadSettings stored) e n))
      /\ (Blob.systemOn data = undefined ->
          Blob.systemOn b = savedKey Blob.systemOn (run (loadSettings stored) e n))
      /\ (stored = None -> b = data)
      /\ (forall l, stored = Some l ->
                    truthy (Blob.segments l) = true -> truthy (Blob.tapes l) = false ->
                    Blob.tapeLength data = undefined ->
                    Blob.segments b = undefined
                    /\ truthy (Blob.tapes b) = true
                    /\ Blob.tapeLength b = Blob.tapeLength l).
Proof.
  intros data stored e n Hd. unfold run.
  destruct (saveSettings_result data stored e n) as (ex & Hex & Hf & Hnone & Hsome & _).
  exists (spread ex data). split; [exact Hf |].
  pose proof (settled_spread ex data Hex Hd) as Hset.
  split; [exact Hset |].
  split; [intros e' n'; unfold loadSettings, bind;
          rewrite (migrate_fixed e' _ n' Hset); reflexivity |].
  assert (Hload : savedKey Blob.alerts (fst (loadSettings stored e n)) = Blob.alerts ex
                  /\ savedKey Blob.tapes (fst (loadSettings stored e n)) = Blob.tapes ex
                  /\ savedKey Blob.systemOn (fst (loadSettings stored e n))
                     = Blob.systemOn ex).
  { destruct stored as [l |].
    - rewrite (Hsome l eq_refl). unfold loadSettings, bind.
      destruct (migrate l e n); repeat split.
    - rewrite (Hnone eq_refl). repeat split. }
  destruct Hload as (La & Lt & Lo).
  split; [intros v E; unfold spread; simpl; rewrite E; reflexivity |].
  split; [intros v E; unfold spread; simpl; rewrite E; reflexivity |].
  split; [intros E; rewrite La; unfold spread; simpl; rewrite E; reflexivity |].
  split; [intros E; rewrite Lt; unfold spread; simpl; rewrite E; reflexivity |].
  split; [intros E; rewrite Lo; unfold spread; simpl; rewrite E; reflexivity |].
  split; [intros E; rewrite (Hnone E); apply spread_empty |].
  intros l E Hs Ht Hlen. rewrite (Hsome l E).
  destruct Hd as [Hds Hdt].
  unfold spread. simpl. rewrite Hds, Hlen. simpl.
  unfold migrate, bind, ret. rewrite Hs, Ht. simpl.
  destruct (migrateSegments (arrOr (Blob.segments l)) e n) as [segs n1]. simpl.
  destruct (migrateTapes _ e n1) as [ts n2]. simpl.
  split; [reflexivity |]. split; [| reflexivity].
  destruct (Blob.tapes data); [reflexivity | contradiction | reflexivity].
Qed.

(** X22, saving the alerts over the legacy blob. *)
Lemma saveSettings_merges_into_loaded_example :
  typed_data (alertsData [])
  /\ exists b, run (saveSettings (alertsData []) (Some legacy_blob)) env_half 0 = Some b
               /\ Blob.segments b = undefined
               /\ Blob.alerts b = val []
               /\ Blob.tapeLength b = val "30".
Proof.
  split; [apply typed_alertsData |].
  destruct (saveSettings_merges_into_loaded (alertsData []) (Some legacy_blob) env_half 0
              (typed_alertsData []))
    as (b & Hb & _ & _ & _ & Ha & _ & _ & _ & _ & Hl).
  exists b. split; [exact Hb |].
  destruct (Hl legacy_blob eq_refl eq_refl eq_refl eq_refl) as (H1 & _ & H3).
  split; [exact H1 |]. split; [apply Ha; reflexivity | exact H3].
Defined.

(** ** The heat bar *)

(** X23 (getHeatLevel): the heat level is a whole number from 1 to 7 and
    never falls when the power rises; it is 1 for any power up to 15
    (negative ones too) and 7 for any power above 90. *)
Theorem getHeatLevel_monotone :
  forall p q : Z,
    (1 <= getHeatLevel p <= 7)%Z
    /\ ((p <= q)%Z -> (getHeatLevel p <= getHeatLevel q)%Z)
    /\ ((p <= 15)%Z <-> getHeatLevel p = 1%Z)
    /\ ((90 < p)%Z <-> getHeatLevel p = 7%Z).
Proof.
  intros p q. unfold getHeatLevel.
  repeat match goal with
         | |- context [(?a <=? ?b)%Z] => destruct (Z.leb_spec a b)
         end; repeat split; intros; try lia; try discriminate.
Qed.

(** ** Field updates *)

(** X24 (updateTapeField): an update of field [f] with [v] gives every
    tape with the id a field [f] that holds [v] and leaves its other text
    fields, its id, its flag and its segments as they were; a tape with
    another id is returned as it was. A second update of the same field
    replaces the first, and updates of two different fields can be made
    in either order. *)
Theorem updateTapeField_writes_one_field :
  forall (tapeId : nat) (f g : TapeField) (v w : string) (prev : list Tape.t),
    Forall2
      (fun t t' =>
         if Tape.id t =? tapeId
         then getField t' f = v
              /\ (forall h, h <> f -> getField t' h = getField t h)
              /\ Tape.id t' = Tape.id t
              /\ Tape.enabled t' = Tape.enabled t
              /\ Tape.segments t' = Tape.segments t
         else t' = t)
      prev (updateTapeField tapeId f v prev)
    /\ tapeIds (updateTapeField tapeId f v prev) = tapeIds prev
    /\ map Tape.enabled (updateTapeField tapeId f v prev) = map Tape.enabled prev
    /\ allSegments (updateTapeField tapeId f v prev) = allSegments prev
    /\ updateTapeField tapeId f w (updateTapeField tapeId f v prev)
       = updateTapeField tapeId f w prev
    /\ (f <> g ->
        updateTapeField tapeId f v (updateTapeField tapeId g w prev)
        = updateTapeField tapeId g w (updateTapeField tapeId f v prev)).
Proof.
  intros tapeId f g v w prev. unfold updateTapeField, tapeIds.
  split; [| split; [| split; [| split; [| split]]]].
  - apply Forall2_map_r. intros t _.
    destruct (Tape.id t =? tapeId); [| reflexivity].
    split; [destruct f; reflexivity |].
    split; [| destruct f; repeat split].
    intros h Hh. destruct f, h; try reflexivity; contradiction.
  - rewrite map_map. apply map_ext. intros t.
    destruct (Tape.id t =? tapeId); [destruct f |]; reflexivity.
  - rewrite map_map. apply map_ext. intros t.
    destruct (Tape.id t =? tapeId); [destruct f |]; reflexivity.
  - unfold allSegments. rewrite flat_map_concat_map, map_map, <- flat_map_concat_map.
    apply flat_map_ext. intros t.
    destruct (Tape.id t =? tapeId); [destruct f |]; reflexivity.
  - rewrite map_map. apply map_ext. intros t.
    destruct (Nat.eqb_spec (Tape.id t) tapeId) as [E | E].
    + assert (Hid : Tape.id (setField t f v) = tapeId) by (destruct f; exact E).
      rewrite Hid, Nat.eqb_refl. destruct f; reflexivity.
    + destruct (Nat.eqb_spec (Tape.id t) tapeId); [contradiction | reflexivity].
  - intros Hne. rewrite !map_map. apply map_ext. intros t.
    destruct (Nat.eqb_spec (Tape.id t) tapeId) as [E | E].
    + assert (Hg : Tape.id (setField t g w) = tapeId) by (destruct g; exact E).
      assert (Hf : Tape.id (setField t f v) = tapeId) by (destruct f; exact E).
      rewrite Hg, Hf, Nat.eqb_refl.
      destruct f, g; try reflexivity; contradiction.
    + destruct (Nat.eqb_spec (Tape.id t) tapeId); [contradiction | reflexivity].
Qed.

(** X24, for the fields name and width of tape 1: after the two updates
    the name is "A", the width "60" and the length still "24". *)
Lemma updateTapeField_writes_one_field_example :
  f_name <> f_width
  /\ updateTapeField 1 f_name "A" (updateTapeField 1 f_width "60" tapes_disabled)
     = updateTapeField 1 f_width "60" (updateTapeField 1 f_name "A" tapes_disabled)
  /\ map (fun t => (Tape.name t, Tape.width t, Tape.length t))
         (updateTapeField 1 f_name "A" (updateTapeField 1 f_width "60" tapes_disabled))
     = [("A", "60", "24")].
Proof.
  assert (H : f_name <> f_width) by discriminate.
  split; [exact H |].
  split; [| reflexivity].
  exact (proj2 (proj2 (proj2 (proj2 (proj2
           (updateTapeField_writes_one_field 1 f_name f_width "A" "60" tapes_disabled)))))
           H).
Defined.



(** ** Switching one segment and the counter of active segments *)

Lemma map_unaddressed {A : Type} (key : A -> nat) (k : nat) (h : A -> A) (l : list A) :
  ~ In k (map key l) -> map (fun a => if key a =? k then h a else a) l = l.
Proof.
  induction l as [| a l IH]; intros Hn; simpl; [reflexivity |].
  destruct (Nat.eqb_spec (key a) k) as [E | E].
  - exfalso. apply Hn. left. exact E.
  - f_equal. apply IH. intros Hin. apply Hn. right. exact Hin.
Qed.

Lemma toggle_count_list (segId : nat) (s : Segment.t) (l : list Segment.t) :
  NoDup (map Segment.id l) -> In s l -> Segment.id s = segId ->
  let l' := map (fun s => if Segment.id s =? segId
                          then Segment.with_enabled_status s
                                 (negb (Segment.enabled s))
                                 (if negb (Segment.enabled s) then normal else off)
                          else s) l in
  if Segment.enabled s
  then List.length (filter Segment.enabled l) = S (List.length (filter Segment.enabled l'))
  else List.length (filter Segment.enabled l') = S (List.length (filter Segment.enabled l)).
Proof.
  induction l as [| a l IH]; intros Hnd Hin Hid; [destruct Hin |].
  simpl in Hnd. inversion Hnd as [| x xs Hx Hxs]; subst x xs.
  destruct Hin as [-> | Hin].
  - cbv zeta. simpl map. rewrite Hid, Nat.eqb_refl.
    rewrite (map_unaddressed Segment.id _ _ l) by (rewrite <- Hid; exact Hx).
    simpl. destruct s as [i nm en pw tt tp st ss]; simpl. destruct en; reflexivity.
  - assert (Ha : Segment.id a <> segId).
    { intros E. apply Hx. rewrite E, <- Hid. apply in_map. exact Hin. }
    specialize (IH Hxs Hin Hid). cbv zeta in *. simpl map.
    destruct (Nat.eqb_spec (Segment.id a) segId); [contradiction |].
    simpl. destruct (Segment.enabled s), (Segment.enabled a); simpl; rewrite IH; reflexivity.
Qed.

(** X26 (toggleSegment, activeCount): where tape ids are distinct and the
    segment ids of the addressed tape are distinct, switching a segment
    that is on that tape moves the counter of active segments by exactly
    one: up if the segment was off, down if it was on. *)
Theorem toggleSegment_moves_count_by_one :
  forall (tapeId segId : nat) (prev : list Tape.t) (t : Tape.t) (s : Segment.t),
    NoDup (tapeIds prev) -> NoDup (tapeSegIds t) ->
    In t prev -> In s (Tape.segments t) ->
    Tape.id t = tapeId -> Segment.id s = segId ->
    if Segment.enabled s
    then activeCount prev = S (activeCount (toggleSegment tapeId segId prev))
    else activeCount (toggleSegment tapeId segId prev) = S (activeCount prev).
Proof.
  intros tapeId segId prev t s Hnd Hns Ht Hs Et Es.
  unfold activeCount, enabledSegments, allSegments, toggleSegment.
  induction prev as [| t0 prev IH]; [destruct Ht |].
  unfold tapeIds in Hnd. simpl in Hnd.
  inversion Hnd as [| x xs Hx Hxs]; subst x xs.
  simpl. rewrite !filter_app, !length_app.
  destruct Ht as [-> | Ht].
  - rewrite Et, Nat.eqb_refl.
    rewrite (map_unaddressed Tape.id _ _ prev) by (rewrite <- Et; exact Hx).
    pose proof (toggle_count_list segId s (Tape.segments t) Hns Hs Es) as H.
    cbv zeta in H. simpl.
    destruct (Segment.enabled s); rewrite H; reflexivity.
  - assert (H0 : Tape.id t0 <> tapeId).
    { intros E. apply Hx. rewrite E, <- Et. apply in_map. exact Ht. }
    destruct (Nat.eqb_spec (Tape.id t0) tapeId); [contradiction |].
    specialize (IH Hxs Ht).
    destruct (Segment.enabled s); rewrite IH; simpl; lia.
Qed.

(** X26, on a state with one enabled segment: switching it leaves none. *)
Lemma toggleSegment_moves_count_by_one_example :
  NoDup (tapeIds tapes_disabled)
  /\ activeCount tapes_disabled = 1
  /\ activeCount tapes_disabled = S (activeCount (toggleSegment 1 1 tapes_disabled)).
Proof.
  assert (H1 : NoDup (tapeIds tapes_disabled)).
  { repeat constructor. simpl. tauto. }
  split; [exact H1 |]. split; [reflexivity |].
  pose (s := Segment.mk 1 "Сегмент 1" true 60 3 5 normal "DS18B20-001"
               [ Sensor.mk "DS18B20-0101" "28-0A1B2C3D4E5F" 3 online "12:00:00" ]).
  pose (t := Tape.mk 1 "Лента 1" "" "" "24" "50" [ s ] false).
  assert (H2 : NoDup (tapeSegIds t)).
  { repeat constructor. simpl. tauto. }
  exact (toggleSegment_moves_count_by_one 1 1 tapes_disabled t s H1 H2
           (or_introl eq_refl) (or_introl eq_refl) eq_refl eq_refl).
Defined.
